(** * Maglev straight-forward register allocator

    A shallow embedding of [StraightForwardRegisterAllocator]
    (maglev-regalloc.cc) and of the merge-state helpers of
    maglev-regalloc-data.h, together with the properties of the
    allocator's specification that were checked against it.

    Conventions of the embedding.
    - Pointers are keys into stores: a [ValueNode*] is a [NodePtr], a
      [BasicBlock*] a [BlockPtr].  [values_] is a [std::map] keyed by
      [ValueNode*], whose entries never move, so a [LiveNodeInfo*] is
      the key of the entry it points to.
    - The allocator is a state-and-abort monad.  Dereferencing a null or
      dangling pointer, an [UNREACHABLE()], and a failing operand cast
      abort the run.  [DCHECK]s are compiled out (release build); they
      are quoted in comments where they matter.
    - Node ids, use positions and slot indices are [Z]; none of the
      modelled code does arithmetic on them apart from [top_of_stack_++].
    - Text written to the tracing stream is collected in a write-only
      log, one [TraceEvent] per print site. *)

From stdpp Require Import base option list gmap.
From Stdlib Require Import ZArith Lia.

Open Scope Z_scope.

(** ** Operands (src/compiler/backend/instruction.h, as far as used) *)

Abbreviation Register := Z (only parsing).
Abbreviation NodePtr := nat (only parsing).
Abbreviation BlockPtr := nat (only parsing).
Abbreviation InfoPtr := nat (only parsing).

Inductive MachineRepresentation := kTagged.
Inductive LocationKind := REGISTER | STACK_SLOT.

Record AllocatedOperand := mkAllocated {
  location_kind : LocationKind;
  representation : MachineRepresentation;
  index : Z
}.

Inductive ExtendedPolicy :=
  | NONE | REGISTER_OR_SLOT | REGISTER_OR_SLOT_OR_CONSTANT | FIXED_REGISTER
  | FIXED_FP_REGISTER | MUST_HAVE_REGISTER | MUST_HAVE_SLOT | SAME_AS_INPUT.

(** [UFixedSlot i] is basic policy FIXED_SLOT with [fixed_slot_index] [i];
    [UExtended p a] is EXTENDED_POLICY, [a] being [fixed_register_index]
    for FIXED_REGISTER and [input_index] for SAME_AS_INPUT. *)
Inductive UnallocatedOperand :=
  | UFixedSlot (fixed_slot_index : Z)
  | UExtended (policy : ExtendedPolicy) (arg : Z).

Inductive InstructionOperand :=
  | Invalid
  | Unallocated (u : UnallocatedOperand)
  | Allocated (a : AllocatedOperand).

Global Instance MachineRepresentation_eq_dec : EqDecision MachineRepresentation.
Proof. solve_decision. Defined.
Global Instance LocationKind_eq_dec : EqDecision LocationKind.
Proof. solve_decision. Defined.
Global Instance AllocatedOperand_eq_dec : EqDecision AllocatedOperand.
Proof. solve_decision. Defined.

Definition RegisterOperand (r : Register) : AllocatedOperand :=
  mkAllocated REGISTER kTagged r.

Definition IsAllocated (o : InstructionOperand) : bool :=
  match o with Allocated _ => true | _ => false end.

Definition IsRegister (o : InstructionOperand) : bool :=
  match o with Allocated (mkAllocated REGISTER _ _) => true | _ => false end.

Definition IsAnyRegister (a : AllocatedOperand) : bool :=
  match location_kind a with REGISTER => true | STACK_SLOT => false end.

Definition UnallocatedOperand_cast (o : InstructionOperand) : option UnallocatedOperand :=
  match o with Unallocated u => Some u | _ => None end.

Definition AllocatedOperand_cast (o : InstructionOperand) : option AllocatedOperand :=
  match o with Allocated a => Some a | _ => None end.

Definition extended_policy (u : UnallocatedOperand) : option (ExtendedPolicy * Z) :=
  match u with UExtended p a => Some (p, a) | UFixedSlot _ => None end.

(** [RegList] is a set of registers; [CombineRegLists] is its union. *)
Abbreviation RegList := (gset Z) (only parsing).

(** ** Liveness records and stack slots *)

Record StackSlot := mkStackSlot { slot : AllocatedOperand }.

Definition NewStackSlot (rep : MachineRepresentation) (i : Z) : StackSlot :=
  mkStackSlot (mkAllocated STACK_SLOT rep i).

Record LiveNodeInfo := mkInfo {
  node : NodePtr;
  last_use : Z;
  next_use : Z;
  stack_slot : option StackSlot;
  reg : option Register
}.

Definition info_with_reg (r : option Register) (i : LiveNodeInfo) : LiveNodeInfo :=
  mkInfo (node i) (last_use i) (next_use i) (stack_slot i) r.
Definition info_with_stack_slot (s : option StackSlot) (i : LiveNodeInfo) : LiveNodeInfo :=
  mkInfo (node i) (last_use i) (next_use i) s (reg i).
Definition info_with_next_use (u : Z) (i : LiveNodeInfo) : LiveNodeInfo :=
  mkInfo (node i) (last_use i) u (stack_slot i) (reg i).

(** Modelled from the spec: [LiveNodeInfo::allocation()] is declared in
    maglev-regalloc.h, which is not among the sources.  The record's
    current location is its register when it has one and its stack slot
    otherwise; a record with neither "must not occur" (no result). *)
Definition allocation (i : LiveNodeInfo) : option AllocatedOperand :=
  match reg i with
  | Some r => Some (RegisterOperand r)
  | None => slot <$> stack_slot i
  end.

(** ** Merge state (maglev-regalloc-data.h) *)

Record RegisterStateFlags := mkFlags { is_initialized : bool; is_merge : bool }.

Definition initialized_node : RegisterStateFlags := mkFlags true false.
Definition initialized_merge : RegisterStateFlags := mkFlags true true.

Record RegisterMerge := mkMerge {
  merge_node : InfoPtr;
  operands : list AllocatedOperand
}.

(** The [void*] of a [RegisterState]: null, a [LiveNodeInfo*] or a
    [RegisterMerge*].  A [RegisterMerge] is referenced from the one
    entry it was created for, so it is kept in place. *)
Inductive StatePointer :=
  | PNull
  | PNode (p : InfoPtr)
  | PMerge (m : RegisterMerge).

Record RegisterState := mkRegisterState {
  GetPointer : StatePointer;
  GetPayload : RegisterStateFlags
}.

Definition uninitialized_state : RegisterState :=
  mkRegisterState PNull (mkFlags false false).

(** [LoadMergeState(state, &merge)]: [None] when the cast is ill-typed. *)
Definition LoadMergeState1 (state : RegisterState) : option (option RegisterMerge) :=
  if is_merge (GetPayload state) then
    match GetPointer state with
    | PMerge m => Some (Some m)
    | _ => None
    end
  else Some None.

(** [LoadMergeState(state, &node, &merge)]: the pair [(node, merge)]. *)
Definition LoadMergeState (state : RegisterState)
  : option (option InfoPtr * option RegisterMerge) :=
  match LoadMergeState1 state with
  | None => None
  | Some (Some m) => Some (Some (merge_node m), Some m)
  | Some None =>
      match GetPointer state with
      | PNull => Some (None, None)
      | PNode p => Some (Some p, None)
      | PMerge _ => None
      end
  end.

(** ** The graph, as far as the allocator reads and decorates it *)

Record Input := mkInput {
  input_node : NodePtr;
  next_use_id : Z;
  input_operand : InstructionOperand
}.

Inductive Opcode :=
  | OpNode            (* a Node that is not a ValueNode *)
  | OpValueNode       (* a ValueNode other than the two below *)
  | OpPhi
  | OpInitialValue
  | OpJump (target : BlockPtr)
  | OpJumpLoop (target : BlockPtr)
  | OpConditional (if_true if_false : BlockPtr)
  | OpReturn.

Record NodeData := mkNode {
  id : Z;
  opcode : Opcode;
  is_call : bool;
  can_deopt : bool;
  inputs : list Input;
  num_temporaries_needed : nat;
  temporaries : RegList;
  live_range_end : Z;
  node_next_use : Z;
  result : InstructionOperand;
  spill_slot : option AllocatedOperand;
  next_post_dominating_hole : option NodePtr
}.

Definition node_with_inputs (l : list Input) (n : NodeData) : NodeData :=
  mkNode (id n) (opcode n) (is_call n) (can_deopt n) l (num_temporaries_needed n)
    (temporaries n) (live_range_end n) (node_next_use n) (result n) (spill_slot n)
    (next_post_dominating_hole n).
Definition node_with_temporaries (t : RegList) (n : NodeData) : NodeData :=
  mkNode (id n) (opcode n) (is_call n) (can_deopt n) (inputs n) (num_temporaries_needed n)
    t (live_range_end n) (node_next_use n) (result n) (spill_slot n)
    (next_post_dominating_hole n).
Definition node_with_result (r : InstructionOperand) (n : NodeData) : NodeData :=
  mkNode (id n) (opcode n) (is_call n) (can_deopt n) (inputs n) (num_temporaries_needed n)
    (temporaries n) (live_range_end n) (node_next_use n) r (spill_slot n)
    (next_post_dominating_hole n).
Definition node_with_spill_slot (s : option AllocatedOperand) (n : NodeData) : NodeData :=
  mkNode (id n) (opcode n) (is_call n) (can_deopt n) (inputs n) (num_temporaries_needed n)
    (temporaries n) (live_range_end n) (node_next_use n) (result n) s
    (next_post_dominating_hole n).

Definition Is_ValueNode (n : NodeData) : bool :=
  match opcode n with OpValueNode | OpPhi | OpInitialValue => true | _ => false end.
Definition Is_ConditionalControlNode (n : NodeData) : bool :=
  match opcode n with OpConditional _ _ => true | _ => false end.
Definition Is_Jump (n : NodeData) : bool :=
  match opcode n with OpJump _ => true | _ => false end.
Definition Is_JumpLoop (n : NodeData) : bool :=
  match opcode n with OpJumpLoop _ => true | _ => false end.
Definition Is_Return (n : NodeData) : bool :=
  match opcode n with OpReturn => true | _ => false end.

(** [TryCast<UnconditionalControlNode>]: Jump and JumpLoop. *)
Definition unconditional_target (n : NodeData) : option BlockPtr :=
  match opcode n with OpJump t | OpJumpLoop t => Some t | _ => None end.

(** An entry of a block's node list: a node of the graph or a gap move
    created by the allocator. *)
Inductive BlockItem :=
  | INode (p : NodePtr)
  | IGapMove (source target : AllocatedOperand).

Record MergePointState := mkMergePoint {
  predecessor_count : nat;
  register_state : list RegisterState
}.

(** [first_id] and [FirstNonGapMoveId] are methods of [BasicBlock]
    (maglev-basic-block.h, not among the sources); they are taken as
    given per block. *)
Record BasicBlock := mkBlock {
  nodes : list BlockItem;
  phis : option (list NodePtr);
  control_node : NodePtr;
  state : option MergePointState;
  predecessor_id : nat;
  is_empty_block : bool;
  first_id : Z;
  FirstNonGapMoveId : Z
}.

Definition has_state (b : BasicBlock) : bool := bool_decide (is_Some (state b)).
Definition has_phi (b : BasicBlock) : bool := bool_decide (is_Some (phis b)).

Definition block_with_nodes (l : list BlockItem) (b : BasicBlock) : BasicBlock :=
  mkBlock l (phis b) (control_node b) (state b) (predecessor_id b) (is_empty_block b)
    (first_id b) (FirstNonGapMoveId b).
Definition block_with_state (s : option MergePointState) (b : BasicBlock) : BasicBlock :=
  mkBlock (nodes b) (phis b) (control_node b) s (predecessor_id b) (is_empty_block b)
    (first_id b) (FirstNonGapMoveId b).

(** ** Configuration *)

(** [allocatable] is the expansion of ALWAYS_ALLOCATABLE_GENERAL_REGISTERS
    (register codes, in macro order); [FLAG_trace_maglev_regalloc] is the
    tracing flag; [default_try_move] is the default of [ForceAllocate]'s
    third parameter, given in maglev-regalloc.h.  The macro and the
    header are not among the sources, so all three are parameters. *)
Record Config := mkConfig {
  allocatable : list Register;
  FLAG_trace_maglev_regalloc : bool;
  default_try_move : bool
}.

Definition kAllocatableGeneralRegisterCount (cfg : Config) : nat :=
  length (allocatable cfg).

(** [MapRegisterToIndex]: the first position of [r] in the macro list;
    [UNREACHABLE()] when there is none. *)
Definition MapRegisterToIndex (cfg : Config) (r : Register) : option nat :=
  fst <$> list_find (λ v, v = r) (allocatable cfg).

(** [MapIndexToRegister]: [UNREACHABLE()] outside [0, N). *)
Definition MapIndexToRegister (cfg : Config) (i : nat) : option Register :=
  allocatable cfg !! i.

(** The register indices [0 .. N-1], in loop order. *)
Definition register_indices (cfg : Config) : list nat :=
  seq 0 (kAllocatableGeneralRegisterCount cfg).

(** ** Allocator state *)

Record State := mkState {
  values_ : gmap NodePtr LiveNodeInfo;
  register_values_ : list (option InfoPtr);
  free_slots_ : list StackSlot;
  top_of_stack_ : Z;
  block_it_ : BlockPtr;
  node_it_ : option nat;
  node_store : gmap NodePtr NodeData;
  block_store : gmap BlockPtr BasicBlock
}.

Definition with_values_ (f : gmap NodePtr LiveNodeInfo → gmap NodePtr LiveNodeInfo)
    (s : State) : State :=
  mkState (f (values_ s)) (register_values_ s) (free_slots_ s) (top_of_stack_ s)
    (block_it_ s) (node_it_ s) (node_store s) (block_store s).
Definition with_register_values_ (f : list (option InfoPtr) → list (option InfoPtr))
    (s : State) : State :=
  mkState (values_ s) (f (register_values_ s)) (free_slots_ s) (top_of_stack_ s)
    (block_it_ s) (node_it_ s) (node_store s) (block_store s).
Definition with_free_slots_ (f : list StackSlot → list StackSlot) (s : State) : State :=
  mkState (values_ s) (register_values_ s) (f (free_slots_ s)) (top_of_stack_ s)
    (block_it_ s) (node_it_ s) (node_store s) (block_store s).
Definition with_top_of_stack_ (z : Z) (s : State) : State :=
  mkState (values_ s) (register_values_ s) (free_slots_ s) z
    (block_it_ s) (node_it_ s) (node_store s) (block_store s).
Definition with_block_it_ (b : BlockPtr) (s : State) : State :=
  mkState (values_ s) (register_values_ s) (free_slots_ s) (top_of_stack_ s)
    b (node_it_ s) (node_store s) (block_store s).
Definition with_node_it_ (i : option nat) (s : State) : State :=
  mkState (values_ s) (register_values_ s) (free_slots_ s) (top_of_stack_ s)
    (block_it_ s) i (node_store s) (block_store s).
Definition with_node_store (f : gmap NodePtr NodeData → gmap NodePtr NodeData)
    (s : State) : State :=
  mkState (values_ s) (register_values_ s) (free_slots_ s) (top_of_stack_ s)
    (block_it_ s) (node_it_ s) (f (node_store s)) (block_store s).
Definition with_block_store (f : gmap BlockPtr BasicBlock → gmap BlockPtr BasicBlock)
    (s : State) : State :=
  mkState (values_ s) (register_values_ s) (free_slots_ s) (top_of_stack_ s)
    (block_it_ s) (node_it_ s) (node_store s) (f (block_store s)).

(** ** Trace events, one per print site *)

Inductive TraceEvent :=
  | TPreProcessGraph
  | TPreProcessBasicBlock (b : BlockPtr)
  | TLiveRegs (regs : list (Register * Z))
  | THole (control_id : Z) (target_first_id : option Z)
  | TProcess (item : BlockItem)
  | TProcessControl (n : NodePtr)
  | TPhi (phi : NodePtr) (how : nat) (operand : InstructionOperand)
  | TGapMove (label : option NodePtr) (target source : AllocatedOperand)
  | TSpill (s : AllocatedOperand) (n : NodePtr).

(** ** The allocator monad *)

Definition M (A : Type) : Type := State → option (A * State * list TraceEvent).

Definition ret {A} (a : A) : M A := λ st, Some (a, st, []).

Definition bind {A B} (m : M A) (k : A → M B) : M B := λ st,
  match m st with
  | None => None
  | Some (a, st1, t1) =>
      match k a st1 with
      | None => None
      | Some (b, st2, t2) => Some (b, st2, t1 ++ t2)
      end
  end.

Notation "'let*' x ':=' m 'in' k" := (bind m (λ x, k))
  (at level 10, x pattern, m at level 100, k at level 200).
Notation "m ';;;' k" := (bind m (λ _, k))
  (at level 100, k at level 200, right associativity).

Definition abort {A} : M A := λ _, None.
Definition gets {A} (f : State → A) : M A := λ st, Some (f st, st, []).
Definition modify (f : State → State) : M unit := λ st, Some (tt, f st, []).
Definition emit (e : TraceEvent) : M unit := λ st, Some (tt, st, [e]).

(** A pointer that must be valid, or a cast that must succeed. *)
Definition deref {A} (o : option A) : M A :=
  match o with Some a => ret a | None => abort end.

Definition when (b : bool) (m : M unit) : M unit := if b then m else ret tt.

Fixpoint forM_ {X} (l : list X) (f : X → M unit) : M unit :=
  match l with
  | [] => ret tt
  | x :: l' => f x ;;; forM_ l' f
  end.

(** Reads and writes through pointers. *)
Definition info_at (p : InfoPtr) : M LiveNodeInfo :=
  let* v := gets values_ in deref (v !! p).
Definition update_info (p : InfoPtr) (f : LiveNodeInfo → LiveNodeInfo) : M unit :=
  let* i := info_at p in modify (with_values_ (insert p (f i))).
Definition reg_at (i : nat) : M (option InfoPtr) :=
  let* rv := gets register_values_ in deref (rv !! i).
Definition set_reg (i : nat) (v : option InfoPtr) : M unit :=
  reg_at i ;;; modify (with_register_values_ (λ rv, <[i := v]> rv)).
Definition node_at (p : NodePtr) : M NodeData :=
  let* s := gets node_store in deref (s !! p).
Definition update_node (p : NodePtr) (f : NodeData → NodeData) : M unit :=
  let* n := node_at p in modify (with_node_store (insert p (f n))).
Definition block_at (b : BlockPtr) : M BasicBlock :=
  let* s := gets block_store in deref (s !! b).
Definition update_block (b : BlockPtr) (f : BasicBlock → BasicBlock) : M unit :=
  let* blk := block_at b in modify (with_block_store (insert b (f blk))).

(** ** Node and block decorations (maglev-ir.h, maglev-basic-block.h) *)

Definition input_at (n : NodePtr) (k : nat) : M Input :=
  let* nd := node_at n in deref (inputs nd !! k).

(** [input.SetAllocated(a)] and [input.InjectAllocated(a)]. *)
Definition input_SetAllocated (n : NodePtr) (k : nat) (a : AllocatedOperand) : M unit :=
  let* i := input_at n k in
  update_node n (λ nd,
    node_with_inputs (<[k := mkInput (input_node i) (next_use_id i) (Allocated a)]> (inputs nd)) nd).

(** [node->result().SetAllocated(a)]. *)
Definition result_SetAllocated (n : NodePtr) (a : AllocatedOperand) : M unit :=
  update_node n (node_with_result (Allocated a)).

(** [input.AssignedRegister()]: the register code of the allocated operand. *)
Definition AssignedRegister (i : Input) : M Register :=
  let* a := deref (AllocatedOperand_cast (input_operand i)) in ret (index a).

(** [node->SetNoSpillOrHint()] and [node->Spill(slot)]. *)
Definition SetNoSpillOrHint (n : NodePtr) : M unit :=
  update_node n (node_with_spill_slot None).
Definition node_Spill (n : NodePtr) (s : AllocatedOperand) : M unit :=
  update_node n (node_with_spill_slot (Some s)).

Definition assign_temporaries (n : NodePtr) (l : RegList) : M unit :=
  update_node n (node_with_temporaries l).

Definition current_block : M BasicBlock :=
  let* b := gets block_it_ in block_at b.

(** [target->state()->register_state()], and a store into [target_state[i]]. *)
Definition target_register_state (target : BlockPtr) : M (list RegisterState) :=
  let* t := block_at target in
  let* s := deref (state t) in ret (register_state s).

Definition set_target_state (target : BlockPtr) (i : nat) (v : RegisterState) : M unit :=
  let* t := block_at target in
  let* s := deref (state t) in
  deref (register_state s !! i) ;;;
  update_block target
    (block_with_state (Some (mkMergePoint (predecessor_count s) (<[i := v]> (register_state s))))).

(** [merge->operand(j) = a]; a store outside the array is undefined. *)
Definition set_operand (m : RegisterMerge) (j : nat) (a : AllocatedOperand) : M RegisterMerge :=
  deref (operands m !! j) ;;; ret (mkMerge (merge_node m) (<[j := a]> (operands m))).

(** Modelled from the spec: [MakeLive] is defined in maglev-regalloc.h,
    which is not among the sources.  It creates the liveness record of a
    value that becomes live: the value, its last use (the end of its live
    range), its next use, no register and no stack slot. *)
Definition MakeLive (n : NodePtr) : M InfoPtr :=
  let* nd := node_at n in
  modify (with_values_ (insert n (mkInfo n (live_range_end nd) (node_next_use nd) None None))) ;;;
  ret n.

(** Modelled from the spec: [free_slots_] is a [base::ThreadedList]
    (not among the sources): [Add] appends, [first] reads the head and
    [DropHead] removes it. *)
Definition free_slots_Add (s : StackSlot) : M unit :=
  modify (with_free_slots_ (λ l, l ++ [s])).
Definition free_slots_first : M (option StackSlot) :=
  gets (λ st, head (free_slots_ st)).
Definition free_slots_DropHead : M unit :=
  modify (with_free_slots_ (λ l, tail l)).

(** ** maglev-regalloc.cc *)

Definition uint32_wrap (z : Z) : Z := z mod 2 ^ 32.

Definition IsTargetOfNodeFallthrough (n : NodeData) (target : BasicBlock) : bool :=
  uint32_wrap (id n + 1) =? first_id target.

Definition NearestPostDominatingHole (p : NodePtr) : M (option NodePtr) :=
  let* n := node_at p in
  match opcode n with
  | OpConditional _ _ => ret (next_post_dominating_hole n)
  | OpJump t =>
      let* tb := block_at t in
      if IsTargetOfNodeFallthrough n tb then ret (next_post_dominating_hole n)
      else ret (Some p)
  | _ => ret (Some p)
  end.

Definition IsLiveAtTarget (info : option InfoPtr) (source : NodePtr) (target : BlockPtr)
  : M bool :=
  match info with
  | None => ret false
  | Some p =>
      let* t := block_at target in
      let* c := node_at (control_node t) in
      let* s := node_at source in
      (* If we're looping, a value can only be live if it was live before
         the loop. *)
      if id c <=? id s then
        let* i := info_at p in
        let* n := node_at (node i) in
        ret (id n <? FirstNonGapMoveId t)
      else
        let* i := info_at p in
        ret (first_id t <=? last_use i)
  end.

Fixpoint live_regs (cfg : Config) (ixs : list nat) : M (list (Register * Z)) :=
  match ixs with
  | [] => ret []
  | i :: ixs' =>
      let* info := reg_at i in
      match info with
      | None => live_regs cfg ixs'
      | Some p =>
          let* r := deref (MapIndexToRegister cfg i) in
          let* inf := info_at p in
          let* n := node_at (node inf) in
          let* rest := live_regs cfg ixs' in
          ret ((r, id n) :: rest)
      end
  end.

Definition PrintLiveRegs (cfg : Config) : M unit :=
  let* l := live_regs cfg (register_indices cfg) in emit (TLiveRegs l).

(** The [while (true)] loop printing the chain of holes; it runs out of
    fuel only on a chain that never reaches a Return or a JumpLoop. *)
Fixpoint print_holes (fuel : nat) (control : option NodePtr) : M unit :=
  match fuel with
  | O => abort
  | S fuel' =>
      let* p := deref control in
      let* c := node_at p in
      match opcode c with
      | OpJump t =>
          let* tb := block_at t in
          emit (THole (id c) (Some (first_id tb))) ;;;
          print_holes fuel' (next_post_dominating_hole c)
      | OpReturn => emit (THole (id c) None)
      | OpJumpLoop _ => emit (THole (id c) None)
      | _ => abort (* UNREACHABLE() *)
      end
  end.

Definition trace_block_entry (cfg : Config) (block : BlockPtr) : M unit :=
  let* blk := block_at block in
  emit (TPreProcessBasicBlock block) ;;;
  PrintLiveRegs cfg ;;;
  let* control := NearestPostDominatingHole (control_node blk) in
  let* p := deref control in
  let* c := node_at p in
  if Is_JumpLoop c then ret tt
  else
    let* fuel := gets (λ st, S (size (node_store st))) in
    print_holes fuel control.

(** [node_it_.InsertBefore] keeps the cursor on the current node; at the
    control node the cursor is the end iterator and the move is appended. *)
Definition AddMoveBeforeCurrentNode (source target : AllocatedOperand) : M unit :=
  let* b := gets block_it_ in
  let* blk := block_at b in
  let* it := gets node_it_ in
  match it with
  | None =>
      (* We're at the control node, so append instead. *)
      update_block b (block_with_nodes (nodes blk ++ [IGapMove source target])) ;;;
      modify (with_node_it_ None)
  | Some i =>
      update_block b
        (block_with_nodes (take i (nodes blk) ++ IGapMove source target :: drop i (nodes blk))) ;;;
      modify (with_node_it_ (Some (S i)))
  end.

Definition AllocateSpillSlot (info : InfoPtr) : M unit :=
  let* stack_slot := free_slots_first in
  let* stack_slot :=
    match stack_slot with
    | None =>
        (* If there are no free stack slots, allocate a new one. *)
        let* top := gets top_of_stack_ in
        modify (with_top_of_stack_ (top + 1)) ;;;
        ret (NewStackSlot kTagged top)
    | Some s => free_slots_DropHead ;;; ret s
    end in
  update_info info (info_with_stack_slot (Some stack_slot)).

Definition Spill (cfg : Config) (info : InfoPtr) : M unit :=
  let* i := info_at info in
  match stack_slot i with
  | Some _ => ret tt
  | None =>
      AllocateSpillSlot info ;;;
      let* i := info_at info in
      let* s := deref (stack_slot i) in
      when (FLAG_trace_maglev_regalloc cfg) (emit (TSpill (slot s) (node i))) ;;;
      node_Spill (node i) (slot s)
  end.

Definition SetRegister (cfg : Config) (reg : Register) (info : InfoPtr) : M unit :=
  let* index := deref (MapRegisterToIndex cfg reg) in
  set_reg index (Some info) ;;;
  update_info info (info_with_reg (Some reg)).

Definition DoAllocate (cfg : Config) (reg : Register) (info : InfoPtr) : M AllocatedOperand :=
  SetRegister cfg reg info ;;;
  ret (RegisterOperand reg).

(** The search of [Free] with [try_move]: [inl i] when register [i]
    already holds the value, otherwise [inr index], [index] being the
    last empty register seen ([None] for -1). *)
Fixpoint Free_find_move (skip : nat) (info_node : NodePtr) (ixs : list nat)
    (index : option nat) : M (nat + option nat) :=
  match ixs with
  | [] => ret (inr index)
  | i :: ixs' =>
      if decide (i = skip) then Free_find_move skip info_node ixs' index
      else
        let* r := reg_at i in
        match r with
        | None => Free_find_move skip info_node ixs' (Some i)
        | Some q =>
            let* qi := info_at q in
            if decide (node qi = info_node) then ret (inl i)
            else Free_find_move skip info_node ixs' index
        end
  end.

(** The search of [Free] without [try_move]: the first register that
    still holds [info]. *)
Fixpoint Free_find_existing (info : InfoPtr) (ixs : list nat) : M (option nat) :=
  match ixs with
  | [] => ret None
  | i :: ixs' =>
      let* r := reg_at i in
      if decide (r = Some info) then ret (Some i) else Free_find_existing info ixs'
  end.

Definition Free (cfg : Config) (r : Register) (try_move : bool) : M unit :=
  let* index := deref (MapRegisterToIndex cfg r) in
  let* info := reg_at index in
  match info with
  | None => ret tt (* If the register is already free, return. *)
  | Some p =>
      set_reg index None ;;;
      let* i := info_at p in
      (* If the value we're freeing from the register is already known to
         be assigned to a different register as well, simply return. *)
      if decide (Some r ≠ reg i) then ret tt
      else
        update_info p (info_with_reg None) ;;;
        (* If the value is already spilled, return. *)
        match stack_slot i with
        | Some _ => ret tt
        | None =>
            if try_move then
              (* Try to move the value to another register. *)
              let* found := Free_find_move index (node i) (register_indices cfg) None in
              match found with
              | inl j =>
                  (* Found an existing register. *)
                  let* rj := deref (MapIndexToRegister cfg j) in
                  update_info p (info_with_reg (Some rj))
              | inr (Some j) =>
                  let* target_reg := deref (MapIndexToRegister cfg j) in
                  SetRegister cfg target_reg p ;;;
                  (* Emit a gapmove. *)
                  let source := RegisterOperand r in
                  let target := RegisterOperand target_reg in
                  when (FLAG_trace_maglev_regalloc cfg)
                    (emit (TGapMove (Some (node i)) target source)) ;;;
                  AddMoveBeforeCurrentNode source target
              | inr None => Spill cfg p (* If all else fails, spill the value. *)
              end
            else
              let* found := Free_find_existing p (register_indices cfg) in
              match found with
              | Some j =>
                  let* rj := deref (MapIndexToRegister cfg j) in
                  update_info p (info_with_reg (Some rj))
              | None => Spill cfg p
              end
        end
  end.

Definition ForceAllocate (cfg : Config) (reg : Register) (info : InfoPtr) (try_move : bool)
  : M AllocatedOperand :=
  let* index := deref (MapRegisterToIndex cfg reg) in
  let* cur := reg_at index in
  if decide (cur = Some info) then ret (RegisterOperand reg)
  else
    Free cfg reg try_move ;;;
    DoAllocate cfg reg info.

(** The first empty register, [None] for -1. *)
Fixpoint first_empty_register (ixs : list nat) : M (option nat) :=
  match ixs with
  | [] => ret None
  | i :: ixs' =>
      let* r := reg_at i in
      match r with
      | None => ret (Some i)
      | Some _ => first_empty_register ixs'
      end
  end.

Definition TryAllocateRegister (cfg : Config) (info : InfoPtr) : M InstructionOperand :=
  let* index := first_empty_register (register_indices cfg) in
  match index with
  | None => ret Invalid (* Allocation failed. *)
  | Some i =>
      let* r := deref (MapIndexToRegister cfg i) in
      SetRegister cfg r info ;;;
      ret (Allocated (RegisterOperand r))
  end.

(** [register_values_[i]->next_use]. *)
Definition next_use_at (i : nat) : M Z :=
  let* r := reg_at i in
  let* p := deref r in
  let* inf := info_at p in
  ret (next_use inf).

(** The loop of [AllocateRegister] choosing the register to free. *)
Fixpoint furthest_register (ixs : list nat) (furthest : nat) : M nat :=
  match ixs with
  | [] => ret furthest
  | i :: ixs' =>
      let* uf := next_use_at furthest in
      let* ui := next_use_at i in
      furthest_register ixs' (if uf <? ui then i else furthest)
  end.

Definition AllocateRegister (cfg : Config) (info : InfoPtr) : M AllocatedOperand :=
  let* allocation := TryAllocateRegister cfg info in
  match allocation with
  | Allocated a => ret a
  | _ =>
      (* Free some register. *)
      let* furthest :=
        furthest_register (seq 1 (kAllocatableGeneralRegisterCount cfg - 1)) 0%nat in
      let* r := deref (MapIndexToRegister cfg furthest) in
      ForceAllocate cfg r info false
  end.

(** The first loop of [GetFreeRegisters]: [inl l] when it returned [l],
    [inr (l, count)] when it fell through with [count] still to find. *)
Fixpoint collect_free_registers (cfg : Config) (ixs : list nat) (free_registers : RegList)
    (count : nat) : M (RegList + RegList * nat) :=
  match ixs with
  | [] => ret (inr (free_registers, count))
  | i :: ixs' =>
      let* r := reg_at i in
      match r with
      | None =>
          let* ri := deref (MapIndexToRegister cfg i) in
          let free_registers := free_registers ∪ {[ ri ]} in
          if decide (Nat.pred count = 0%nat) then ret (inl free_registers)
          else collect_free_registers cfg ixs' free_registers (Nat.pred count)
      | Some _ => collect_free_registers cfg ixs' free_registers count
      end
  end.

(** The inner [for] of the eviction loop; [longest] is [None] for -1. *)
Fixpoint longest_scan (ixs : list nat) (furthest_use : Z) (longest : option nat)
  : M (Z * option nat) :=
  match ixs with
  | [] => ret (furthest_use, longest)
  | i :: ixs' =>
      let* r := reg_at i in
      match r with
      | None => longest_scan ixs' furthest_use longest
      | Some p =>
          let* inf := info_at p in
          let use := next_use inf in
          if furthest_use <? use then longest_scan ixs' use (Some i)
          else longest_scan ixs' furthest_use longest
      end
  end.

(** The [while (count != 0)] loop; [furthest_use] and [longest] are
    declared before the loop and keep their values across iterations. *)
Fixpoint evict_registers (cfg : Config) (count : nat) (furthest_use : Z)
    (longest : option nat) (free_registers : RegList) : M RegList :=
  match count with
  | O => ret free_registers
  | S count' =>
      (* Free some register. *)
      let* fl := longest_scan (register_indices cfg) furthest_use longest in
      let* l := deref (snd fl) in
      let* reg := deref (MapIndexToRegister cfg l) in
      Free cfg reg false ;;;
      evict_registers cfg count' (fst fl) (snd fl) (free_registers ∪ {[ reg ]})
  end.

Definition GetFreeRegisters (cfg : Config) (count : nat) : M RegList :=
  if decide (count = 0%nat) then ret ∅
  else
    let* c := collect_free_registers cfg (register_indices cfg) ∅ count in
    match c with
    | inl free_registers => ret free_registers
    | inr (free_registers, count) => evict_registers cfg count 0 None free_registers
    end.

Definition AssignTemporaries (cfg : Config) (n : NodePtr) : M unit :=
  let* nd := node_at n in
  let* l := GetFreeRegisters cfg (num_temporaries_needed nd) in
  assign_temporaries n l.

Definition SpillRegisters (cfg : Config) : M unit :=
  forM_ (register_indices cfg) (λ i,
    let* info := reg_at i in
    match info with
    | None => ret tt
    | Some p => Spill cfg p
    end).

Definition SpillAndClearRegisters (cfg : Config) : M unit :=
  forM_ (register_indices cfg) (λ i,
    let* info := reg_at i in
    match info with
    | None => ret tt
    | Some p =>
        Spill cfg p ;;;
        update_info p (info_with_reg None) ;;;
        set_reg i None
    end).

Definition UpdateInputUseAndClearDead (cfg : Config) (use : Z) (input : Input) : M unit :=
  let n := input_node input in
  let* it := gets (λ st, values_ st !! n) in
  let* nd := node_at n in
  (* If a value is dead, free it. *)
  if live_range_end nd =? use then
    match it with
    | None => ret tt (* There were multiple uses in this node. *)
    | Some info =>
        forM_ (register_indices cfg) (λ i,
          let* r := reg_at i in
          if decide (r = Some n) then set_reg i None else ret tt) ;;;
        (* If the stack slot is a local slot, free it so it can be reused. *)
        match stack_slot info with
        | Some s => if 0 <? index (slot s) then free_slots_Add s else ret tt
        | None => ret tt
        end ;;;
        modify (with_values_ (delete n))
    end
  else
    (* Otherwise update the next use. *)
    update_info n (info_with_next_use (next_use_id input)).

Definition AssignInput (cfg : Config) (n : NodePtr) (k : nat) : M unit :=
  let* input := input_at n k in
  let* operand := deref (UnallocatedOperand_cast (input_operand input)) in
  let info := input_node input in
  let* inf := info_at info in
  let* location := deref (allocation inf) in
  let* policy := deref (extended_policy operand) in
  match fst policy with
  | REGISTER_OR_SLOT | REGISTER_OR_SLOT_OR_CONSTANT =>
      input_SetAllocated n k location
  | FIXED_REGISTER =>
      let* a := ForceAllocate cfg (snd policy) info (default_try_move cfg) in
      input_SetAllocated n k a
  | MUST_HAVE_REGISTER =>
      if IsAnyRegister location then input_SetAllocated n k location
      else
        let* a := AllocateRegister cfg info in
        input_SetAllocated n k a
  | FIXED_FP_REGISTER | SAME_AS_INPUT | NONE | MUST_HAVE_SLOT => abort (* UNREACHABLE() *)
  end ;;;
  let* input := input_at n k in
  let* allocated := deref (AllocatedOperand_cast (input_operand input)) in
  if decide (location ≠ allocated) then
    when (FLAG_trace_maglev_regalloc cfg) (emit (TGapMove None allocated location)) ;;;
    AddMoveBeforeCurrentNode location allocated
  else ret tt.

Definition AllocateNodeResult (cfg : Config) (n : NodePtr) : M unit :=
  let* info := MakeLive n in
  SetNoSpillOrHint n ;;;
  let* nd := node_at n in
  let* operand := deref (UnallocatedOperand_cast (result nd)) in
  match operand with
  | UFixedSlot fixed_slot_index =>
      (* Set the stack slot to exactly where the value is. *)
      let s := NewStackSlot kTagged fixed_slot_index in
      update_info info (info_with_stack_slot (Some s)) ;;;
      result_SetAllocated n (slot s)
  | UExtended FIXED_REGISTER fixed_register_index =>
      let* a := ForceAllocate cfg fixed_register_index info (default_try_move cfg) in
      result_SetAllocated n a
  | UExtended MUST_HAVE_REGISTER _ =>
      let* a := AllocateRegister cfg info in
      result_SetAllocated n a
  | UExtended SAME_AS_INPUT input_index =>
      if input_index <? 0 then abort
      else
        let* input := input_at n (Z.to_nat input_index) in
        let* r := AssignedRegister input in
        let* a := ForceAllocate cfg r info (default_try_move cfg) in
        result_SetAllocated n a
  | UExtended _ _ => abort (* UNREACHABLE() *)
  end.

(** The part of [AllocateNode] that comes before the call and deopt side
    effects: inputs, temporaries, uses. *)
Definition AllocateNode_inputs (cfg : Config) (n : NodePtr) : M unit :=
  let* nd := node_at n in
  forM_ (seq 0 (length (inputs nd))) (AssignInput cfg n) ;;;
  AssignTemporaries cfg n ;;;
  let* nd := node_at n in
  forM_ (inputs nd) (UpdateInputUseAndClearDead cfg (id nd)).

Definition AllocateNode (cfg : Config) (item : BlockItem) : M unit :=
  match item with
  | IGapMove _ _ => ret tt (* no inputs, no temporaries, no result *)
  | INode n =>
      AllocateNode_inputs cfg n ;;;
      let* nd := node_at n in
      when (is_call nd) (SpillAndClearRegisters cfg) ;;;
      when (can_deopt nd) (SpillRegisters cfg) ;;;
      (* Allocate node output. *)
      when (Is_ValueNode nd) (AllocateNodeResult cfg n)
  end ;;;
  when (FLAG_trace_maglev_regalloc cfg) (emit (TProcess item) ;;; PrintLiveRegs cfg).

(** The loop of [TryAllocateToInput], over the phi's inputs. *)
Fixpoint TryAllocateToInput_loop (cfg : Config) (info : InfoPtr) (phi : NodePtr)
    (ins : list Input) : M unit :=
  match ins with
  | [] => ret tt
  | input :: ins' =>
      if IsRegister (input_operand input) then
        let* r := AssignedRegister input in
        let* index := deref (MapRegisterToIndex cfg r) in
        let* cur := reg_at index in
        match cur with
        | None =>
            let* a := DoAllocate cfg r info in
            result_SetAllocated phi a ;;;
            when (FLAG_trace_maglev_regalloc cfg)
              (emit (TPhi phi 0 (input_operand input)))
        | Some _ => TryAllocateToInput_loop cfg info phi ins'
        end
      else TryAllocateToInput_loop cfg info phi ins'
  end.

Definition TryAllocateToInput (cfg : Config) (info : InfoPtr) (phi : NodePtr) : M unit :=
  let* nd := node_at phi in
  TryAllocateToInput_loop cfg info phi (inputs nd).

Definition InitializeRegisterValues (cfg : Config) (target_state : list RegisterState)
  : M unit :=
  (* First clear the register state. *)
  forM_ (register_indices cfg) (λ i,
    let* info := reg_at i in
    match info with
    | None => ret tt
    | Some p => update_info p (info_with_reg None) ;;; set_reg i None
    end) ;;;
  (* Then fill it in with target information. *)
  forM_ (register_indices cfg) (λ i,
    let* s := deref (target_state !! i) in
    let* nm := deref (LoadMergeState s) in
    match fst nm with
    | None => ret tt
    | Some p =>
        set_reg i (Some p) ;;;
        let* r := deref (MapIndexToRegister cfg i) in
        update_info p (info_with_reg (Some r))
    end).

(** The body of [EnsureInRegister] is under [#ifdef DEBUG]. *)
Definition EnsureInRegister (target_state : list RegisterState) (incoming : InfoPtr)
  : M unit := ret tt.

Definition InitializeBranchTargetRegisterValues (cfg : Config) (source : NodePtr)
    (target : BlockPtr) : M unit :=
  target_register_state target ;;;
  forM_ (register_indices cfg) (λ i,
    let* info := reg_at i in
    let* live := IsLiveAtTarget info source target in
    let info := if live then info else None in
    set_target_state target i
      (mkRegisterState (match info with Some p => PNode p | None => PNull end)
         initialized_node)).

(** One iteration of the loop of [MergeRegisterValues]. *)
Definition MergeRegisterValues_step (cfg : Config) (control : NodePtr) (target : BlockPtr)
    (predecessor_id : nat) (predecessor_count : nat) (i : nat) : M unit :=
  let* target_state := target_register_state target in
  let* s := deref (target_state !! i) in
  let* nm := deref (LoadMergeState s) in
  let node := fst nm in
  let merge := snd nm in
  let* ri := deref (MapIndexToRegister cfg i) in
  let register_info := RegisterOperand ri in
  let* incoming := reg_at i in
  let* live := IsLiveAtTarget incoming control target in
  let incoming := if live then incoming else None in
  if decide (incoming = node) then
    (* We're using the same register as the target already has. If
       registers are merged, add input information. *)
    match merge with
    | Some m =>
        let* m' := set_operand m predecessor_id register_info in
        set_target_state target i (mkRegisterState (PMerge m') (GetPayload s))
    | None => ret tt
    end
  else
    match merge with
    | Some m =>
        (* The register is already occupied with a different node. Figure
           out where that node is allocated on the incoming branch. *)
        let* n := deref node in
        let* ninfo := info_at n in
        let* a := deref (allocation ninfo) in
        let* m' := set_operand m predecessor_id a in
        set_target_state target i (mkRegisterState (PMerge m') (GetPayload s)) ;;;
        match incoming with
        | Some q =>
            let* qi := info_at q in
            match stack_slot qi with
            | Some _ => EnsureInRegister target_state q
            | None => ret tt
            end
        | None => ret tt
        end
    | None =>
        match node with
        | None =>
            let* q := deref incoming in
            let* qi := info_at q in
            match stack_slot qi with
            | None =>
                (* If the register is unallocated at the merge point, and
                   the incoming value isn't spilled, that means we must
                   have seen it already in a different register. *)
                EnsureInRegister target_state q
            | Some ss =>
                (* allocation so far is the spill slot for the incoming
                   value; then fill in the incoming value *)
                let m := mkMerge q (replicate predecessor_count (slot ss)) in
                let* m' := set_operand m predecessor_id register_info in
                set_target_state target i (mkRegisterState (PMerge m') initialized_merge)
            end
        | Some n =>
            (* all incoming branches agree that the current node is in the
               register info; then find the merge-point node in the
               incoming state *)
            let m := mkMerge n (replicate predecessor_count register_info) in
            let* ninfo := info_at n in
            let* a := deref (allocation ninfo) in
            let* m' := set_operand m predecessor_id a in
            set_target_state target i (mkRegisterState (PMerge m') initialized_merge)
        end
    end.

Definition MergeRegisterValues (cfg : Config) (control : NodePtr) (target : BlockPtr)
    (predecessor_id : nat) : M unit :=
  let* target_state := target_register_state target in
  let* s0 := deref (target_state !! 0%nat) in
  if negb (is_initialized (GetPayload s0)) then
    (* This is the first block we're merging, initialize the values. *)
    InitializeBranchTargetRegisterValues cfg control target
  else
    let* t := block_at target in
    let* ms := deref (state t) in
    forM_ (register_indices cfg)
      (MergeRegisterValues_step cfg control target predecessor_id (predecessor_count ms)).

Definition InitializeConditionalBranchRegisters (cfg : Config) (n : NodePtr)
    (target : BlockPtr) : M unit :=
  let* t := block_at target in
  if is_empty_block t then
    (* Jumping over an empty block, so we're in fact merging. *)
    let* jump := node_at (control_node t) in
    match opcode jump with
    | OpJump target' => MergeRegisterValues cfg n target' (predecessor_id t)
    | _ => abort (* Cast<Jump>() *)
    end
  else if has_state t then
    (* Not a fall-through branch, copy the state over. *)
    InitializeBranchTargetRegisterValues cfg n target
  else
    (* Clear dead fall-through registers. *)
    forM_ (register_indices cfg) (λ i,
      let* info := reg_at i in
      match info with
      | None => ret tt
      | Some p =>
          let* live := IsLiveAtTarget info n target in
          if live then ret tt
          else update_info p (info_with_reg None) ;;; set_reg i None
      end).

Definition AllocateControlNode (cfg : Config) (n : NodePtr) (block : BlockPtr) : M unit :=
  AllocateNode_inputs cfg n ;;;
  let* nd := node_at n in
  let* blk := block_at block in
  when (is_call nd) (SpillAndClearRegisters cfg) ;;;
  (* Inject allocation into target phis. *)
  match unconditional_target nd with
  | Some target =>
      let* t := block_at target in
      match phis t with
      | Some ps =>
          forM_ ps (λ phi,
            let* input := input_at phi (predecessor_id blk) in
            let* info := info_at (input_node input) in
            let* a := deref (allocation info) in
            input_SetAllocated phi (predecessor_id blk) a) ;;;
          forM_ ps (λ phi,
            let* input := input_at phi (predecessor_id blk) in
            UpdateInputUseAndClearDead cfg (id nd) input)
      | None => ret tt
      end
  | None => ret tt
  end ;;;
  when (can_deopt nd) (SpillRegisters cfg) ;;;
  (* Merge register values. Values only flowing into phis and not being
     independently live will be killed as part of the merge. *)
  match opcode nd with
  | OpJump target | OpJumpLoop target =>
      (* Empty blocks are immediately merged at the control of their
         predecessor. *)
      if is_empty_block blk then ret tt
      else MergeRegisterValues cfg n target (predecessor_id blk)
  | OpConditional if_true if_false =>
      InitializeConditionalBranchRegisters cfg n if_true ;;;
      InitializeConditionalBranchRegisters cfg n if_false
  | _ => ret tt
  end ;;;
  when (FLAG_trace_maglev_regalloc cfg) (emit (TProcessControl n)).

(** The three passes over the phis of a block. *)
Definition ActivatePhis (cfg : Config) (ps : list NodePtr) : M unit :=
  (* Firstly, make the phi live, and try to assign it to an input
     location. *)
  forM_ ps (λ phi,
    SetNoSpillOrHint phi ;;;
    let* info := MakeLive phi in
    TryAllocateToInput cfg info phi) ;;;
  (* Secondly try to assign the phi to a free register. *)
  forM_ ps (λ phi,
    let* nd := node_at phi in
    if IsAllocated (result nd) then ret tt
    else
      let* allocation := TryAllocateRegister cfg phi in
      match allocation with
      | Allocated a =>
          result_SetAllocated phi a ;;;
          when (FLAG_trace_maglev_regalloc cfg) (emit (TPhi phi 1 (Allocated a)))
      | _ => ret tt
      end) ;;;
  (* Finally just use a stack slot. *)
  forM_ ps (λ phi,
    let* nd := node_at phi in
    if IsAllocated (result nd) then ret tt
    else
      AllocateSpillSlot phi ;;;
      let* info := info_at phi in
      let* s := deref (stack_slot info) in
      result_SetAllocated phi (slot s) ;;;
      when (FLAG_trace_maglev_regalloc cfg) (emit (TPhi phi 2 (Allocated (slot s))))) ;;;
  when (FLAG_trace_maglev_regalloc cfg) (PrintLiveRegs cfg).

(** [node_it_ = block->nodes().begin()] and [++node_it_]. *)
Definition node_it_begin : M unit :=
  let* blk := current_block in
  modify (with_node_it_ (match nodes blk with [] => None | _ => Some 0%nat end)).

Definition node_it_next : M unit :=
  let* blk := current_block in
  let* it := gets node_it_ in
  let* i := deref it in
  modify (with_node_it_ (if decide (S i < length (nodes blk))%nat then Some (S i) else None)).

(** The loop over the nodes of the current block.  Gap moves are only
    inserted before the cursor, so the number of nodes still to visit
    never grows and the length of the node list at loop entry is fuel
    enough. *)
Fixpoint AllocateNodes (cfg : Config) (fuel : nat) : M unit :=
  match fuel with
  | O => ret tt
  | S fuel' =>
      let* it := gets node_it_ in
      match it with
      | None => ret tt
      | Some i =>
          let* blk := current_block in
          let* item := deref (nodes blk !! i) in
          AllocateNode cfg item ;;;
          node_it_next ;;;
          AllocateNodes cfg fuel'
      end
  end.

Definition AllocateBlock (cfg : Config) (block : BlockPtr) : M unit :=
  modify (with_block_it_ block) ;;;
  let* blk := block_at block in
  (* Restore mergepoint state. *)
  match state blk with
  | Some s => InitializeRegisterValues cfg (register_state s)
  | None => ret tt
  end ;;;
  when (FLAG_trace_maglev_regalloc cfg) (trace_block_entry cfg block) ;;;
  (* Activate phis. *)
  match phis blk with
  | Some ps => ActivatePhis cfg ps
  | None => ret tt
  end ;;;
  node_it_begin ;;;
  let* blk := block_at block in
  AllocateNodes cfg (length (nodes blk)) ;;;
  AllocateControlNode cfg (control_node blk) block.

Definition AllocateRegisters (cfg : Config) (graph : list BlockPtr) : M unit :=
  when (FLAG_trace_maglev_regalloc cfg) (emit TPreProcessGraph) ;;;
  forM_ graph (AllocateBlock cfg).

(** ** The payload encoding of [RegisterStateFlags] (maglev-regalloc-data.h) *)

Definition kIsMergeShift : Z := 0.
Definition kIsInitializedShift : Z := 1.

(** [explicit constexpr operator uintptr_t() const]. *)
Definition RegisterStateFlags_to_uintptr (f : RegisterStateFlags) : Z :=
  Z.lor (if is_initialized f then Z.shiftl 1 kIsInitializedShift else 0)
        (if is_merge f then Z.shiftl 1 kIsMergeShift else 0).

(** [constexpr explicit RegisterStateFlags(uintptr_t state)]. *)
Definition RegisterStateFlags_of_uintptr (state : Z) : RegisterStateFlags :=
  mkFlags (negb (Z.land state (Z.shiftl 1 kIsInitializedShift) =? 0))
          (negb (Z.land state (Z.shiftl 1 kIsMergeShift) =? 0)).

(** [operator==(const RegisterStateFlags&, const RegisterStateFlags&)]. *)
Definition RegisterStateFlags_eq (left right : RegisterStateFlags) : bool :=
  eqb (is_initialized left) (is_initialized right) &&
  eqb (is_merge left) (is_merge right).

(** ** The tree of post-dominating holes (maglev-regalloc.cc) *)

Definition node_with_next_post_dominating_hole (h : option NodePtr) (n : NodeData)
  : NodeData :=
  mkNode (id n) (opcode n) (is_call n) (can_deopt n) (inputs n) (num_temporaries_needed n)
    (temporaries n) (live_range_end n) (node_next_use n) (result n) (spill_slot n) h.

(** [control->set_next_post_dominating_hole(h)]. *)
Definition set_next_post_dominating_hole (p : NodePtr) (h : option NodePtr) : M unit :=
  update_node p (node_with_next_post_dominating_hole h).

(** The [while (first != second)] loop of the conditional case.  It
    returns [first] as it is when the loop is left, by its condition or by
    the [break]; [fuel] bounds the number of rounds. *)
Fixpoint holes_walk (fuel : nat) (control : NodePtr) (first second : option NodePtr)
  : M (option NodePtr) :=
  match fuel with
  | O => abort
  | S fuel' =>
      if decide (first = second) then ret first
      else
        (* Walk the highest branch to find where it goes. *)
        let* f := deref first in
        let* fn := node_at f in
        let* s := deref second in
        let* sn := node_at s in
        (* if (first->id() > second->id()) std::swap(first, second); *)
        let swap := id sn <? id fn in
        let first' := if swap then second else first in
        let second' := if swap then first else second in
        let fn' := if swap then sn else fn in
        if Is_Return fn' || Is_JumpLoop fn' then
          (* If the first branch returns or jumps back, we've found highest
             reachable control-node of the longest branch (the second
             control node). *)
          set_next_post_dominating_hole control second' ;;;
          ret first'
        else
          (* Continue one step along the highest branch. *)
          holes_walk fuel' control (next_post_dominating_hole fn') second'
  end.

(** The body of the loop over the blocks. *)
Definition ComputePostDominatingHoles_block (fuel : nat) (block : BlockPtr) : M unit :=
  let* blk := block_at block in
  let control := control_node blk in
  let* c := node_at control in
  match opcode c with
  | OpJump target =>
      (* If the current control node is a jump, prepend it to the list of
         jumps at the target. *)
      let* tb := block_at target in
      let* h := NearestPostDominatingHole (control_node tb) in
      set_next_post_dominating_hole control h
  | OpConditional if_true if_false =>
      let* tb := block_at if_true in
      let* first := NearestPostDominatingHole (control_node tb) in
      let* fb := block_at if_false in
      let* second := NearestPostDominatingHole (control_node fb) in
      let* first := holes_walk fuel control first second in
      (* Once the branches merged, we've found the gap-chain that's
         relevant for the control node. *)
      set_next_post_dominating_hole control first
  | _ => ret tt
  end.

(** [for (BasicBlock* block : base::Reversed( *graph))]. *)
Definition ComputePostDominatingHoles (fuel : nat) (graph : list BlockPtr) : M unit :=
  forM_ (reverse graph) (ComputePostDominatingHoles_block fuel).

(** The constructor: the holes, the allocation, and
    [graph->set_stack_slots(top_of_stack_)], whose argument is the
    result. *)
Definition StraightForwardRegisterAllocator (cfg : Config) (fuel : nat)
    (graph : list BlockPtr) : M Z :=
  ComputePostDominatingHoles fuel graph ;;;
  AllocateRegisters cfg graph ;;;
  gets top_of_stack_.

(** ** Concrete instances

    The scenarios of the specification use four registers, R0..R3. *)

(** Modelled from the spec: the ALWAYS_ALLOCATABLE_GENERAL_REGISTERS macro
    is not among the sources; the specification's scenarios take N = 4
    with registers R0..R3. *)
Definition regs4 : list Register := [0; 1; 2; 3].

Definition cfg4 : Config := mkConfig regs4 false true.
Definition cfg4_trace : Config := mkConfig regs4 true true.

Definition value_node (i last : Z) (ins : list Input) (res : UnallocatedOperand) : NodeData :=
  mkNode i OpValueNode false false ins 0 ∅ last 0 (Unallocated res) None None.

Definition control (i : Z) (op : Opcode) : NodeData :=
  mkNode i op false false [] 0 ∅ 0 0 Invalid None None.

Definition empty_registers4 : list (option InfoPtr) := [None; None; None; None].

(** A value defined at id 3, last used at id 12, tested against the
    block [20 .. 25] from the jump with id 15 (a forward edge). *)
Definition live_state : State :=
  mkState
    {[ 3%nat := mkInfo 3%nat 12 9 None (Some 0) ]}
    [Some 3%nat; None; None; None] [] 0 0%nat None
    {[ 3%nat := value_node 3 12 [] (UExtended MUST_HAVE_REGISTER 0);
       15%nat := control 15 (OpJump 1%nat);
       25%nat := control 25 OpReturn ]}
    {[ 1%nat := mkBlock [] None 25%nat None 0 false 20 20 ]}.

(** All four registers hold a value; value 5 is live but has no register
    yet.  The next uses are 5, 7, 6 and 4. *)
Definition full_state : State :=
  mkState
    {[ 1%nat := mkInfo 1%nat 10 5 None (Some 0);
       2%nat := mkInfo 2%nat 10 7 None (Some 1);
       3%nat := mkInfo 3%nat 10 6 None (Some 2);
       4%nat := mkInfo 4%nat 10 4 None (Some 3);
       5%nat := mkInfo 5%nat 20 9 (Some (NewStackSlot kTagged (-1))) None ]}
    [Some 1%nat; Some 2%nat; Some 3%nat; Some 4%nat] [] 0 0%nat None
    {[ 1%nat := value_node 1 10 [] (UExtended MUST_HAVE_REGISTER 0);
       2%nat := value_node 2 10 [] (UExtended MUST_HAVE_REGISTER 0);
       3%nat := value_node 3 10 [] (UExtended MUST_HAVE_REGISTER 0);
       4%nat := value_node 4 10 [] (UExtended MUST_HAVE_REGISTER 0);
       5%nat := value_node 5 20 [] (UFixedSlot (-1)) ]}
    {[ 0%nat := mkBlock [] None 9%nat None 0 false 1 1 ]}.

Definition plain_node (i : Z) (call deopt : bool) (ins : list Input) (temps : nat) : NodeData :=
  mkNode i OpNode call deopt ins temps ∅ 0 0 Invalid None None.

Definition use_of (v : NodePtr) (next : Z) : Input :=
  mkInput v next (Unallocated (UExtended REGISTER_OR_SLOT 0)).

Definition initial_state (ns : gmap nat NodeData) (bs : gmap nat BasicBlock) : State :=
  mkState ∅ empty_registers4 [] 0 0%nat None ns bs.

(** One block: [v1 = ...; call; v3 = op(v1); return v3].  The call
    spills v1, which gets the first local slot, slot 0; v3 is the last
    use of v1. *)
Definition spill_graph : State :=
  initial_state
    {[ 1%nat := mkNode 1 OpValueNode false false [] 0 ∅ 3 3
                 (Unallocated (UExtended MUST_HAVE_REGISTER 0)) None None;
       2%nat := plain_node 2 true false [] 0;
       3%nat := mkNode 3 OpValueNode false false [use_of 1%nat 0] 0 ∅ 4 4
                 (Unallocated (UExtended MUST_HAVE_REGISTER 0)) None None;
       4%nat := mkNode 4 OpReturn false false [use_of 3%nat 0] 0 ∅ 0 0 Invalid None None ]}
    {[ 0%nat := mkBlock [INode 1%nat; INode 2%nat; INode 3%nat] None 4%nat None 0 false 1 1 ]}.

(** The state of [spill_graph] when the use of v1 by v3 is consumed. *)
Definition spilled_state : State :=
  mkState
    {[ 1%nat := mkInfo 1%nat 3 3 (Some (NewStackSlot kTagged 0)) None ]}
    empty_registers4 [] 1 0%nat (Some 2%nat)
    (node_store spill_graph) (block_store spill_graph).

(** One block: four values fill the registers (next uses 5, 7, 6, 4),
    then a node asks for two temporaries. *)
Definition temporaries_graph : State :=
  initial_state
    {[ 1%nat := mkNode 1 OpValueNode false false [] 0 ∅ 10 5
                 (Unallocated (UExtended MUST_HAVE_REGISTER 0)) None None;
       2%nat := mkNode 2 OpValueNode false false [] 0 ∅ 10 7
                 (Unallocated (UExtended MUST_HAVE_REGISTER 0)) None None;
       3%nat := mkNode 3 OpValueNode false false [] 0 ∅ 10 6
                 (Unallocated (UExtended MUST_HAVE_REGISTER 0)) None None;
       4%nat := mkNode 4 OpValueNode false false [] 0 ∅ 10 4
                 (Unallocated (UExtended MUST_HAVE_REGISTER 0)) None None;
       5%nat := plain_node 5 false false [] 2;
       6%nat := control 6 OpReturn ]}
    {[ 0%nat := mkBlock [INode 1%nat; INode 2%nat; INode 3%nat; INode 4%nat; INode 5%nat]
                 None 6%nat None 0 false 1 1 ]}.

(** A merge block (block 2, ids 20..30, two predecessors) that its first
    predecessor has initialized with value 7 in R0.  The second
    predecessor (block 1, ending in the jump 15) arrives with value 7 in
    R1; the value is live at the target (last use 25). *)
Definition merge_block (entries : list RegisterState) : BasicBlock :=
  mkBlock [] None 30%nat (Some (mkMergePoint 2 entries)) 0 false 20 20.

Definition merge_state_with (slot7 : option StackSlot) : State :=
  mkState
    {[ 7%nat := mkInfo 7%nat 25 22 slot7 (Some 1) ]}
    [None; Some 7%nat; None; None] [] 1 1%nat None
    {[ 7%nat := value_node 7 25 [] (UExtended MUST_HAVE_REGISTER 0);
       15%nat := control 15 (OpJump 2%nat);
       30%nat := control 30 OpReturn ]}
    {[ 1%nat := mkBlock [] None 15%nat None 1 false 10 10;
       2%nat := merge_block
                  [ mkRegisterState (PNode 7%nat) initialized_node;
                    mkRegisterState PNull initialized_node;
                    mkRegisterState PNull initialized_node;
                    mkRegisterState PNull initialized_node ] ]}.

Definition merge_state : State := merge_state_with None.
Definition merge_state_spilled : State := merge_state_with (Some (NewStackSlot kTagged 0)).

(** The register state of block [b], entry [i]. *)
Definition merge_entry (st : State) (b : BlockPtr) (i : nat) : option RegisterState :=
  blk ← block_store st !! b; ms ← state blk; register_state ms !! i.

(** The state a run ends in ([default] if it aborts). *)
Definition run_state (r : option (unit * State * list TraceEvent)) (default : State) : State :=
  match r with Some (_, s, _) => s | None => default end.

Definition merge_state_spilled_after : State :=
  run_state (MergeRegisterValues cfg4 15%nat 2%nat 1%nat merge_state_spilled) merge_state_spilled.

(** One block: [v1 = ...] (allocated to R0), then a node that wants v1
    in the fixed register R2, then further uses of v1. *)
Definition fixed_graph : State :=
  with_node_it_ (Some 0%nat)
    (initial_state
       {[ 1%nat := mkNode 1 OpValueNode false false [] 0 ∅ 9 2
                    (Unallocated (UExtended MUST_HAVE_REGISTER 0)) None None;
          2%nat := plain_node 2 false false
                     [mkInput 1%nat 9 (Unallocated (UExtended FIXED_REGISTER 2))] 0;
          9%nat := control 9 OpReturn ]}
       {[ 0%nat := mkBlock [INode 1%nat; INode 2%nat] None 9%nat None 0 false 1 1 ]}).

(** [fixed_graph] after v1 was processed, and after the second node. *)
Definition fixed_state_1 : State :=
  run_state ((AllocateNode cfg4 (INode 1%nat) ;;; node_it_next) fixed_graph) fixed_graph.

Definition fixed_state_2 : State :=
  run_state (AllocateNode cfg4 (INode 2%nat) fixed_state_1) fixed_state_1.

(** One block: [v1 = ...; v2 = f(v1)] where the second node is a value
    node; [call_graph] makes it a call, [deopt_graph] a node that can
    deopt.  v1 stays live after it. *)
Definition effect_graph (call deopt : bool) : State :=
  with_node_it_ (Some 0%nat)
    (initial_state
       {[ 1%nat := mkNode 1 OpValueNode false false [] 0 ∅ 9 2
                    (Unallocated (UExtended MUST_HAVE_REGISTER 0)) None None;
          2%nat := mkNode 2 OpValueNode call deopt [use_of 1%nat 9] 0 ∅ 9 9
                    (Unallocated (UExtended MUST_HAVE_REGISTER 0)) None None;
          9%nat := control 9 OpReturn ]}
       {[ 0%nat := mkBlock [INode 1%nat; INode 2%nat] None 9%nat None 0 false 1 1 ]}).

Definition call_state_1 : State :=
  run_state ((AllocateNode cfg4 (INode 1%nat) ;;; node_it_next) (effect_graph true false))
    (effect_graph true false).
Definition call_state_2 : State :=
  run_state (AllocateNode cfg4 (INode 2%nat) call_state_1) call_state_1.


(** The record of v1 in [call_state_1]: in R0, not spilled. *)
Definition v1_in_R0 : LiveNodeInfo := mkInfo 1%nat 9 2 None (Some 0).

(** Two live values: v1, spilled to the local slot 1 and last used by
    node 3, and v2 in R0. *)
Definition reuse_state : State :=
  mkState
    {[ 1%nat := mkInfo 1%nat 3 3 (Some (NewStackSlot kTagged 1)) None;
       2%nat := mkInfo 2%nat 9 9 None (Some 0) ]}
    [Some 2%nat; None; None; None] [] 2 0%nat None
    {[ 1%nat := value_node 1 3 [] (UExtended MUST_HAVE_REGISTER 0);
       2%nat := value_node 2 9 [] (UExtended MUST_HAVE_REGISTER 0) ]}
    {[ 0%nat := mkBlock [] None 9%nat None 0 false 1 1 ]}.

(** A branch whose two sides return: block 0 ends in the conditional 10,
    block 1 (ids 11..20) and block 2 (ids 21..30) end in Returns. *)
Definition branch_graph : State :=
  initial_state
    {[ 10%nat := control 10 (OpConditional 1%nat 2%nat);
       20%nat := control 20 OpReturn;
       30%nat := control 30 OpReturn ]}
    {[ 0%nat := mkBlock [] None 10%nat None 0 false 1 1;
       1%nat := mkBlock [] None 20%nat None 0 false 11 11;
       2%nat := mkBlock [] None 30%nat None 0 false 21 21 ]}.

(** States after runs on the examples. *)
Definition merge_state_first_visit : State :=
  run_state (InitializeBranchTargetRegisterValues cfg4 15%nat 2%nat merge_state) merge_state.

Definition merge_entries : list RegisterState :=
  [ mkRegisterState (PNode 7%nat) initialized_node;
    mkRegisterState PNull initialized_node;
    mkRegisterState PNull initialized_node;
    mkRegisterState PNull initialized_node ].

Definition merge_state_restored : State :=
  run_state (InitializeRegisterValues cfg4 merge_entries merge_state) merge_state.

Definition merge_state_merged : State :=
  run_state (MergeRegisterValues cfg4 15%nat 2%nat 1%nat merge_state) merge_state.

Definition merge_state_holes : State :=
  run_state (ComputePostDominatingHoles 1 [1%nat; 2%nat] merge_state) merge_state.

(** ** Vocabulary of the properties *)

(** [stable R m]: every run of [m] takes a state to an [R]-related one. *)
Definition stable (R : relation State) {A} (m : M A) : Prop :=
  ∀ st a st' t, m st = Some (a, st', t) → R st st'.

(** The runs of [m] leave the component [proj] of the state alone. *)
Definition same_on {X} (proj : State → X) : relation State :=
  λ s s', proj s' = proj s.

(** No liveness record is created. *)
Definition no_new_values : relation State :=
  λ s s', ∀ v, values_ s !! v = None → values_ s' !! v = None.

(** Weakest liberal precondition (if the run returns, [Q] holds of the
    result) and weakest precondition (the run returns and [Q] holds). *)
Definition wlp {A} (m : M A) (Q : A → State → Prop) (st : State) : Prop :=
  ∀ a st' t, m st = Some (a, st', t) → Q a st'.

Definition wp {A} (m : M A) (Q : A → State → Prop) (st : State) : Prop :=
  ∃ a st' t, m st = Some (a, st', t) ∧ Q a st'.


(** [st'] is [st] after the record [p] was given a stack slot (if it had
    none): nothing else about the records or the register file changed. *)
Definition spilled (p : InfoPtr) (i : LiveNodeInfo) (st st' : State) : Prop :=
  ∃ s, values_ st' = <[p := info_with_stack_slot (Some s) i]> (values_ st) ∧
       (∀ s0, stack_slot i = Some s0 → s = s0) ∧
       register_values_ st' = register_values_ st ∧
       block_store st' = block_store st ∧
       block_it_ st' = block_it_ st ∧
       node_it_ st' = node_it_ st ∧
       (∀ q, is_Some (node_store st' !! q) ↔ is_Some (node_store st !! q)).



(** No register is empty. *)
Definition registers_full (cfg : Config) (st : State) : Prop :=
  ∀ j, (j < kAllocatableGeneralRegisterCount cfg)%nat →
    ∃ p, register_values_ st !! j = Some (Some p).

(** [st'] is [st] except for entries of the register state of block
    [target] whose index satisfies [J]. *)
Definition merge_rel (target : BlockPtr) (J : nat → Prop) : relation State :=
  λ s s',
    values_ s' = values_ s ∧
    register_values_ s' = register_values_ s ∧
    node_store s' = node_store s ∧
    ∀ T, block_store s !! target = Some T →
      ∃ T', block_store s' !! target = Some T' ∧
            T' = block_with_state (state T') T ∧
            ∀ ms, state T = Some ms →
              ∃ ms', state T' = Some ms' ∧
                     predecessor_count ms' = predecessor_count ms ∧
                     ∀ k, ¬ J k → register_state ms' !! k = register_state ms !! k.

(** The agreement between liveness records and register file, as
    properties of the two tables.
    - [bound_in_file]: a record whose register field is set is held by
      the register-file entry of that register;
    - [file_names_reg]: the record held by entry [i] of the register file
      has [MapIndexToRegister(i)] as its register field;
    - [named]: the record stored for a value describes that value. *)
Definition bound_in_file (cfg : Config) (vals : gmap nat LiveNodeInfo)
    (rv : list (option nat)) : Prop :=
  ∀ p info r, vals !! p = Some info → reg info = Some r →
    ∃ i, MapRegisterToIndex cfg r = Some i ∧ rv !! i = Some (Some p).

Definition file_names_reg (cfg : Config) (vals : gmap nat LiveNodeInfo)
    (rv : list (option nat)) : Prop :=
  ∀ i p info, rv !! i = Some (Some p) → vals !! p = Some info →
    reg info = MapIndexToRegister cfg i.

Definition named (vals : gmap nat LiveNodeInfo) : Prop :=
  ∀ p info, vals !! p = Some info → node info = p.

Definition inv_on (cfg : Config) (vals : gmap nat LiveNodeInfo) (rv : list (option nat))
  : Prop :=
  bound_in_file cfg vals rv ∧ named vals.

Definition alloc_inv (cfg : Config) (st : State) : Prop :=
  inv_on cfg (values_ st) (register_values_ st).

(** The two tables of the allocator. *)
Definition alloc_view (st : State) : gmap nat LiveNodeInfo * list (option nat) :=
  (values_ st, register_values_ st).

(** The steps of the allocator's walk over a block: restoring the merge
    state, activating the phis, processing a node, processing the control
    node. *)
Inductive allocator_step (cfg : Config) (st st' : State) : Prop :=
  | step_restore target_state t :
      InitializeRegisterValues cfg target_state st = Some (tt, st', t) →
      allocator_step cfg st st'
  | step_phis ps t :
      ActivatePhis cfg ps st = Some (tt, st', t) →
      allocator_step cfg st st'
  | step_node item t :
      AllocateNode cfg item st = Some (tt, st', t) →
      allocator_step cfg st st'
  | step_control n block t :
      AllocateControlNode cfg n block st = Some (tt, st', t) →
      allocator_step cfg st st'.

(** The allocator decorates nodes but never changes what they are. *)
Definition same_static (nd nd' : NodeData) : Prop :=
  id nd' = id nd ∧ opcode nd' = opcode nd ∧ is_call nd' = is_call nd ∧
  can_deopt nd' = can_deopt nd ∧ live_range_end nd' = live_range_end nd.

Definition static_rel : relation State :=
  λ s s', ∀ p nd, node_store s !! p = Some nd →
    ∃ nd', node_store s' !! p = Some nd' ∧ same_static nd nd'.

(** [grow_rel]: the register file is the same and records only gain
    stack slots.  [clear_rel J]: register-file entries outside [J] are
    the same, empty entries stay empty, records only gain stack slots and
    lose registers. *)
Definition grow_rel : relation State :=
  λ s s',
    register_values_ s' = register_values_ s ∧
    ∀ p info, values_ s !! p = Some info →
      ∃ info', values_ s' !! p = Some info' ∧ reg info' = reg info ∧
               (is_Some (stack_slot info) → is_Some (stack_slot info')).

Definition clear_rel (J : nat → Prop) : relation State :=
  λ s s',
    (∀ j, ¬ J j → register_values_ s' !! j = register_values_ s !! j) ∧
    (∀ j, register_values_ s !! j = Some None → register_values_ s' !! j = Some None) ∧
    ∀ p info, values_ s !! p = Some info →
      ∃ info', values_ s' !! p = Some info' ∧
               (reg info = None → reg info' = None) ∧
               (is_Some (stack_slot info) → is_Some (stack_slot info')).



(** The records other than [n] are the same. *)
Definition same_values_but (n : InfoPtr) : relation State :=
  λ s s', ∀ q, q ≠ n → values_ s' !! q = values_ s !! q.

(** [m0] does what [m1] does, except for what it writes to the trace:
    whenever [m1] returns, [m0] returns the same value in the same
    state. *)
Definition same_up_to_trace {A} (m1 m0 : M A) : Prop :=
  ∀ st a st' t, m1 st = Some (a, st', t) → ∃ t0, m0 st = Some (a, st', t0).

(** What the loop over the register file does to one entry. *)
Definition clear_entry (n : InfoPtr) (r : option InfoPtr) : option InfoPtr :=
  if decide (r = Some n) then None else r.

(** The state after the last use of a live value [n] is consumed. *)
Definition after_last_use (n : InfoPtr) (info : LiveNodeInfo) (st : State) : State :=
  with_values_ (delete n)
    (with_free_slots_
       (λ l, match stack_slot info with
             | Some s => if 0 <? index (slot s) then l ++ [s] else l
             | None => l
             end)
       (with_register_values_ (λ rv, clear_entry n <$> rv) st)).

(** ** Vocabulary of the properties of the whole run *)

(** What a node is, as opposed to what the allocator writes on it (the
    operands of its inputs and of its result, its spill slot, its
    temporaries) and to its place in the tree of holes. *)
Definition same_shape (nd nd' : NodeData) : Prop :=
  id nd' = id nd ∧ opcode nd' = opcode nd ∧ is_call nd' = is_call nd ∧
  can_deopt nd' = can_deopt nd ∧
  num_temporaries_needed nd' = num_temporaries_needed nd ∧
  live_range_end nd' = live_range_end nd ∧ node_next_use nd' = node_next_use nd ∧
  (input_node <$> inputs nd') = (input_node <$> inputs nd) ∧
  (next_use_id <$> inputs nd') = (next_use_id <$> inputs nd).

(** The same nodes exist before and after, with the same shape. *)
Definition shape_rel : relation State :=
  λ s s', ∀ p, option_Forall2 same_shape (node_store s !! p) (node_store s' !! p).

(** No node changes its place in the tree of holes. *)
Definition holes_rel : relation State :=
  λ s s', ∀ p, next_post_dominating_hole <$> node_store s' !! p
               = next_post_dominating_hole <$> node_store s !! p.

(** Nothing but [next_post_dominating_hole] fields is written. *)
Definition only_holes : relation State :=
  λ s s',
    values_ s' = values_ s ∧ register_values_ s' = register_values_ s ∧
    free_slots_ s' = free_slots_ s ∧ top_of_stack_ s' = top_of_stack_ s ∧
    block_it_ s' = block_it_ s ∧ node_it_ s' = node_it_ s ∧
    block_store s' = block_store s ∧
    ∀ p, option_Forall2
           (λ nd nd', nd' = node_with_next_post_dominating_hole
                              (next_post_dominating_hole nd') nd)
           (node_store s !! p) (node_store s' !! p).

(** The nodes of the graph in a node list, in order, without the gap
    moves. *)
Definition graph_nodes (l : list BlockItem) : list NodePtr :=
  omap (λ it, match it with INode p => Some p | IGapMove _ _ => None end) l.

(** A block after allocation: the same nodes in the same order (gap
    moves apart), the same phis, control node and ids, and a merge state
    of the same size. *)
Definition same_block (b b' : BasicBlock) : Prop :=
  graph_nodes (nodes b') = graph_nodes (nodes b) ∧
  phis b' = phis b ∧ control_node b' = control_node b ∧
  predecessor_id b' = predecessor_id b ∧ is_empty_block b' = is_empty_block b ∧
  first_id b' = first_id b ∧ FirstNonGapMoveId b' = FirstNonGapMoveId b ∧
  option_Forall2
    (λ ms ms', predecessor_count ms' = predecessor_count ms ∧
               length (register_state ms') = length (register_state ms))
    (state b) (state b').

Definition block_rel : relation State :=
  λ s s', ∀ b, option_Forall2 same_block (block_store s !! b) (block_store s' !! b).

(** Stack slots are only ever added. *)
Definition stack_rel : relation State :=
  λ s s', top_of_stack_ s ≤ top_of_stack_ s'.

(** [m] writes nothing to the trace. *)
Definition silent {A} (m : M A) : Prop :=
  ∀ st a st' t, m st = Some (a, st', t) → t = [].

(** The state a run of the whole allocator on [spill_graph] ends in. *)
Definition spill_graph_end : State :=
  run_state (AllocateRegisters cfg4 [0%nat] spill_graph) spill_graph.

(** [keeps I]: a run that starts in a state satisfying [I] ends in one. *)
Definition keeps (I : State → Prop) : relation State := λ s s', I s → I s'.

(** Every entry of the register file points at a liveness record that
    exists: no [LiveNodeInfo*] of the file dangles. *)
Definition file_live (cfg : Config) (st : State) : Prop :=
  ∀ i p, (i < kAllocatableGeneralRegisterCount cfg)%nat →
    register_values_ st !! i = Some (Some p) → is_Some (values_ st !! p).

(** The index of a stack slot, and the slot of a live value. *)
Definition slot_index (s : StackSlot) : Z := index (slot s).

Definition slot_of (st : State) (p : InfoPtr) : option StackSlot :=
  info ← values_ st !! p; stack_slot info.

(** The stack slots in use:
    - every slot of a live value and of the free-list is below
      [top_of_stack_], and the slots of the free-list are local slots
      with a positive index;
    - the free-list holds no slot twice, and no slot of a live value;
    - two live values do not share a local slot (index [>= 0]). *)
Definition slot_table_ok (st : State) : Prop :=
  0 ≤ top_of_stack_ st ∧
  (∀ p s, slot_of st p = Some s → slot_index s < top_of_stack_ st) ∧
  (∀ s, s ∈ free_slots_ st → 0 < slot_index s < top_of_stack_ st) ∧
  NoDup (slot_index <$> free_slots_ st) ∧
  (∀ p s, slot_of st p = Some s → slot_index s ∉ slot_index <$> free_slots_ st) ∧
  (∀ p q s s', p ≠ q → slot_of st p = Some s → slot_of st q = Some s' →
     0 ≤ slot_index s → slot_index s ≠ slot_index s').

(** The fixed slot a result operand asks for is a slot of the caller
    ([DCHECK_LT(operand.fixed_slot_index(), 0)]). *)
Definition fixed_slots_negative (st : State) : Prop :=
  ∀ n nd i, node_store st !! n = Some nd → result nd = Unallocated (UFixedSlot i) → i < 0.

(** The spill slot written on a node is below [top_of_stack_]. *)
Definition spill_slots_bounded (st : State) : Prop :=
  ∀ n nd a, node_store st !! n = Some nd → spill_slot nd = Some a →
    index a < top_of_stack_ st.

Definition slots_ok (st : State) : Prop :=
  slot_table_ok st ∧ fixed_slots_negative st ∧ spill_slots_bounded st.

(** What [slots_ok] reads. *)
Definition slots_view (st : State)
  : gmap nat LiveNodeInfo * list StackSlot * Z * gmap nat NodeData :=
  (values_ st, free_slots_ st, top_of_stack_ st, node_store st).

(** The empty registers among the indices [l], in order, and the
    registers at a list of indices. *)
Definition empty_indices (st : State) (l : list nat) : list nat :=
  filter (λ i, register_values_ st !! i = Some None) l.

Definition registers_at (cfg : Config) (l : list nat) : gset Z :=
  list_to_set (omap (MapIndexToRegister cfg) l).

(** Operands that are allocated stay allocated, and a node keeps the
    number of its inputs. *)
Definition allocated_mono (nd nd' : NodeData) : Prop :=
  length (inputs nd') = length (inputs nd) ∧
  (∀ k i, inputs nd !! k = Some i → IsAllocated (input_operand i) = true →
     ∃ i', inputs nd' !! k = Some i' ∧ IsAllocated (input_operand i') = true) ∧
  (IsAllocated (result nd) = true → IsAllocated (result nd') = true).

Definition allocated_rel : relation State :=
  λ s s', ∀ p, option_Forall2 allocated_mono (node_store s !! p) (node_store s' !! p).

(** Every input of a node has an allocated operand. *)
Definition inputs_allocated (nd : NodeData) : Prop :=
  ∀ k i, inputs nd !! k = Some i → IsAllocated (input_operand i) = true.

(** The last register among [l], other than [skip], that is empty;
    [acc] when there is none. *)
Definition last_empty (st : State) (skip : nat) (l : list nat) (acc : option nat)
  : option nat :=
  foldl (λ acc k,
           if decide (k = skip) then acc
           else if decide (register_values_ st !! k = Some None) then Some k else acc)
        acc l.

(** The node list of a block after a gap move was added at the cursor. *)
Definition with_move_at (cursor : option nat) (move : BlockItem) (l : list BlockItem)
  : list BlockItem :=
  match cursor with
  | None => l ++ [move]
  | Some c => take c l ++ move :: drop c l
  end.

(** Everything of the state but the blocks. *)
Definition allocator_view (st : State) :=
  (values_ st, register_values_ st, free_slots_ st, top_of_stack_ st,
   block_it_ st, node_it_ st, node_store st).

(** Only the block [target] is written, and of it only the entries of
    the merge state. *)
Definition only_target (target : BlockPtr) : relation State :=
  λ s s',
    allocator_view s' = allocator_view s ∧
    (∀ b, b ≠ target → block_store s' !! b = block_store s !! b) ∧
    option_Forall2
      (λ T T', nodes T' = nodes T ∧ same_block T T')
      (block_store s !! target) (block_store s' !! target).

(** ** Reasoning about runs of the monad *)

Lemma bind_Some {A B} (m : M A) (k : A → M B) st b st2 t :
  bind m k st = Some (b, st2, t) →
  ∃ a st1 t1 t2, m st = Some (a, st1, t1) ∧ k a st1 = Some (b, st2, t2) ∧ t = t1 ++ t2.
Proof.
  unfold bind. intros H.
  destruct (m st) as [[[a st1] t1]|]; [|done].
  destruct (k a st1) as [[[b' st2'] t2]|] eqn:Hk; [|done].
  simplify_eq. by exists a, st1, t1, t2.
Qed.

Lemma bind_run {A B} (m : M A) (k : A → M B) st a st1 t1 :
  m st = Some (a, st1, t1) →
  bind m k st = match k a st1 with
                | Some (b, st2, t2) => Some (b, st2, t1 ++ t2)
                | None => None
                end.
Proof. unfold bind. by intros ->. Qed.

Create HintDb munfold.
Global Hint Unfold info_at update_info reg_at set_reg node_at update_node block_at
  update_block input_at current_block input_SetAllocated result_SetAllocated
  AssignedRegister SetNoSpillOrHint node_Spill assign_temporaries
  free_slots_Add free_slots_first free_slots_DropHead : munfold.

(** One inversion step on a hypothesis [m st = Some r]. *)
Ltac minv_step :=
  match goal with
  | H : bind _ _ _ = Some (_, _, _) |- _ =>
      apply bind_Some in H; destruct H as (? & ? & ? & ? & ? & H & ->); cbv beta in *
  | H : bind _ _ _ = Some ?r |- _ => destruct r as [[? ?] ?]
  | H : ret _ _ = Some _ |- _ => unfold ret in H; simplify_eq
  | H : gets _ _ = Some _ |- _ => unfold gets in H; simplify_eq
  | H : modify _ _ = Some _ |- _ => unfold modify in H; simplify_eq
  | H : emit _ _ = Some _ |- _ => unfold emit in H; simplify_eq
  | H : abort _ = Some _ |- _ => discriminate H
  | H : deref ?o _ = Some _ |- _ =>
      destruct o eqn:?; [unfold deref in H | discriminate H]
  | H : when ?b _ _ = Some _ |- _ => destruct b eqn:?; unfold when in H
  | H : (match ?x with _ => _ end) _ = Some _ |- _ => destruct x eqn:?
  end.

Ltac munfold_all := autounfold with munfold in *.
Ltac minv := repeat first [minv_step | progress munfold_all].

Lemma with_register_values_twice f g st :
  with_register_values_ f (with_register_values_ g st) = with_register_values_ (f ∘ g) st.
Proof. by destruct st. Qed.

Lemma with_register_values_id f st :
  f (register_values_ st) = register_values_ st → with_register_values_ f st = st.
Proof. destruct st; unfold with_register_values_; simpl. intros E. by rewrite E. Qed.

Lemma reg_at_run st i r :
  register_values_ st !! i = Some r → reg_at i st = Some (r, st, []).
Proof. unfold reg_at, bind, gets, deref, ret. by intros ->. Qed.

Lemma set_reg_run st i v :
  (i < length (register_values_ st))%nat →
  set_reg i v st = Some (tt, with_register_values_ (λ rv, <[i := v]> rv) st, []).
Proof.
  intros Hi. apply lookup_lt_is_Some_2 in Hi as [r Hr].
  unfold set_reg. rewrite (bind_run _ _ _ _ _ _ (reg_at_run _ _ _ Hr)). done.
Qed.

Lemma forM__app {X} (l1 l2 : list X) (f : X → M unit) st st1 t1 :
  forM_ l1 f st = Some (tt, st1, t1) →
  forM_ (l1 ++ l2) f st =
    match forM_ l2 f st1 with
    | Some (u, st2, t2) => Some (u, st2, t1 ++ t2)
    | None => None
    end.
Proof.
  revert st t1. induction l1 as [|x l1 IH]; intros st t1 H; simpl in *.
  - unfold ret in H. simplify_eq. by destruct (forM_ l2 f st1) as [[[[] ?] ?]|].
  - apply bind_Some in H as (a & st' & ta & tb & Hx & Hrest & ->).
    rewrite (bind_run _ _ _ _ _ _ Hx). rewrite (IH _ _ Hrest).
    destruct (forM_ l2 f st1) as [[[[] ?] ?]|]; [|done]. by rewrite app_assoc.
Qed.

Lemma gets_run {A} (f : State → A) st : gets f st = Some (f st, st, []).
Proof. done. Qed.

Lemma node_at_run st p nd :
  node_store st !! p = Some nd → node_at p st = Some (nd, st, []).
Proof. unfold node_at, bind, gets, deref, ret. by intros ->. Qed.

Lemma info_at_run st p i :
  values_ st !! p = Some i → info_at p st = Some (i, st, []).
Proof. unfold info_at, bind, gets, deref, ret. by intros ->. Qed.

Lemma block_at_run st b blk :
  block_store st !! b = Some blk → block_at b st = Some (blk, st, []).
Proof. unfold block_at, bind, gets, deref, ret. by intros ->. Qed.

Lemma update_info_run st p i f :
  values_ st !! p = Some i →
  update_info p f st = Some (tt, with_values_ (insert p (f i)) st, []).
Proof.
  intros H. unfold update_info. by rewrite (bind_run _ _ _ _ _ _ (info_at_run _ _ _ H)).
Qed.

Lemma update_node_run st p n f :
  node_store st !! p = Some n →
  update_node p f st = Some (tt, with_node_store (insert p (f n)) st, []).
Proof.
  intros H. unfold update_node. by rewrite (bind_run _ _ _ _ _ _ (node_at_run _ _ _ H)).
Qed.

(** Run the first action of a sequence with [tac]. *)
Ltac mrun tac := erewrite bind_run by tac; cbv beta.

(** *** Frame reasoning *)

Global Instance same_on_preorder {X} (proj : State → X) : PreOrder (same_on proj).
Proof. split; unfold same_on; [by intros ?|intros ? ? ?; congruence]. Qed.

Global Instance no_new_values_preorder : PreOrder no_new_values.
Proof. split; unfold no_new_values; [by intros ?|intros ? ? ?; eauto]. Qed.

Section Stable.
Context (R : relation State) `{!PreOrder R}.

Lemma stable_ret {A} (a : A) : stable R (ret a).
Proof. intros st a' st' t H. unfold ret in H. by simplify_eq. Qed.

Lemma stable_gets {A} (f : State → A) : stable R (gets f).
Proof. intros st a' st' t H. unfold gets in H. by simplify_eq. Qed.

Lemma stable_emit e : stable R (emit e).
Proof. intros st a' st' t H. unfold emit in H. by simplify_eq. Qed.

Lemma stable_abort {A} : stable R (@abort A).
Proof. by intros st a' st' t H. Qed.

Lemma stable_deref {A} (o : option A) : stable R (deref o).
Proof. destruct o; [apply stable_ret|apply stable_abort]. Qed.

Lemma stable_bind {A B} (m : M A) (k : A → M B) :
  stable R m → (∀ a, stable R (k a)) → stable R (bind m k).
Proof.
  intros Hm Hk st b st2 t H.
  apply bind_Some in H as (a & st1 & t1 & t2 & H1 & H2 & ->).
  etrans; [by eapply Hm|by eapply Hk].
Qed.

Lemma stable_modify (f : State → State) :
  (∀ st, R st (f st)) → stable R (modify f).
Proof. intros Hf st a st' t H. unfold modify in H. by simplify_eq. Qed.

Lemma stable_when b (m : M unit) : stable R m → stable R (when b m).
Proof. destruct b; [done|intros _; apply stable_ret]. Qed.

Lemma stable_forM_ {X} (l : list X) (f : X → M unit) :
  (∀ x, x ∈ l → stable R (f x)) → stable R (forM_ l f).
Proof.
  induction l as [|x l IH]; intros Hf; simpl.
  - apply stable_ret.
  - apply stable_bind; [apply Hf; by left|].
    intros ?. apply IH. intros y Hy. apply Hf. by right.
Qed.
End Stable.

Create HintDb stable_db discriminated.



(** Decompose a [stable] goal along the structure of the program; calls
    of functions are looked up in [stable_db]. *)
Ltac head_of t :=
  lazymatch t with
  | ?f _ => head_of f
  | _ => t
  end.

Ltac stable_step :=
  lazymatch goal with
  | |- PreOrder _ => typeclasses eauto
  | |- ∀ _, stable _ _ => intros ?
  | |- ∀ _, _ ∈ _ → stable _ _ => intros ? _
  | |- stable _ (bind _ _) => apply stable_bind
  | |- stable _ (ret _) => apply stable_ret
  | |- stable _ (gets _) => apply stable_gets
  | |- stable _ (emit _) => apply stable_emit
  | |- stable _ abort => apply stable_abort
  | |- stable _ (deref _) => apply stable_deref
  | |- stable _ (when _ _) => apply stable_when
  | |- stable _ (forM_ _ _) => apply stable_forM_
  | |- stable _ (match ?x with _ => _ end) => destruct x
  | |- stable _ (modify _) => apply stable_modify
  | |- stable _ (let _ := _ in _) => cbv zeta
  | |- stable _ ?m => let h := head_of m in progress unfold h
  end.

(** [fin] closes the goals left by [modify]. *)
Global Hint Extern 0 (PreOrder _) => typeclasses eauto : stable_db.

Ltac stable_with fin :=
  repeat first [ solve [auto 2 with stable_db nocore] | solve [fin] | stable_step ].

(** For components of the state: every setter leaves the others alone. *)
Ltac stable_tac := stable_with ltac:(by intros []).

(** *** Symbolic execution: [wlp] and [wp] *)

Ltac st_simpl :=
  cbn [values_ register_values_ free_slots_ top_of_stack_ block_it_ node_it_
       node_store block_store with_values_ with_register_values_ with_free_slots_
       with_top_of_stack_ with_block_it_ with_node_it_ with_node_store
       with_block_store] in *.

Section Wlp.
Context {A : Type}.
Implicit Types (Q : A → State → Prop) (st : State).

Lemma wlp_ret (a : A) Q st : Q a st → wlp (ret a) Q st.
Proof. intros H a' st' t E. unfold ret in E. by simplify_eq. Qed.

Lemma wlp_gets (f : State → A) Q st : Q (f st) st → wlp (gets f) Q st.
Proof. intros H a' st' t E. unfold gets in E. by simplify_eq. Qed.

Lemma wlp_abort Q st : wlp (@abort A) Q st.
Proof. by intros a' st' t E. Qed.

Lemma wlp_deref (o : option A) Q st :
  (∀ a, o = Some a → Q a st) → wlp (deref o) Q st.
Proof.
  intros H a' st' t E. destruct o; [|done]. unfold deref, ret in E.
  simplify_eq. by apply H.
Qed.

Lemma wlp_bind {B} (m : M B) (k : B → M A) Q st :
  wlp m (λ b st1, wlp (k b) Q st1) st → wlp (bind m k) Q st.
Proof.
  intros H a st' t E.
  apply bind_Some in E as (b & st1 & t1 & t2 & E1 & E2 & ->).
  by eapply H.
Qed.

Lemma wlp_mono (m : M A) Q Q' st :
  wlp m Q st → (∀ a st', Q a st' → Q' a st') → wlp m Q' st.
Proof. intros H HQ a st' t E. apply HQ. by eapply H. Qed.

Lemma wlp_intro (m : M A) Q st :
  (∀ a st' t, m st = Some (a, st', t) → Q a st') → wlp m Q st.
Proof. done. Qed.

Lemma wp_ret (a : A) Q st : Q a st → wp (ret a) Q st.
Proof. intros H. by exists a, st, []. Qed.

Lemma wp_gets (f : State → A) Q st : Q (f st) st → wp (gets f) Q st.
Proof. intros H. by exists (f st), st, []. Qed.

Lemma wp_deref (o : option A) a Q st : o = Some a → Q a st → wp (deref o) Q st.
Proof. intros -> H. by exists a, st, []. Qed.

Lemma wp_bind {B} (m : M B) (k : B → M A) Q st :
  wp m (λ b st1, wp (k b) Q st1) st → wp (bind m k) Q st.
Proof.
  intros (b & st1 & t1 & E1 & a & st2 & t2 & E2 & H).
  exists a, st2, (t1 ++ t2). split; [|done].
  by rewrite (bind_run _ _ _ _ _ _ E1), E2.
Qed.

Lemma wp_mono (m : M A) Q Q' st :
  wp m Q st → (∀ a st', Q a st' → Q' a st') → wp m Q' st.
Proof. intros (a & st' & t & E & H) HQ. exists a, st', t. eauto. Qed.

Lemma wp_wlp (m : M A) Q Q' st :
  wp m Q st → wlp m Q' st → wp m (λ a st', Q a st' ∧ Q' a st') st.
Proof. intros (a & st' & t & E & H) H'. exists a, st', t. eauto. Qed.
End Wlp.

Lemma wlp_modify f (Q : unit → State → Prop) st : Q tt (f st) → wlp (modify f) Q st.
Proof. intros H a' st' t E. unfold modify in E. by simplify_eq. Qed.

Lemma wlp_emit e (Q : unit → State → Prop) st : Q tt st → wlp (emit e) Q st.
Proof. intros H a' st' t E. unfold emit in E. by simplify_eq. Qed.

Lemma wlp_forM_ {X} (I : State → Prop) (l : list X) (f : X → M unit) st :
  I st → (∀ x st, x ∈ l → I st → wlp (f x) (λ _, I) st) → wlp (forM_ l f) (λ _, I) st.
Proof.
  revert st. induction l as [|x l IH]; intros st HI Hf; simpl.
  - by apply wlp_ret.
  - apply wlp_bind. eapply wlp_mono; [apply Hf; [left|done]|].
    intros ? st' HI'. apply IH; [done|]. intros y st'' Hy. apply Hf. by right.
Qed.

Lemma wp_modify f (Q : unit → State → Prop) st : Q tt (f st) → wp (modify f) Q st.
Proof. intros H. by exists tt, (f st), []. Qed.

Lemma wp_emit e (Q : unit → State → Prop) st : Q tt st → wp (emit e) Q st.
Proof. intros H. by exists tt, st, [e]. Qed.

Lemma wp_forM_ {X} (I : State → Prop) (l : list X) (f : X → M unit) st :
  I st → (∀ x st, x ∈ l → I st → wp (f x) (λ _, I) st) → wp (forM_ l f) (λ _, I) st.
Proof.
  revert st. induction l as [|x l IH]; intros st HI Hf; simpl.
  - by apply wp_ret.
  - apply wp_bind. eapply wp_mono; [apply Hf; [left|done]|].
    intros ? st' HI'. apply IH; [done|]. intros y st'' Hy. apply Hf. by right.
Qed.

Lemma stable_wlp (R : relation State) {A} (m : M A) st :
  stable R m → wlp m (λ _ st', R st st') st.
Proof. intros H a st' t E. by eapply H. Qed.

(** One step of symbolic execution of a [wlp] goal. *)
Ltac wlp_step :=
  lazymatch goal with
  | |- wlp (bind _ _) _ _ => apply wlp_bind
  | |- wlp (ret _) _ _ => apply wlp_ret
  | |- wlp (gets _) _ _ => apply wlp_gets
  | |- wlp (modify _) _ _ => apply wlp_modify
  | |- wlp (emit _) _ _ => apply wlp_emit
  | |- wlp abort _ _ => apply wlp_abort
  | |- wlp (deref _) _ _ => apply wlp_deref; intros ? ?
  | |- wlp (when ?b _) _ _ => unfold when at 1
  | |- wlp (match ?x with _ => _ end) _ _ => destruct x eqn:?
  | |- wlp (let _ := _ in _) _ _ => cbv zeta
  | |- wlp _ _ _ => progress autounfold with munfold
  end; cbv beta; st_simpl.

Ltac wlp_run := repeat wlp_step.

(** One step of symbolic execution of a [wp] goal; [deref] and branches
    are left to the caller. *)
Ltac wp_step :=
  lazymatch goal with
  | |- wp (bind _ _) _ _ => apply wp_bind
  | |- wp (ret _) _ _ => apply wp_ret
  | |- wp (gets _) _ _ => apply wp_gets
  | |- wp (modify _) _ _ => apply wp_modify
  | |- wp (emit _) _ _ => apply wp_emit
  | |- wp (deref _) _ _ => eapply wp_deref; [eassumption || done|]
  | |- wp (when ?b _) _ _ => unfold when at 1
  | |- wp (let _ := _ in _) _ _ => cbv zeta
  | |- wp _ _ _ => progress autounfold with munfold
  end; cbv beta; st_simpl.

Ltac wp_run := repeat wp_step.

Lemma forM__app_Some {X} (l1 l2 : list X) (f : X → M unit) st u st' t :
  forM_ (l1 ++ l2) f st = Some (u, st', t) →
  ∃ st1 t1 t2, forM_ l1 f st = Some (tt, st1, t1) ∧
               forM_ l2 f st1 = Some (u, st', t2) ∧ t = t1 ++ t2.
Proof.
  revert st t. induction l1 as [|x l1 IH]; intros st t H; simpl in *.
  - by exists st, [], t.
  - apply bind_Some in H as ([] & sa & ta & tb & Hx & H & ->).
    apply IH in H as (st1 & t1 & t2 & H1 & H2 & ->).
    exists st1, (ta ++ t1), t2. split_and!; [|done|by rewrite app_assoc].
    by rewrite (bind_run _ _ _ _ _ _ Hx), H1.
Qed.

Lemma seq_split_at (n i : nat) :
  (i < n)%nat → seq 0 n = seq 0 i ++ i :: seq (S i) (n - S i).
Proof.
  intros Hi. replace n with (i + S (n - S i))%nat at 1 by lia.
  rewrite seq_app. simpl. done.
Qed.

(** Use the specification [H] of the first action of a sequence. *)
Ltac wlp_open :=
  lazymatch goal with
  | |- wlp (bind _ _) _ _ => apply wlp_bind
  | |- _ => idtac
  end.

Ltac wlp_call H := wlp_open; eapply wlp_mono; [eapply H|cbv beta].

(** Skip an action that is [stable] for [R]. *)
Ltac wlp_stable R :=
  wlp_open; eapply wlp_mono; [apply (stable_wlp R); stable_tac|cbv beta].

(** The whole remaining program is [stable] for [R]. *)
Ltac wlp_stable_rest R :=
  eapply wlp_mono; [apply (stable_wlp R); stable_tac|cbv beta].

(** A loop invariant that may depend on what is left to visit. *)
Lemma wlp_forM_rest {X} (I : list X → State → Prop) (l : list X) (f : X → M unit) st :
  I l st →
  (∀ x l' st, I (x :: l') st → wlp (f x) (λ _, I l') st) →
  wlp (forM_ l f) (λ _, I []) st.
Proof.
  revert st. induction l as [|x l IH]; intros st HI Hf; simpl.
  - by apply wlp_ret.
  - apply wlp_bind. eapply wlp_mono; [by apply Hf|].
    intros ? st' HI'. by apply IH.
Qed.

(** The first action only reads the state. *)
Ltac wlp_readonly :=
  wlp_open; eapply wlp_mono;
  [apply (stable_wlp eq); stable_tac|cbv beta].

(** ** Functions that only read the state *)

Section ReadOnly.
Context (R : relation State) `{!PreOrder R}.

Lemma reg_at_stable i : stable R (reg_at i).
Proof. stable_tac. Qed.

Lemma info_at_stable p : stable R (info_at p).
Proof. stable_tac. Qed.

Lemma node_at_stable p : stable R (node_at p).
Proof. stable_tac. Qed.

Lemma block_at_stable b : stable R (block_at b).
Proof. stable_tac. Qed.

Lemma input_at_stable n k : stable R (input_at n k).
Proof. stable_tac. Qed.

Lemma current_block_stable : stable R current_block.
Proof. stable_tac. Qed.

Lemma AssignedRegister_stable i : stable R (AssignedRegister i).
Proof. unfold AssignedRegister. stable_tac. Qed.

Lemma target_register_state_stable t : stable R (target_register_state t).
Proof. unfold target_register_state. stable_tac. Qed.

Lemma set_operand_stable m j a : stable R (set_operand m j a).
Proof. unfold set_operand. stable_tac. Qed.

Lemma EnsureInRegister_stable ts q : stable R (EnsureInRegister ts q).
Proof. unfold EnsureInRegister. stable_tac. Qed.

Lemma free_slots_first_stable : stable R free_slots_first.
Proof. unfold free_slots_first. stable_tac. Qed.

Lemma IsLiveAtTarget_stable info source target :
  stable R (IsLiveAtTarget info source target).
Proof. unfold IsLiveAtTarget. stable_tac. Qed.

Lemma NearestPostDominatingHole_stable p : stable R (NearestPostDominatingHole p).
Proof. unfold NearestPostDominatingHole. stable_tac. Qed.

Lemma live_regs_stable cfg l : stable R (live_regs cfg l).
Proof. induction l; simpl; stable_tac. Qed.

Lemma PrintLiveRegs_stable cfg : stable R (PrintLiveRegs cfg).
Proof.
  unfold PrintLiveRegs. pose proof (live_regs_stable cfg). stable_tac.
Qed.

Lemma print_holes_stable fuel c : stable R (print_holes fuel c).
Proof. revert c. induction fuel; intros c; simpl; stable_tac. Qed.

Lemma trace_block_entry_stable cfg b : stable R (trace_block_entry cfg b).
Proof.
  unfold trace_block_entry.
  pose proof (PrintLiveRegs_stable cfg). pose proof NearestPostDominatingHole_stable.
  pose proof print_holes_stable. stable_tac.
Qed.

Lemma Free_find_move_stable skip n l index : stable R (Free_find_move skip n l index).
Proof. revert index. induction l; intros index; simpl; stable_tac. Qed.

Lemma Free_find_existing_stable p l : stable R (Free_find_existing p l).
Proof. induction l; simpl; stable_tac. Qed.

Lemma first_empty_register_stable l : stable R (first_empty_register l).
Proof. induction l; simpl; stable_tac. Qed.

Lemma next_use_at_stable i : stable R (next_use_at i).
Proof. unfold next_use_at. stable_tac. Qed.

Lemma furthest_register_stable l f : stable R (furthest_register l f).
Proof.
  revert f. pose proof next_use_at_stable.
  induction l; intros f; simpl; stable_tac.
Qed.

Lemma collect_free_registers_stable cfg l free count :
  stable R (collect_free_registers cfg l free count).
Proof. revert free count. induction l; intros free count; simpl; stable_tac. Qed.

Lemma longest_scan_stable l u lg : stable R (longest_scan l u lg).
Proof. revert u lg. induction l; intros u lg; simpl; stable_tac. Qed.

End ReadOnly.

Global Hint Resolve reg_at_stable info_at_stable node_at_stable block_at_stable
  input_at_stable current_block_stable AssignedRegister_stable
  target_register_state_stable set_operand_stable EnsureInRegister_stable
  free_slots_first_stable IsLiveAtTarget_stable NearestPostDominatingHole_stable
  live_regs_stable PrintLiveRegs_stable print_holes_stable trace_block_entry_stable
  Free_find_move_stable Free_find_existing_stable first_empty_register_stable
  next_use_at_stable furthest_register_stable collect_free_registers_stable
  longest_scan_stable : stable_db.

(** ** Liveness at a branch target *)

(** C4.  For a liveness record, a source control node S and a successor
    block T of a graph whose ids are numbered block by block (T's ids run
    from its first id to the id of its control node, and S, being a
    control node, is not a node inside T's body): on a back edge
    ([T.first_id <= S.id]) the record is live at T iff the id of its
    defining node is strictly less than [T.FirstNonGapMoveId]; on a
    forward edge iff its [last_use >= T.first_id].  The test reads the
    state and changes nothing. *)
Theorem IsLiveAtTarget_spec (st : State) (p : InfoPtr) (source : NodePtr)
    (target : BlockPtr) (info : LiveNodeInfo) (n s c : NodeData) (t : BasicBlock) :
  values_ st !! p = Some info →
  node_store st !! node info = Some n →
  node_store st !! source = Some s →
  block_store st !! target = Some t →
  node_store st !! control_node t = Some c →
  first_id t ≤ id c →
  (id s < first_id t ∨ id c ≤ id s) →
  ∃ live, IsLiveAtTarget (Some p) source target st = Some (live, st, []) ∧
    (first_id t ≤ id s → (live = true ↔ id n < FirstNonGapMoveId t)) ∧
    (¬ first_id t ≤ id s → (live = true ↔ last_use info >= first_id t)).
Proof.
  intros Hp Hn Hs Ht Hc Hrange Hsrc.
  unfold IsLiveAtTarget, block_at, node_at, info_at, bind, gets, deref, ret.
  rewrite Ht, Hc, Hs. simpl.
  destruct (id c <=? id s) eqn:Hback; rewrite Hp; simpl.
  - rewrite Hn. simpl. eexists; split; [reflexivity|].
    apply Z.leb_le in Hback. split; intros Hedge.
    + rewrite Z.ltb_lt. done.
    + lia.
  - eexists; split; [reflexivity|].
    apply Z.leb_gt in Hback. split; intros Hedge.
    + lia.
    + rewrite Z.leb_le. lia.
Qed.

Lemma IsLiveAtTarget_spec_witness :
  ∃ live, IsLiveAtTarget (Some 3%nat) 15%nat 1%nat live_state = Some (live, live_state, []) ∧
    (20 ≤ 15 → (live = true ↔ 3 < 20)) ∧
    (¬ 20 ≤ 15 → (live = true ↔ 12 >= 20)).
Proof.
  apply (IsLiveAtTarget_spec live_state 3%nat 15%nat 1%nat
           (mkInfo 3%nat 12 9 None (Some 0))
           (value_node 3 12 [] (UExtended MUST_HAVE_REGISTER 0))
           (control 15 (OpJump 1%nat)) (control 25 OpReturn)
           (mkBlock [] None 25%nat None 0 false 20 20));
    [reflexivity | reflexivity | reflexivity | reflexivity | reflexivity
    | simpl; lia | simpl; lia].
Defined.

(** ** Consuming uses: [UpdateInputUseAndClearDead] *)

Lemma clear_body_run n st i x :
  register_values_ st !! i = Some x →
  (let* r := reg_at i in
   if decide (r = Some n) then set_reg i None else ret tt) st
  = Some (tt, with_register_values_ (λ rv, <[i := clear_entry n x]> rv) st, []).
Proof.
  intros Hx. rewrite (bind_run _ _ _ _ _ _ (reg_at_run _ _ _ Hx)).
  unfold clear_entry. destruct (decide (x = Some n)) as [->|Hne].
  - rewrite set_reg_run by by eapply lookup_lt_Some. done.
  - unfold ret. simpl. f_equal. f_equal. f_equal. symmetry.
    apply with_register_values_id. by apply list_insert_id.
Qed.

Lemma clear_loop_run n (l2 l1 : list (option InfoPtr)) st :
  register_values_ st = l1 ++ l2 →
  forM_ (seq (length l1) (length l2))
    (λ i, let* r := reg_at i in
          if decide (r = Some n) then set_reg i None else ret tt) st
  = Some (tt, with_register_values_ (λ _, l1 ++ (clear_entry n <$> l2)) st, []).
Proof.
  revert l1 st. induction l2 as [|x l2 IH]; intros l1 st Hrv.
  - simpl. unfold ret. f_equal. f_equal. f_equal.
    symmetry. apply with_register_values_id. by rewrite Hrv.
  - simpl.
    assert (Hx : register_values_ st !! length l1 = Some x).
    { rewrite Hrv. by rewrite list_lookup_middle. }
    rewrite (bind_run _ _ _ _ _ _ (clear_body_run n _ _ _ Hx)).
    specialize (IH (l1 ++ [clear_entry n x])
      (with_register_values_ (λ rv, <[length l1 := clear_entry n x]> rv) st)).
    rewrite length_app in IH. simpl in IH.
    replace (length l1 + 1)%nat with (S (length l1)) in IH by lia.
    rewrite IH.
    + rewrite with_register_values_twice. unfold compose.
      by rewrite <- app_assoc.
    + destruct st; simpl in *. subst.
      rewrite insert_app_r_alt by lia. rewrite Nat.sub_diag. simpl.
      by rewrite <- app_assoc.
Qed.

Lemma UpdateInputUseAndClearDead_dead_run cfg st use input nd info :
  node_store st !! input_node input = Some nd →
  live_range_end nd = use →
  values_ st !! input_node input = Some info →
  length (register_values_ st) = kAllocatableGeneralRegisterCount cfg →
  UpdateInputUseAndClearDead cfg use input st
  = Some (tt, after_last_use (input_node input) info st, []).
Proof.
  intros Hnd Hend Hinfo Hlen.
  unfold UpdateInputUseAndClearDead.
  mrun ltac:(apply gets_run). rewrite Hinfo.
  mrun ltac:(by apply node_at_run).
  rewrite Hend, Z.eqb_refl.
  unfold register_indices. rewrite <- Hlen.
  mrun ltac:(apply (clear_loop_run (input_node input) (register_values_ st) [] st eq_refl)).
  unfold after_last_use.
  destruct (stack_slot info) as [s|]; simpl.
  - destruct (0 <? index (slot s)); simpl; destruct st; reflexivity.
  - destruct st; reflexivity.
Qed.

(** A second use of a value that is already gone: nothing happens. *)
Lemma UpdateInputUseAndClearDead_absent_run cfg st use input nd :
  node_store st !! input_node input = Some nd →
  live_range_end nd = use →
  values_ st !! input_node input = None →
  UpdateInputUseAndClearDead cfg use input st = Some (tt, st, []).
Proof.
  intros Hnd Hend Hinfo.
  unfold UpdateInputUseAndClearDead.
  mrun ltac:(apply gets_run). rewrite Hinfo.
  mrun ltac:(by apply node_at_run).
  by rewrite Hend, Z.eqb_refl.
Qed.

(** [UpdateInputUseAndClearDead] never touches the node store and never
    creates a liveness record. *)
Lemma UpdateInputUseAndClearDead_node_store cfg use input :
  stable (same_on node_store) (UpdateInputUseAndClearDead cfg use input).
Proof. unfold UpdateInputUseAndClearDead, free_slots_Add. stable_tac. Qed.

Lemma update_info_no_new_values p f : stable no_new_values (update_info p f).
Proof.
  intros st [] st' t H. unfold update_info in H.
  apply bind_Some in H as (i & st1 & t1 & t2 & Hi & H & ->).
  unfold info_at, bind, gets, deref, ret in Hi.
  destruct (values_ st !! p) eqn:Hp; [|done]. unfold modify in H.
  injection Hi as -> -> _. injection H as <-.
  intros v Hv. assert (p ≠ v) by (intros ->; congruence).
  destruct st1; simpl in *. by rewrite lookup_insert_ne.
Qed.

Lemma UpdateInputUseAndClearDead_no_new_values cfg use input :
  stable no_new_values (UpdateInputUseAndClearDead cfg use input).
Proof.
  unfold UpdateInputUseAndClearDead, free_slots_Add.
  stable_with ltac:(first [ by intros [] ? | apply update_info_no_new_values ]).
  intros [] v Hv; simpl in *.
  destruct (decide (input_node input = v)) as [->|Hne].
  - apply lookup_delete_eq.
  - by rewrite lookup_delete_ne.
Qed.

(** C10.  Let a value [v] be live, with its live range ending at [use],
    and let a node with id [use] have [v] more than once among its
    inputs.  The first call of [UpdateInputUseAndClearDead] for [v]
    returns, removes [v]'s record from [values_], clears every register
    holding it and hands its slot to the free-list (when the index is
    positive); after that, whatever other inputs are consumed in between,
    every later call for [v] returns with the state unchanged: register
    file, free-list and [values_] are not touched again. *)
Theorem UpdateInputUseAndClearDead_duplicate_input (cfg : Config) (st : State) (use : Z)
    (input : Input) (nd : NodeData) (info : LiveNodeInfo) :
  node_store st !! input_node input = Some nd →
  live_range_end nd = use →
  values_ st !! input_node input = Some info →
  length (register_values_ st) = kAllocatableGeneralRegisterCount cfg →
  ∃ st1,
    UpdateInputUseAndClearDead cfg use input st = Some (tt, st1, []) ∧
    values_ st1 = delete (input_node input) (values_ st) ∧
    register_values_ st1 = clear_entry (input_node input) <$> register_values_ st ∧
    (∀ i, register_values_ st1 !! i ≠ Some (Some (input_node input))) ∧
    free_slots_ st1 =
      free_slots_ st ++
      match stack_slot info with
      | Some s => if 0 <? index (slot s) then [s] else []
      | None => []
      end ∧
    ∀ others st2 t again,
      forM_ others (UpdateInputUseAndClearDead cfg use) st1 = Some (tt, st2, t) →
      input_node again = input_node input →
      UpdateInputUseAndClearDead cfg use again st2 = Some (tt, st2, []).
Proof.
  intros Hnd Hend Hinfo Hlen.
  exists (after_last_use (input_node input) info st).
  split; [by eapply UpdateInputUseAndClearDead_dead_run|].
  split; [by destruct st|].
  split; [by destruct st|].
  split.
  { intros i Hi. destruct st; simpl in Hi.
    rewrite list_lookup_fmap in Hi.
    destruct (register_values_0 !! i) as [r|]; simpl in Hi; [|done].
    unfold clear_entry in Hi. destruct (decide (r = Some (input_node input))); congruence. }
  split.
  { destruct st; simpl. destruct (stack_slot info) as [s|]; simpl.
    - destruct (0 <? index (slot s)); [done|by rewrite app_nil_r].
    - by rewrite app_nil_r. }
  intros others st2 t again Hothers Hagain.
  pose proof Hothers as E1.
  apply (stable_forM_ (same_on node_store)) in E1;
    [|intros ? _; apply UpdateInputUseAndClearDead_node_store].
  apply (stable_forM_ no_new_values) in Hothers;
    [|intros ? _; apply UpdateInputUseAndClearDead_no_new_values].
  unfold same_on in E1.
  apply UpdateInputUseAndClearDead_absent_run with (nd := nd).
  - rewrite Hagain, E1. by destruct st.
  - done.
  - rewrite Hagain. apply Hothers. destruct st; simpl. apply lookup_delete_eq.
Qed.

Lemma UpdateInputUseAndClearDead_duplicate_input_witness :
  ∃ st1,
    UpdateInputUseAndClearDead cfg4 3 (use_of 1%nat 0) spilled_state = Some (tt, st1, []) ∧
    values_ st1 = delete 1%nat (values_ spilled_state) ∧
    register_values_ st1 = clear_entry 1%nat <$> register_values_ spilled_state ∧
    (∀ i, register_values_ st1 !! i ≠ Some (Some 1%nat)) ∧
    free_slots_ st1 =
      free_slots_ spilled_state ++
      match stack_slot (mkInfo 1%nat 3 3 (Some (NewStackSlot kTagged 0)) None) with
      | Some s => if 0 <? index (slot s) then [s] else []
      | None => []
      end ∧
    ∀ others st2 t again,
      forM_ others (UpdateInputUseAndClearDead cfg4 3) st1 = Some (tt, st2, t) →
      input_node again = 1%nat →
      UpdateInputUseAndClearDead cfg4 3 again st2 = Some (tt, st2, []).
Proof.
  apply (UpdateInputUseAndClearDead_duplicate_input cfg4 spilled_state 3 (use_of 1%nat 0)
           (mkNode 1 OpValueNode false false [] 0 ∅ 3 3
              (Unallocated (UExtended MUST_HAVE_REGISTER 0)) None None)
           (mkInfo 1%nat 3 3 (Some (NewStackSlot kTagged 0)) None));
    reflexivity.
Defined.

(** ** Spilling *)

Lemma info_with_stack_slot_id i s :
  stack_slot i = Some s → info_with_stack_slot (Some s) i = i.
Proof. destruct i; simpl. by intros ->. Qed.

Lemma Spill_wp cfg p i st :
  values_ st !! p = Some i →
  is_Some (node_store st !! node i) →
  wp (Spill cfg p) (λ _ st', spilled p i st st') st.
Proof.
  intros Hp [nd Hnd]. unfold Spill.
  wp_run. destruct (stack_slot i) as [s|] eqn:Hslot.
  - wp_run. exists s. rewrite info_with_stack_slot_id by done.
    rewrite insert_id by done. split_and!; try done. intros s0 ?. congruence.
  - unfold AllocateSpillSlot, free_slots_first, free_slots_DropHead, node_Spill.
    wp_run.
    assert (Hdom : ∀ (nd' : NodeData) q,
      is_Some (<[node i := nd']> (node_store st) !! q) ↔ is_Some (node_store st !! q)).
    { intros nd' q. destruct (decide (node i = q)) as [<-|].
      - rewrite lookup_insert_eq, Hnd. by split.
      - by rewrite lookup_insert_ne. }
    destruct (head (free_slots_ st)) as [s|] eqn:Hhead.
    + wp_run. rewrite lookup_insert_eq. wp_run.
      destruct (FLAG_trace_maglev_regalloc cfg); wp_run.
      all: eexists; split_and!; try done; [intros s0 ?; congruence|apply Hdom].
    + wp_run. rewrite lookup_insert_eq. wp_run.
      destruct (FLAG_trace_maglev_regalloc cfg); wp_run.
      all: eexists; split_and!; try done; [intros s0 ?; congruence|apply Hdom].
Qed.

(** ** The register index map *)

Lemma MapRegisterToIndex_Some cfg r i :
  MapRegisterToIndex cfg r = Some i →
  MapIndexToRegister cfg i = Some r ∧ (i < kAllocatableGeneralRegisterCount cfg)%nat.
Proof.
  unfold MapRegisterToIndex, MapIndexToRegister, kAllocatableGeneralRegisterCount.
  intros H. destruct (list_find _ _) as [[j x]|] eqn:Hfind; simplify_eq/=.
  apply list_find_Some in Hfind as (Hj & -> & _).
  split; [done|]. by eapply lookup_lt_Some.
Qed.

Lemma MapIndexToRegister_Some cfg r i :
  NoDup (allocatable cfg) →
  MapIndexToRegister cfg i = Some r → MapRegisterToIndex cfg r = Some i.
Proof.
  unfold MapRegisterToIndex, MapIndexToRegister. intros Hnd Hi.
  destruct (list_find (λ v, v = r) (allocatable cfg)) as [[j x]|] eqn:Hfind.
  - apply list_find_Some in Hfind as (Hj & -> & _). simpl. f_equal.
    by eapply NoDup_lookup.
  - apply list_find_None in Hfind. rewrite Forall_forall in Hfind.
    exfalso. eapply Hfind; [|done]. apply list_elem_of_lookup. eauto.
Qed.

Lemma MapIndexToRegister_lt cfg i :
  (i < kAllocatableGeneralRegisterCount cfg)%nat → is_Some (MapIndexToRegister cfg i).
Proof. apply lookup_lt_is_Some_2. Qed.

Lemma elem_of_register_indices cfg i :
  i ∈ register_indices cfg ↔ (i < kAllocatableGeneralRegisterCount cfg)%nat.
Proof. unfold register_indices. rewrite elem_of_seq. lia. Qed.

(** ** Freeing a register without moving its occupant *)



(** ** Allocating a register when none is empty *)






Lemma regs4_NoDup : NoDup (allocatable cfg4).
Proof. refine (bool_decide_unpack _ _). vm_compute. exact I. Qed.


Lemma full_state_full : registers_full cfg4 full_state.
Proof.
  intros [|[|[|[|j]]]] Hj; try (eexists; reflexivity).
  unfold kAllocatableGeneralRegisterCount in Hj. simpl in Hj. lia.
Qed.


(** In [full_state] the value evicted is the one in R1 (next use 7). *)
Example AllocateRegister_full_state :
  ∃ st' t, AllocateRegister cfg4 5%nat full_state = Some (RegisterOperand 1, st', t) ∧
    register_values_ st' = [Some 1%nat; Some 5%nat; Some 3%nat; Some 4%nat] ∧
    values_ st' !! 2%nat = Some (mkInfo 2%nat 10 7 (Some (NewStackSlot kTagged 0)) None).
Proof. vm_compute. eexists _, _. split_and!; reflexivity. Qed.

(** ** Two slips of the code *)

(** C2.  A value whose record holds the local stack slot 0 dies (the use
    by node 3 is its last): its record is destroyed, but the slot is not
    returned to the free-list, because the source tests [index() > 0]
    where local slots start at index 0. *)
Theorem UpdateInputUseAndClearDead_slot_zero_not_freed :
  ∃ st',
    UpdateInputUseAndClearDead cfg4 3 (use_of 1%nat 0) spilled_state = Some (tt, st', []) ∧
    values_ st' !! 1%nat = None ∧
    free_slots_ st' = [].
Proof. vm_compute. eexists. split_and!; reflexivity. Qed.

(** [spilled_state] arises in [spill_graph]: at the end of the run slot 0
    has been allocated, its value is dead, and the free-list is empty. *)
Example spill_graph_run :
  ∃ st' t,
    AllocateRegisters cfg4 [0%nat] spill_graph = Some (tt, st', t) ∧
    spill_slot <$> node_store st' !! 1%nat
      = Some (Some (mkAllocated STACK_SLOT kTagged 0)) ∧
    values_ st' = ∅ ∧
    top_of_stack_ st' = 1 ∧
    free_slots_ st' = [].
Proof. vm_compute. eexists _, _. split_and!; reflexivity. Qed.

(** A slot with a positive index is returned. *)
Example UpdateInputUseAndClearDead_slot_one_freed :
  ∃ st',
    UpdateInputUseAndClearDead cfg4 3 (use_of 1%nat 0)
      (with_values_ (λ _, {[ 1%nat := mkInfo 1%nat 3 3 (Some (NewStackSlot kTagged 1)) None ]})
         spilled_state)
    = Some (tt, st', []) ∧
    values_ st' !! 1%nat = None ∧
    free_slots_ st' = [NewStackSlot kTagged 1].
Proof. vm_compute. eexists. split_and!; reflexivity. Qed.

(** C3.  All four registers are occupied and node 5 needs two
    temporaries: [AssignTemporaries] hands it a single register, R1, and
    frees only that one.  The second round of the eviction loop starts
    from the [furthest_use] and [longest] of the first, finds no
    occupant with a greater next use, and frees R1 again. *)
Theorem AssignTemporaries_two_of_full :
  ∃ st' t,
    AllocateRegisters cfg4 [0%nat] temporaries_graph = Some (tt, st', t) ∧
    (elements ∘ temporaries) <$> node_store st' !! 5%nat = Some [1] ∧
    register_values_ st' = [Some 1%nat; None; Some 3%nat; Some 4%nat].
Proof. vm_compute. eexists _, _. split_and!; reflexivity. Qed.

Example GetFreeRegisters_two_of_full :
  ∃ l st' t,
    GetFreeRegisters cfg4 2 full_state = Some (l, st', t) ∧
    elements l = [1] ∧
    register_values_ st' = [Some 1%nat; None; Some 3%nat; Some 4%nat].
Proof. vm_compute. eexists _, _, _. split_and!; reflexivity. Qed.

(** ** Merging into an initialized branch target *)

Global Instance merge_rel_preorder target J : PreOrder (merge_rel target J).
Proof.
  split.
  - intros s. split_and!; try done. intros T HT.
    exists T. split_and!; [done|by destruct T|]. intros ms Hms. by exists ms.
  - intros s1 s2 s3 (E1 & E2 & E3 & H12) (E1' & E2' & E3' & H23).
    split_and!; try congruence. intros T HT.
    destruct (H12 T HT) as (T2 & HT2 & HS2 & Hk2).
    destruct (H23 _ HT2) as (T3 & HT3 & HS3 & Hk3).
    exists T3. split_and!; [done|rewrite HS3, HS2; by destruct T|].
    intros ms Hms.
    destruct (Hk2 ms Hms) as (ms2 & Hms2 & Hpc2 & Hrs2).
    destruct (Hk3 ms2 Hms2) as (ms3 & Hms3 & Hpc3 & Hrs3).
    exists ms3. split_and!; [done|congruence|].
    intros k Hk. rewrite Hrs3 by done. by apply Hrs2.
Qed.

Lemma merge_rel_mono target (J J' : nat → Prop) s s' :
  (∀ k, J k → J' k) → merge_rel target J s s' → merge_rel target J' s s'.
Proof.
  intros HJ (E1 & E2 & E3 & H). split_and!; try done.
  intros T HT. destruct (H T HT) as (T' & HT' & HS & Hk).
  exists T'. split_and!; try done. intros ms Hms.
  destruct (Hk ms Hms) as (ms' & ? & ? & Hrs). exists ms'. split_and!; try done.
  intros k Hk'. apply Hrs. naive_solver.
Qed.

Lemma set_target_state_merge_rel target j v :
  stable (merge_rel target (eq j)) (set_target_state target j v).
Proof.
  intros st [] st' t H. unfold set_target_state in H.
  apply bind_Some in H as (T & st1 & t1 & t2 & HT & H & ->).
  unfold block_at, bind, gets, deref, ret in HT.
  destruct (block_store st !! target) as [T0|] eqn:HT0; simplify_eq/=.
  apply bind_Some in H as (ms & st2 & t1 & t2' & Hms & H & ->).
  destruct (state T) as [ms0|] eqn:Hms0; simplify_eq/=.
  unfold ret in Hms. simplify_eq.
  apply bind_Some in H as (e & st3 & t1 & t3 & He & H & ->).
  destruct (register_state ms !! j) as [e0|] eqn:He0; simplify_eq/=.
  unfold ret in He. simplify_eq.
  unfold update_block, block_at, bind, gets, deref, ret, modify in H.
  rewrite HT0 in H. simplify_eq/=.
  split_and!; try done. intros T' HT'. simplify_eq.
  eexists. split_and!; [apply lookup_insert_eq|done|].
  intros ms' Hms'. simplify_eq. eexists. split_and!; [done|done|].
  intros k Hk. simpl. by rewrite list_lookup_insert_ne.
Qed.

Global Hint Resolve set_target_state_merge_rel : stable_db.

Lemma MergeRegisterValues_step_merge_rel cfg control target pred pc j :
  stable (merge_rel target (eq j)) (MergeRegisterValues_step cfg control target pred pc j).
Proof.
  unfold MergeRegisterValues_step, target_register_state, set_operand, EnsureInRegister.
  stable_tac.
Qed.

(** The liveness test reads the records, the nodes and the static part
    of the target block only. *)
Lemma IsLiveAtTarget_frame info source target st st' J b :
  merge_rel target J st st' →
  IsLiveAtTarget info source target st = Some (b, st, []) →
  IsLiveAtTarget info source target st' = Some (b, st', []).
Proof.
  intros (E1 & E2 & E3 & H) Hlive. unfold IsLiveAtTarget in *.
  destruct info as [p|]; [|unfold ret in *; by simplify_eq].
  apply bind_Some in Hlive as (T & s1 & t1 & t2 & HT & Hlive & Ht).
  unfold block_at, bind, gets, deref, ret in HT.
  destruct (block_store st !! target) as [T0|] eqn:HT0; simplify_eq/=.
  destruct (H T eq_refl) as (T' & HT' & HS & _).
  mrun ltac:(by apply block_at_run).
  rewrite HS. simpl.
  apply bind_Some in Hlive as (c & s2 & t3 & t4 & Hc & Hlive & ->).
  unfold node_at, bind, gets, deref, ret in Hc.
  destruct (node_store s1 !! control_node T) as [c0|] eqn:Hc0; simplify_eq/=.
  mrun ltac:(apply node_at_run; by rewrite E3).
  apply bind_Some in Hlive as (s & s3 & t3 & t5 & Hs & Hlive & ->).
  unfold node_at, bind, gets, deref, ret in Hs.
  destruct (node_store s2 !! source) as [s0|] eqn:Hs0; simplify_eq/=.
  mrun ltac:(apply node_at_run; by rewrite E3).
  destruct (id c <=? id s).
  - apply bind_Some in Hlive as (i & s4 & t3 & t6 & Hi & Hlive & ->).
    unfold info_at, bind, gets, deref, ret in Hi.
    destruct (values_ s3 !! p) as [i0|] eqn:Hi0; simplify_eq/=.
    mrun ltac:(apply info_at_run; by rewrite E1).
    apply bind_Some in Hlive as (n & s5 & t3 & t7 & Hn & Hlive & ->).
    unfold node_at, bind, gets, deref, ret in Hn.
    destruct (node_store s4 !! node i) as [n0|] eqn:Hn0; simplify_eq/=.
    mrun ltac:(apply node_at_run; by rewrite E3).
    unfold ret in *. by simplify_eq.
  - apply bind_Some in Hlive as (i & s4 & t3 & t6 & Hi & Hlive & ->).
    unfold info_at, bind, gets, deref, ret in Hi.
    destruct (values_ s3 !! p) as [i0|] eqn:Hi0; simplify_eq/=.
    mrun ltac:(apply info_at_run; by rewrite E1).
    unfold ret in *. by simplify_eq.
Qed.

Lemma merge_rel_entry target J st st' i :
  merge_rel target J st st' → ¬ J i →
  is_Some (merge_entry st target i) →
  merge_entry st' target i = merge_entry st target i.
Proof.
  intros (_ & _ & _ & H) Hi [e He]. unfold merge_entry in *.
  destruct (block_store st !! target) as [T|] eqn:HT; simplify_eq/=.
  destruct (state T) as [ms|] eqn:Hms; simplify_eq/=.
  destruct (H T eq_refl) as (T' & -> & _ & Hk). simpl.
  destruct (Hk ms Hms) as (ms' & -> & _ & Hrs). simpl. by apply Hrs.
Qed.

(** What one round of the loop does to an entry without a record. *)
Lemma MergeRegisterValues_step_uninitialized cfg control target pred pc i X info e ri st :
  merge_entry st target i = Some e →
  GetPointer e = PNull →
  is_merge (GetPayload e) = false →
  MapIndexToRegister cfg i = Some ri →
  register_values_ st !! i = Some (Some X) →
  values_ st !! X = Some info →
  IsLiveAtTarget (Some X) control target st = Some (true, st, []) →
  wlp (MergeRegisterValues_step cfg control target pred pc i)
    (λ _ st',
       merge_entry st' target i =
         Some match stack_slot info with
              | None => e
              | Some ss =>
                  mkRegisterState
                    (PMerge (mkMerge X (<[pred := RegisterOperand ri]>
                                          (replicate pc (slot ss)))))
                    initialized_merge
              end) st.
Proof.
  intros He Hptr Hflag Hri Hrv Hinfo Hlive.
  unfold merge_entry in He.
  destruct (block_store st !! target) as [T|] eqn:HT; [|done]. simpl in He.
  destruct (state T) as [ms|] eqn:Hms; [|done]. simpl in He.
  unfold MergeRegisterValues_step, target_register_state.
  wlp_run. simplify_eq.
  match goal with H : LoadMergeState _ = Some _ |- _ =>
    unfold LoadMergeState, LoadMergeState1 in H; rewrite Hflag, Hptr in H;
    injection H as <- end.
  cbn [fst snd].
  intros live st1 t1 E. rewrite Hlive in E. simplify_eq.
  cbv beta. destruct (decide (Some X = None)) as [|_]; [done|].
  wlp_run; simplify_eq.
  - (* the incoming value has a slot *)
    unfold set_operand, set_target_state. wlp_run. simplify_eq.
    unfold merge_entry. st_simpl. rewrite lookup_insert_eq. simpl.
    rewrite list_lookup_insert_eq by by eapply lookup_lt_Some.
    by rewrite Heqo.
  - (* the incoming value is not spilled *)
    unfold EnsureInRegister. wlp_run.
    unfold merge_entry. rewrite HT; simpl. rewrite Hms; simpl.
    by rewrite Heqo.
Qed.

(** C1, as the code has it.  Let T be already initialized, let entry [i]
    of its merge state hold no record, and let the incoming register file
    hold at [i] a record X that is live at T.  After
    [MergeRegisterValues]: if X has no stack slot, entry [i] is as it was
    (X is expected in another entry); if X has a stack slot, entry [i] is
    a RegisterMerge with canonical record X whose operands are X's slot
    for every predecessor but this one, for which it is register [i]. *)
Theorem MergeRegisterValues_uninitialized_entry (cfg : Config) (st st' : State)
    (control : NodePtr) (target : BlockPtr) (pred i : nat) (X : InfoPtr)
    (info : LiveNodeInfo) (T : BasicBlock) (ms : MergePointState)
    (e0 e : RegisterState) (ri : Register) (t : list TraceEvent) :
  MergeRegisterValues cfg control target pred st = Some (tt, st', t) →
  block_store st !! target = Some T →
  state T = Some ms →
  register_state ms !! 0%nat = Some e0 →
  is_initialized (GetPayload e0) = true →
  register_state ms !! i = Some e →
  GetPointer e = PNull →
  is_merge (GetPayload e) = false →
  MapIndexToRegister cfg i = Some ri →
  register_values_ st !! i = Some (Some X) →
  values_ st !! X = Some info →
  IsLiveAtTarget (Some X) control target st = Some (true, st, []) →
  merge_entry st' target i =
    Some match stack_slot info with
         | None => e
         | Some ss =>
             mkRegisterState
               (PMerge (mkMerge X (<[pred := RegisterOperand ri]>
                                     (replicate (predecessor_count ms) (slot ss)))))
               initialized_merge
         end.
Proof.
  intros Hrun HT Hms He0 Hinit He Hptr Hflag Hri Hrv Hinfo Hlive.
  assert (Hi : (i < kAllocatableGeneralRegisterCount cfg)%nat).
  { by eapply lookup_lt_Some. }
  assert (Hentry : merge_entry st target i = Some e).
  { unfold merge_entry. rewrite HT. simpl. rewrite Hms. done. }
  revert Hrun. revert st' t.
  cut (wlp (MergeRegisterValues cfg control target pred)
         (λ _ st', merge_entry st' target i =
            Some match stack_slot info with
                 | None => e
                 | Some ss =>
                     mkRegisterState
                       (PMerge (mkMerge X (<[pred := RegisterOperand ri]>
                          (replicate (predecessor_count ms) (slot ss)))))
                       initialized_merge
                 end) st).
  { intros H st' t Hrun. by eapply H. }
  unfold MergeRegisterValues, target_register_state.
  wlp_run; simplify_eq.
  { rewrite Hinit in *. done. }
  intros [] st' t Hloop.
  unfold register_indices in Hloop. rewrite (seq_split_at _ i Hi) in Hloop.
  apply forM__app_Some in Hloop as (s1 & t1 & t2 & Hpre & Hloop & ->).
  simpl in Hloop.
  apply bind_Some in Hloop as ([] & s2 & t3 & t4 & Hstep & Hpost & ->).
  set (J := λ k : nat, k ≠ i).
  assert (Hmono : ∀ l, (∀ j, j ∈ l → j ≠ i) →
    stable (merge_rel target J)
      (forM_ l (MergeRegisterValues_step cfg control target pred (predecessor_count ms)))).
  { intros l Hl. apply stable_forM_; [apply _|]. intros j Hj a b c d Hrun.
    eapply merge_rel_mono; [|by eapply MergeRegisterValues_step_merge_rel].
    intros k <-. by apply Hl. }
  assert (HJ : ¬ J i) by (unfold J; naive_solver).
  apply Hmono in Hpre; [|intros j Hj%elem_of_seq; lia].
  apply Hmono in Hpost; [|intros j Hj%elem_of_seq; lia].
  pose proof Hpre as (E1 & E2 & E3 & _).
  rewrite (merge_rel_entry _ _ _ _ _ Hpost HJ).
  - eapply (MergeRegisterValues_step_uninitialized cfg control target pred _ i X info e ri s1);
      try done.
    + by rewrite (merge_rel_entry _ _ _ _ _ Hpre HJ).
    + by rewrite E2.
    + by rewrite E1.
    + by eapply IsLiveAtTarget_frame.
  - eexists.
    eapply (MergeRegisterValues_step_uninitialized cfg control target pred _ i X info e ri s1);
      try done.
    + by rewrite (merge_rel_entry _ _ _ _ _ Hpre HJ).
    + by rewrite E2.
    + by rewrite E1.
    + by eapply IsLiveAtTarget_frame.
Qed.

Lemma MergeRegisterValues_uninitialized_entry_witness :
  merge_entry merge_state_spilled_after 2%nat 1%nat =
    Some match stack_slot (mkInfo 7%nat 25 22 (Some (NewStackSlot kTagged 0)) (Some 1)) with
         | None => mkRegisterState PNull initialized_node
         | Some ss =>
             mkRegisterState
               (PMerge (mkMerge 7%nat (<[1%nat := RegisterOperand 1]>
                  (replicate
                     (predecessor_count
                        (mkMergePoint 2
                           [ mkRegisterState (PNode 7%nat) initialized_node;
                             mkRegisterState PNull initialized_node;
                             mkRegisterState PNull initialized_node;
                             mkRegisterState PNull initialized_node ]))
                     (slot ss)))))
               initialized_merge
         end.
Proof.
  apply (MergeRegisterValues_uninitialized_entry cfg4 merge_state_spilled
           merge_state_spilled_after 15%nat 2%nat 1%nat 1%nat 7%nat
           (mkInfo 7%nat 25 22 (Some (NewStackSlot kTagged 0)) (Some 1))
           (merge_block
              [ mkRegisterState (PNode 7%nat) initialized_node;
                mkRegisterState PNull initialized_node;
                mkRegisterState PNull initialized_node;
                mkRegisterState PNull initialized_node ])
           (mkMergePoint 2
              [ mkRegisterState (PNode 7%nat) initialized_node;
                mkRegisterState PNull initialized_node;
                mkRegisterState PNull initialized_node;
                mkRegisterState PNull initialized_node ])
           (mkRegisterState (PNode 7%nat) initialized_node)
           (mkRegisterState PNull initialized_node) 1 []);
    vm_compute; reflexivity.
Defined.

(** C1 as stated fails: block 2 is initialized, its entry 1 holds no
    record, the incoming register file holds the live value 7 in R1, and
    after the merge entry 1 still holds no record (the merge happens in
    entry 0, where the first predecessor had the value). *)
Lemma MergeRegisterValues_uninitialized_not_single_node :
  ∃ st' t,
    MergeRegisterValues cfg4 15%nat 2%nat 1%nat merge_state = Some (tt, st', t) ∧
    merge_entry merge_state 2%nat 0%nat
      = Some (mkRegisterState (PNode 7%nat) initialized_node) ∧
    merge_entry merge_state 2%nat 1%nat = Some (mkRegisterState PNull initialized_node) ∧
    register_values_ merge_state !! 1%nat = Some (Some 7%nat) ∧
    IsLiveAtTarget (Some 7%nat) 15%nat 2%nat merge_state = Some (true, merge_state, []) ∧
    merge_entry st' 2%nat 1%nat = Some (mkRegisterState PNull initialized_node) ∧
    merge_entry st' 2%nat 1%nat ≠ Some (mkRegisterState (PNode 7%nat) initialized_node).
Proof.
  vm_compute. eexists _, _. split_and!; try reflexivity. discriminate.
Qed.

(** With a spilled incoming value the entry becomes a RegisterMerge, not
    a single node either. *)
Example MergeRegisterValues_uninitialized_spilled :
  ∃ st' t,
    MergeRegisterValues cfg4 15%nat 2%nat 1%nat merge_state_spilled = Some (tt, st', t) ∧
    merge_entry st' 2%nat 1%nat
      = Some (mkRegisterState
                (PMerge (mkMerge 7%nat [mkAllocated STACK_SLOT kTagged 0; RegisterOperand 1]))
                initialized_merge) ∧
    merge_entry st' 2%nat 0%nat
      = Some (mkRegisterState
                (PMerge (mkMerge 7%nat [RegisterOperand 0; RegisterOperand 1]))
                initialized_merge).
Proof. vm_compute. eexists _, _. split_and!; reflexivity. Qed.

(** ** The register file and the liveness records agree *)

Lemma alloc_inv_view cfg st st' :
  alloc_view st' = alloc_view st → alloc_inv cfg st → alloc_inv cfg st'.
Proof. unfold alloc_inv, alloc_view. by intros [= -> ->]. Qed.

(** Changing one record and the register file, keeping the entries of
    the other bound records. *)
Lemma inv_on_update cfg vals rv rv' p i i' :
  inv_on cfg vals rv →
  vals !! p = Some i →
  node i' = node i →
  (∀ r, reg i' = Some r →
     ∃ j, MapRegisterToIndex cfg r = Some j ∧ rv' !! j = Some (Some p)) →
  (∀ j q, q ≠ p → rv !! j = Some (Some q) → rv' !! j = Some (Some q)) →
  inv_on cfg (<[p := i']> vals) rv'.
Proof.
  intros [Hb Hn] Hp Hnode Hreg Hkeep. split.
  - intros q iq r Hq Hr. destruct (decide (p = q)) as [<-|Hne].
    + rewrite lookup_insert_eq in Hq. simplify_eq. by apply Hreg.
    + rewrite lookup_insert_ne in Hq by done.
      destruct (Hb q iq r Hq Hr) as (j & Hj & Hrv). exists j. split; [done|].
      apply Hkeep; [congruence|done].
  - intros q iq Hq. destruct (decide (p = q)) as [<-|Hne].
    + rewrite lookup_insert_eq in Hq. simplify_eq. rewrite Hnode. by eapply Hn.
    + rewrite lookup_insert_ne in Hq by done. by eapply Hn.
Qed.

(** Clearing an entry whose record is not bound to that register. *)
Lemma inv_on_clear cfg vals rv index r :
  inv_on cfg vals rv →
  MapRegisterToIndex cfg r = Some index →
  (∀ p i, rv !! index = Some (Some p) → vals !! p = Some i → reg i ≠ Some r) →
  inv_on cfg vals (<[index := None]> rv).
Proof.
  intros [Hb Hn] Hindex Hfree. split; [|done].
  intros q iq r' Hq Hr'. destruct (Hb q iq r' Hq Hr') as (j & Hj & Hrv).
  exists j. split; [done|]. destruct (decide (index = j)) as [<-|Hne].
  - exfalso. apply MapRegisterToIndex_Some in Hj as [Hj _].
    apply MapRegisterToIndex_Some in Hindex as [Hindex _].
    eapply Hfree; [done|done|]. congruence.
  - by rewrite list_lookup_insert_ne.
Qed.

Lemma inv_on_stack_slot cfg vals rv p i s :
  inv_on cfg vals rv → vals !! p = Some i →
  inv_on cfg (<[p := info_with_stack_slot s i]> vals) rv.
Proof.
  intros Hinv Hp. eapply inv_on_update; try done.
  intros r Hr. destruct Hinv as [Hb _]. by eapply Hb.
Qed.

Lemma inv_on_next_use cfg vals rv p i u :
  inv_on cfg vals rv → vals !! p = Some i →
  inv_on cfg (<[p := info_with_next_use u i]> vals) rv.
Proof.
  intros Hinv Hp. eapply inv_on_update; try done.
  intros r Hr. destruct Hinv as [Hb _]. by eapply Hb.
Qed.

(** Unbinding a record and clearing the entry that holds it. *)
Lemma inv_on_unbind cfg vals rv p i index :
  inv_on cfg vals rv → vals !! p = Some i →
  rv !! index = Some (Some p) →
  inv_on cfg (<[p := info_with_reg None i]> vals) (<[index := None]> rv).
Proof.
  intros Hinv Hp Hrv. eapply inv_on_update; try done.
  intros j q Hne Hq. destruct (decide (index = j)) as [<-|].
  - congruence.
  - by rewrite list_lookup_insert_ne.
Qed.

(** Binding a record to a register whose entry is empty or already holds
    it. *)
Lemma inv_on_bind cfg vals rv p i r j :
  inv_on cfg vals rv → vals !! p = Some i →
  MapRegisterToIndex cfg r = Some j →
  (rv !! j = Some None ∨ rv !! j = Some (Some p)) →
  inv_on cfg (<[p := info_with_reg (Some r) i]> vals) (<[j := Some p]> rv).
Proof.
  intros Hinv Hp Hj Hrv.
  assert (j < length rv)%nat by (destruct Hrv; by eapply lookup_lt_Some).
  eapply inv_on_update; try done.
  - simpl. intros r' [= <-]. exists j. split; [done|].
    by apply list_lookup_insert_eq.
  - intros k q Hne Hq. destruct (decide (j = k)) as [<-|].
    + destruct Hrv; congruence.
    + by rewrite list_lookup_insert_ne.
Qed.

(** The decorations of nodes and blocks do not touch the two tables. *)
Lemma input_SetAllocated_view n k a : stable (same_on alloc_view) (input_SetAllocated n k a).
Proof. unfold input_SetAllocated. stable_tac. Qed.

Lemma result_SetAllocated_view n a : stable (same_on alloc_view) (result_SetAllocated n a).
Proof. unfold result_SetAllocated. stable_tac. Qed.

Lemma SetNoSpillOrHint_view n : stable (same_on alloc_view) (SetNoSpillOrHint n).
Proof. unfold SetNoSpillOrHint. stable_tac. Qed.

Lemma node_Spill_view n s : stable (same_on alloc_view) (node_Spill n s).
Proof. unfold node_Spill. stable_tac. Qed.

Lemma assign_temporaries_view n l : stable (same_on alloc_view) (assign_temporaries n l).
Proof. unfold assign_temporaries. stable_tac. Qed.

Lemma AddMoveBeforeCurrentNode_view s t :
  stable (same_on alloc_view) (AddMoveBeforeCurrentNode s t).
Proof. unfold AddMoveBeforeCurrentNode. stable_tac. Qed.

Global Hint Resolve input_SetAllocated_view result_SetAllocated_view SetNoSpillOrHint_view
  node_Spill_view assign_temporaries_view AddMoveBeforeCurrentNode_view : stable_db.

(** A step that leaves the two tables alone keeps the invariant. *)
Lemma wlp_view cfg {A} (m : M A) st :
  stable (same_on alloc_view) m → alloc_inv cfg st → wlp m (λ _, alloc_inv cfg) st.
Proof. intros Hm Hinv a st' t E. eapply alloc_inv_view; [by eapply Hm|done]. Qed.

(** Skip the first action when it does not touch the two tables. *)
Ltac wlp_skip :=
  wlp_open; eapply wlp_mono; [eapply wlp_view; [stable_tac|eassumption]|cbv beta].

(** Close a goal [alloc_inv cfg st'] where [st'] has the tables of a state
    known to satisfy the invariant, or skip what remains of the program
    when it does not touch the tables. *)
Ltac inv_done :=
  first [ done
        | unfold alloc_inv in *; st_simpl; done
        | wlp_stable_rest (same_on alloc_view);
          let Hv := fresh in
          intros ? ? Hv; eapply alloc_inv_view;
          [exact Hv|first [done|unfold alloc_inv in *; st_simpl; done]] ].

Section Invariant.
Context (cfg : Config) (Hnodup : NoDup (allocatable cfg)).

Lemma Spill_inv p st :
  alloc_inv cfg st →
  wlp (Spill cfg p)
    (λ _ st', alloc_inv cfg st' ∧ register_values_ st' = register_values_ st) st.
Proof.
  intros Hinv. unfold Spill, AllocateSpillSlot, free_slots_first, free_slots_DropHead,
    node_Spill.
  wlp_run; try done.
  all: unfold alloc_inv; st_simpl; split; [|done].
  all: by apply inv_on_stack_slot.
Qed.

Lemma Free_find_move_wlp skip n l index st :
  match index with
  | Some j => register_values_ st !! j = Some None ∧ j ≠ skip
  | None => True
  end →
  wlp (Free_find_move skip n l index)
    (λ res st', st' = st ∧
       match res with
       | inl j => ∃ q qi, register_values_ st !! j = Some (Some q) ∧
                          values_ st !! q = Some qi ∧ node qi = n
       | inr (Some j) => register_values_ st !! j = Some None ∧ j ≠ skip
       | inr None => True
       end) st.
Proof.
  revert index. induction l as [|i l IH]; intros index Hindex; simpl.
  - wlp_run. done.
  - wlp_run; subst.
    all: try (apply IH; done).
    all: try (split; [done|]; eauto).
Qed.

Lemma Free_find_existing_wlp p l st :
  wlp (Free_find_existing p l)
    (λ res st', st' = st ∧ ∀ j, res = Some j → register_values_ st !! j = Some (Some p)) st.
Proof.
  induction l as [|i l IH]; simpl.
  - wlp_run. done.
  - wlp_run; subst; [|done]. split; [done|]. by intros j [= <-].
Qed.

Lemma first_empty_register_wlp l st :
  wlp (first_empty_register l)
    (λ res st', st' = st ∧ ∀ j, res = Some j → register_values_ st !! j = Some None) st.
Proof.
  induction l as [|i l IH]; simpl.
  - wlp_run. done.
  - wlp_run; subst; [done|]. split; [done|]. by intros j [= <-].
Qed.

Lemma SetRegister_inv r p j st :
  alloc_inv cfg st →
  MapRegisterToIndex cfg r = Some j →
  (register_values_ st !! j = Some None ∨ register_values_ st !! j = Some (Some p)) →
  wlp (SetRegister cfg r p)
    (λ _ st', alloc_inv cfg st' ∧
              register_values_ st' = <[j := Some p]> (register_values_ st)) st.
Proof.
  intros Hinv Hj Hrv. unfold SetRegister. wlp_run. simplify_eq.
  split; [|done]. unfold alloc_inv. st_simpl. by apply inv_on_bind.
Qed.

(** [Free] keeps the invariant and leaves the register empty. *)
Lemma Free_inv r try_move st :
  alloc_inv cfg st →
  wlp (Free cfg r try_move)
    (λ _ st', alloc_inv cfg st' ∧
       ∃ index, MapRegisterToIndex cfg r = Some index ∧
                register_values_ st' !! index = Some None) st.
Proof.
  intros Hinv. unfold Free. wlp_run.
  - (* the record is bound to another register *)
    split; [|eexists; split; [done|]].
    + unfold alloc_inv. st_simpl. eapply inv_on_clear; try done.
      intros p i Hp Hi. congruence.
    + apply list_lookup_insert_eq. by eapply lookup_lt_Some.
  - (* already spilled *)
    split; [|eexists; split; [done|]].
    + unfold alloc_inv. st_simpl. by eapply inv_on_unbind.
    + apply list_lookup_insert_eq. by eapply lookup_lt_Some.
  - (* try_move *)
    assert (a3 = a2) as -> by congruence. assert (a1 = Some n) as -> by congruence.
    assert (Hinv1 : inv_on cfg (<[n := info_with_reg None a2]> (values_ st))
                      (<[a := None]> (register_values_ st))).
    { by eapply inv_on_unbind. }
    assert (Ha : (a < length (register_values_ st))%nat) by by eapply lookup_lt_Some.
    wlp_call Free_find_move_wlp; [done|]. st_simpl.
    intros [j|[j|]] st1 [-> Hres].
    + destruct Hres as (q & qi & Hq & Hqi & Hnode).
      assert (q = n) as ->.
      { destruct Hinv1 as [_ Hn1]. destruct Hinv as [_ Hn].
        rewrite <- (Hn1 _ _ Hqi), Hnode. by eapply Hn. }
      wlp_run. rewrite lookup_insert_eq in *. simplify_eq.
      split; [|eexists; split; [done|by apply list_lookup_insert_eq]].
      unfold alloc_inv. st_simpl.
      eapply (inv_on_update cfg _ _ _ n (info_with_reg None a2));
        [exact Hinv1|apply lookup_insert_eq|done| |by intros].
      simpl. intros r' [= <-]. exists j. split; [|done].
      by apply MapIndexToRegister_Some.
    + destruct Hres as [Hj Hne].
      wlp_run.
      wlp_call (SetRegister_inv a1 n j); [done|by apply MapIndexToRegister_Some|by left|].
      intros _ st1 [Hinv2 Hrv2].
      wlp_stable_rest (same_on alloc_view). intros _ st2 Hview.
      split; [by eapply alloc_inv_view|].
      exists a. split; [done|].
      unfold same_on, alloc_view in Hview. injection Hview as _ ->.
      rewrite Hrv2. st_simpl. rewrite list_lookup_insert_ne by done.
      by apply list_lookup_insert_eq.
    + wlp_call Spill_inv; [done|].
      intros _ st1 [Hinv2 Hrv2]. split; [done|]. exists a. split; [done|].
      rewrite Hrv2. st_simpl. by apply list_lookup_insert_eq.
  - assert (a3 = a2) as -> by congruence. assert (a1 = Some n) as -> by congruence.
    assert (Hinv1 : inv_on cfg (<[n := info_with_reg None a2]> (values_ st))
                      (<[a := None]> (register_values_ st))).
    { by eapply inv_on_unbind. }
    assert (Ha : (a < length (register_values_ st))%nat) by by eapply lookup_lt_Some.
    wlp_call Free_find_existing_wlp. st_simpl.
    intros [j|] st1 [-> Hres].
    + specialize (Hres j eq_refl).
      wlp_run. rewrite lookup_insert_eq in *. simplify_eq.
      split; [|eexists; split; [done|by apply list_lookup_insert_eq]].
      unfold alloc_inv. st_simpl.
      eapply (inv_on_update cfg _ _ _ n (info_with_reg None a2));
        [exact Hinv1|apply lookup_insert_eq|done| |by intros].
      simpl. intros r' [= <-]. exists j. split; [|done].
      by apply MapIndexToRegister_Some.
    + wlp_call Spill_inv; [done|].
      intros _ st1 [Hinv2 Hrv2]. split; [done|]. exists a. split; [done|].
      rewrite Hrv2. st_simpl. by apply list_lookup_insert_eq.
  - split; [done|]. eauto.
Qed.

Lemma ForceAllocate_inv r p try_move st :
  alloc_inv cfg st → wlp (ForceAllocate cfg r p try_move) (λ _, alloc_inv cfg) st.
Proof.
  intros Hinv. unfold ForceAllocate. wlp_run; [done|].
  wlp_call Free_inv; [done|]. intros _ st1 (Hinv1 & index & Hindex & Hfree).
  unfold DoAllocate. wlp_open.
  wlp_call (SetRegister_inv r p index); [done|done|by left|].
  intros _ st2 [Hinv2 _]. by wlp_run.
Qed.

Lemma TryAllocateRegister_inv p st :
  alloc_inv cfg st → wlp (TryAllocateRegister cfg p) (λ _, alloc_inv cfg) st.
Proof.
  intros Hinv. unfold TryAllocateRegister.
  wlp_call first_empty_register_wlp. intros [i|] st1 [-> Hi]; wlp_run; [|done].
  wlp_call (SetRegister_inv a p i);
    [done|by apply MapIndexToRegister_Some|left; by apply Hi|].
  intros _ st2 [Hinv2 _]. by wlp_run.
Qed.

Lemma AllocateRegister_inv p st :
  alloc_inv cfg st → wlp (AllocateRegister cfg p) (λ _, alloc_inv cfg) st.
Proof.
  intros Hinv. unfold AllocateRegister.
  wlp_call TryAllocateRegister_inv; [done|].
  intros allocation st1 Hinv1.
  destruct allocation; wlp_run; try done.
  all: wlp_skip; intros f st2 Hinv2; wlp_run; by apply ForceAllocate_inv.
Qed.

Lemma evict_registers_inv count u lg free st :
  alloc_inv cfg st → wlp (evict_registers cfg count u lg free) (λ _, alloc_inv cfg) st.
Proof.
  revert u lg free st. induction count as [|count IH]; intros u lg free st Hinv; simpl.
  - by wlp_run.
  - wlp_skip. intros fl st1 Hinv1. wlp_run.
    wlp_call Free_inv; [done|]. intros _ st2 [Hinv2 _]. by apply IH.
Qed.

Lemma GetFreeRegisters_inv count st :
  alloc_inv cfg st → wlp (GetFreeRegisters cfg count) (λ _, alloc_inv cfg) st.
Proof.
  intros Hinv. unfold GetFreeRegisters. destruct (decide (count = 0%nat)).
  - by wlp_run.
  - wlp_skip. intros [l|[l c]] st1 Hinv1; wlp_run; [done|]. by apply evict_registers_inv.
Qed.

Lemma AssignTemporaries_inv n st :
  alloc_inv cfg st → wlp (AssignTemporaries cfg n) (λ _, alloc_inv cfg) st.
Proof.
  intros Hinv. unfold AssignTemporaries. wlp_run.
  wlp_call GetFreeRegisters_inv; [done|]. intros l st1 Hinv1. by wlp_run.
Qed.

Lemma inv_on_delete vals rv rv' n :
  inv_on cfg vals rv →
  (∀ j q, q ≠ n → rv !! j = Some (Some q) → rv' !! j = Some (Some q)) →
  inv_on cfg (delete n vals) rv'.
Proof.
  intros [Hb Hn] Hkeep. split.
  - intros q iq r Hq Hr. apply lookup_delete_Some in Hq as [Hne Hq].
    destruct (Hb q iq r Hq Hr) as (j & Hj & Hrv). exists j. split; [done|].
    apply Hkeep; [congruence|done].
  - intros q iq Hq. apply lookup_delete_Some in Hq as [Hne Hq]. by eapply Hn.
Qed.

Lemma UpdateInputUseAndClearDead_inv use input st :
  alloc_inv cfg st →
  wlp (UpdateInputUseAndClearDead cfg use input) (λ _, alloc_inv cfg) st.
Proof.
  intros Hinv. unfold UpdateInputUseAndClearDead. wlp_run; try done.
  - set (n := input_node input).
    wlp_open. eapply wlp_mono.
    { eapply wlp_forM_ with (I := λ s,
        values_ s = values_ st ∧
        ∀ j q, q ≠ n → register_values_ st !! j = Some (Some q) →
               register_values_ s !! j = Some (Some q)); [done|].
      intros i s _ [Hv Hk]. wlp_run; [|done]. split; [done|].
      intros j q Hne Hq. destruct (decide (i = j)) as [<-|].
      - specialize (Hk _ _ Hne Hq). congruence.
      - rewrite list_lookup_insert_ne by done. by apply Hk. }
    cbv beta. intros _ s1 [Hv Hk]. wlp_run.
    all: unfold alloc_inv; st_simpl; rewrite Hv; by eapply inv_on_delete.
  - unfold alloc_inv. st_simpl. by apply inv_on_next_use.
Qed.

Lemma SpillRegisters_inv st :
  alloc_inv cfg st → wlp (SpillRegisters cfg) (λ _, alloc_inv cfg) st.
Proof.
  intros Hinv. unfold SpillRegisters.
  apply (wlp_forM_ (alloc_inv cfg)); [done|].
  intros i s _ Hs. wlp_run; [|done].
  wlp_call Spill_inv; [done|]. by intros _ s1 [? _].
Qed.

Lemma SpillAndClearRegisters_inv st :
  alloc_inv cfg st → wlp (SpillAndClearRegisters cfg) (λ _, alloc_inv cfg) st.
Proof.
  intros Hinv. unfold SpillAndClearRegisters.
  apply (wlp_forM_ (alloc_inv cfg)); [done|].
  intros i s _ Hs. wlp_run; [|done].
  wlp_call Spill_inv; [done|]. intros _ s1 [Hs1 Hrv]. wlp_run.
  unfold alloc_inv. st_simpl. eapply inv_on_unbind; try done. by rewrite Hrv.
Qed.

Lemma inv_on_fresh vals rv n lu nu s :
  inv_on cfg vals rv → inv_on cfg (<[n := mkInfo n lu nu s None]> vals) rv.
Proof.
  intros [Hb Hn]. split.
  - intros q iq r Hq Hr. destruct (decide (n = q)) as [<-|Hne].
    + rewrite lookup_insert_eq in Hq. by simplify_eq.
    + rewrite lookup_insert_ne in Hq by done. by eapply Hb.
  - intros q iq Hq. destruct (decide (n = q)) as [<-|Hne].
    + rewrite lookup_insert_eq in Hq. by simplify_eq.
    + rewrite lookup_insert_ne in Hq by done. by eapply Hn.
Qed.

Lemma MakeLive_inv n st :
  alloc_inv cfg st → wlp (MakeLive n) (λ p st', p = n ∧ alloc_inv cfg st') st.
Proof.
  intros Hinv. unfold MakeLive. wlp_run. split; [done|].
  unfold alloc_inv. st_simpl. by apply inv_on_fresh.
Qed.

Lemma AllocateNodeResult_inv n st :
  alloc_inv cfg st → wlp (AllocateNodeResult cfg n) (λ _, alloc_inv cfg) st.
Proof.
  intros Hinv. unfold AllocateNodeResult.
  wlp_call MakeLive_inv; [done|]. intros ? st1 [-> Hinv1].
  wlp_run.
  - unfold alloc_inv in *. st_simpl. by apply inv_on_stack_slot.
  - wlp_call ForceAllocate_inv; [done|]. intros a' st2 Hinv2. by wlp_run.
  - wlp_call AllocateRegister_inv; [done|]. intros a' st2 Hinv2. by wlp_run.
  - wlp_call ForceAllocate_inv; [done|]. intros a' st2 Hinv2. by wlp_run.
Qed.

Lemma AssignInput_inv n k st :
  alloc_inv cfg st → wlp (AssignInput cfg n k) (λ _, alloc_inv cfg) st.
Proof.
  intros Hinv. unfold AssignInput.
  wlp_run; try inv_done.
  - wlp_call ForceAllocate_inv; [done|]. intros a' st2 Hinv2.
    wlp_run; inv_done.
  - wlp_call AllocateRegister_inv; [done|]. intros a' st2 Hinv2.
    wlp_run; inv_done.
Qed.

Lemma AllocateNode_inputs_inv n st :
  alloc_inv cfg st → wlp (AllocateNode_inputs cfg n) (λ _, alloc_inv cfg) st.
Proof.
  intros Hinv. unfold AllocateNode_inputs. wlp_run.
  wlp_open. eapply wlp_mono.
  { eapply wlp_forM_ with (I := alloc_inv cfg); [done|].
    intros k s _ Hs. by apply AssignInput_inv. }
  cbv beta. intros _ st1 Hinv1.
  wlp_call AssignTemporaries_inv; [done|]. intros _ st2 Hinv2. wlp_run.
  apply (wlp_forM_ (alloc_inv cfg)); [done|].
  intros i s _ Hs. by apply UpdateInputUseAndClearDead_inv.
Qed.

Lemma AllocateNode_inv item st :
  alloc_inv cfg st → wlp (AllocateNode cfg item) (λ _, alloc_inv cfg) st.
Proof.
  intros Hinv. unfold AllocateNode. wlp_open.
  eapply wlp_mono with (Q := λ _, alloc_inv cfg).
  - destruct item as [n|]; [|by wlp_run].
    wlp_call AllocateNode_inputs_inv; [done|]. intros _ st1 Hinv1.
    repeat first
      [ progress wlp_run
      | wlp_call SpillAndClearRegisters_inv; [eassumption|intros ? ? ?]
      | wlp_call SpillRegisters_inv; [eassumption|intros ? ? ?]
      | wlp_call AllocateNodeResult_inv; [eassumption|intros ? ? ?]
      | done ].
  - intros _ st1 Hinv1. inv_done.
Qed.

Lemma InitializeRegisterValues_inv target_state st :
  alloc_inv cfg st → wlp (InitializeRegisterValues cfg target_state) (λ _, alloc_inv cfg) st.
Proof.
  intros Hinv. unfold InitializeRegisterValues. wlp_open.
  (* the first loop empties the register file *)
  eapply wlp_mono.
  { eapply wlp_forM_rest with (I := λ rest s,
      alloc_inv cfg s ∧
      ∀ j, j ∈ register_indices cfg → j ∉ rest → register_values_ s !! j = Some None).
    - split; [done|]. intros j Hj Hnj. done.
    - intros i rest s [Hs Hdone]. wlp_run.
      + split.
        * unfold alloc_inv. st_simpl. by eapply inv_on_unbind.
        * intros j Hj Hnj. destruct (decide (i = j)) as [<-|Hne].
          -- apply list_lookup_insert_eq. by eapply lookup_lt_Some.
          -- rewrite list_lookup_insert_ne by done. apply Hdone; [done|].
             rewrite not_elem_of_cons. done.
      + split; [done|]. intros j Hj Hnj. destruct (decide (i = j)) as [<-|Hne].
        * congruence.
        * apply Hdone; [done|]. rewrite not_elem_of_cons. done. }
  cbv beta. intros _ st1 [Hinv1 Hempty].
  (* the second loop binds the records of the target state *)
  eapply wlp_mono.
  { eapply wlp_forM_rest with (I := λ rest s,
      NoDup rest ∧ alloc_inv cfg s ∧
      ∀ j, j ∈ rest → register_values_ s !! j = Some None).
    - split_and!; [apply NoDup_seq|done|].
      intros j Hj. apply Hempty; [done|]. apply not_elem_of_nil.
    - intros i rest s (Hnd & Hs & Hrest). apply NoDup_cons in Hnd as [Hi Hnd].
      wlp_run.
      + split_and!; [done| |].
        * unfold alloc_inv. st_simpl. eapply inv_on_bind; try done.
          -- by apply MapIndexToRegister_Some.
          -- left. apply Hrest. by left.
        * intros j Hj. rewrite list_lookup_insert_ne by (intros ->; done).
          apply Hrest. by right.
      + split_and!; [done|done|]. intros j Hj. apply Hrest. by right. }
  cbv beta. by intros _ st2 (_ & ? & _).
Qed.

Lemma TryAllocateToInput_inv info phi st :
  alloc_inv cfg st → wlp (TryAllocateToInput cfg info phi) (λ _, alloc_inv cfg) st.
Proof.
  intros Hinv. unfold TryAllocateToInput. wlp_run.
  generalize (inputs a). intros ins. clear H.
  induction ins as [|input ins IH]; simpl; [by wlp_run|].
  wlp_run; try done.
  unfold DoAllocate. wlp_open.
  wlp_call (SetRegister_inv (index a0) info a1); [done|done|by left|].
  intros _ st1 [Hinv1 _]. wlp_run; inv_done.
Qed.

Lemma AllocateSpillSlot_inv p st :
  alloc_inv cfg st → wlp (AllocateSpillSlot p) (λ _, alloc_inv cfg) st.
Proof.
  intros Hinv. unfold AllocateSpillSlot. wlp_run.
  all: unfold alloc_inv; st_simpl; by apply inv_on_stack_slot.
Qed.

Lemma ActivatePhis_inv ps st :
  alloc_inv cfg st → wlp (ActivatePhis cfg ps) (λ _, alloc_inv cfg) st.
Proof.
  intros Hinv. unfold ActivatePhis.
  wlp_open. eapply wlp_mono.
  { eapply wlp_forM_ with (I := alloc_inv cfg); [done|].
    intros phi s _ Hs. wlp_run.
    wlp_call MakeLive_inv; [inv_done|]. intros ? s1 [-> Hs1].
    by apply TryAllocateToInput_inv. }
  cbv beta. intros _ st1 Hinv1.
  wlp_open. eapply wlp_mono.
  { eapply wlp_forM_ with (I := alloc_inv cfg); [done|].
    intros phi s _ Hs. wlp_run; [done|].
    wlp_call TryAllocateRegister_inv; [done|]. intros al s1 Hs1.
    destruct al; wlp_run; inv_done. }
  cbv beta. intros _ st2 Hinv2.
  wlp_open. eapply wlp_mono.
  { eapply wlp_forM_ with (I := alloc_inv cfg); [done|].
    intros phi s _ Hs. wlp_run; [done|].
    wlp_call AllocateSpillSlot_inv; [done|]. intros _ s1 Hs1.
    wlp_run; inv_done. }
  cbv beta. intros _ st3 Hinv3. inv_done.
Qed.

Lemma MergeRegisterValues_view control target pred :
  stable (same_on alloc_view) (MergeRegisterValues cfg control target pred).
Proof.
  unfold MergeRegisterValues, InitializeBranchTargetRegisterValues,
    MergeRegisterValues_step, set_target_state.
  stable_tac.
Qed.

Lemma InitializeConditionalBranchRegisters_inv n target st :
  alloc_inv cfg st →
  wlp (InitializeConditionalBranchRegisters cfg n target) (λ _, alloc_inv cfg) st.
Proof.
  intros Hinv. unfold InitializeConditionalBranchRegisters.
  wlp_run.
  - eapply wlp_view; [apply MergeRegisterValues_view|done].
  - eapply wlp_view; [|done].
    unfold InitializeBranchTargetRegisterValues, set_target_state. stable_tac.
  - eapply wlp_forM_ with (I := alloc_inv cfg); [done|].
    intros i s _ Hs. wlp_run; [|done].
    wlp_readonly. intros live ? <-. destruct live; wlp_run; [done|].
    unfold alloc_inv in *. st_simpl. by eapply inv_on_unbind.
Qed.

Lemma AllocateControlNode_inv n block st :
  alloc_inv cfg st → wlp (AllocateControlNode cfg n block) (λ _, alloc_inv cfg) st.
Proof.
  intros Hinv. unfold AllocateControlNode.
  wlp_call AllocateNode_inputs_inv; [done|]. intros _ st1 Hinv1.
  wlp_run.
  all: repeat first
    [ progress wlp_run
    | done
    | wlp_call SpillAndClearRegisters_inv; [eassumption|intros ? ? ?]
    | wlp_call SpillRegisters_inv; [eassumption|intros ? ? ?]
    | wlp_call InitializeConditionalBranchRegisters_inv; [eassumption|intros ? ? ?]
    | wlp_open; eapply wlp_mono;
      [eapply wlp_view; [apply MergeRegisterValues_view|eassumption]
      |cbv beta; intros ? ? ?]
    | wlp_open; eapply wlp_mono;
      [eapply wlp_forM_ with (I := alloc_inv cfg);
       [eassumption|intros ? ? _ ?; wlp_run; first [inv_done|by apply UpdateInputUseAndClearDead_inv]]
      |cbv beta; intros ? ? ?] ].
Qed.

Lemma AllocateNodes_inv fuel st :
  alloc_inv cfg st → wlp (AllocateNodes cfg fuel) (λ _, alloc_inv cfg) st.
Proof.
  revert st. induction fuel as [|fuel IH]; intros st Hinv; simpl; [by wlp_run|].
  wlp_run; [|done].
  wlp_call AllocateNode_inv; [done|]. intros _ st1 Hinv1.
  unfold node_it_next. wlp_run. apply IH. inv_done.
Qed.

Lemma AllocateBlock_inv block st :
  alloc_inv cfg st → wlp (AllocateBlock cfg block) (λ _, alloc_inv cfg) st.
Proof.
  intros Hinv. unfold AllocateBlock, node_it_begin.
  wlp_run.
  all: repeat first
    [ progress wlp_run
    | wlp_call InitializeRegisterValues_inv; [inv_done|intros ? ? ?]
    | wlp_call ActivatePhis_inv; [inv_done|intros ? ? ?]
    | wlp_call AllocateNodes_inv; [inv_done|intros ? ? ?]
    | wlp_call AllocateControlNode_inv; [inv_done|intros ? ? ?]
    | wlp_skip; intros ? ? ?
    | done ].
Qed.

Lemma AllocateRegisters_inv graph st :
  alloc_inv cfg st → wlp (AllocateRegisters cfg graph) (λ _, alloc_inv cfg) st.
Proof.
  intros Hinv. unfold AllocateRegisters. wlp_skip. intros _ st1 Hinv1.
  eapply wlp_forM_ with (I := alloc_inv cfg); [done|].
  intros b s _ Hs. by apply AllocateBlock_inv.
Qed.
End Invariant.

(** ** C8: which way the register file and the records agree *)

Lemma alloc_inv_initial cfg ns bs rv free top b it :
  alloc_inv cfg (mkState ∅ rv free top b it ns bs).
Proof. split; intros p info; intros; by simplify_map_eq. Qed.

(** C8, as the code has it.  Every step of the allocator (restoring a
    merge state, activating phis, processing a node, processing a control
    node) keeps this invariant: a record whose register field is set is
    held by the register-file entry of that register, and the record
    stored for a value describes that value.  (The other direction is not
    kept: a register-file entry may hold a record whose register field
    names another register.) *)
Theorem allocator_step_keeps_records_bound (cfg : Config) (st st' : State) :
  NoDup (allocatable cfg) →
  alloc_inv cfg st →
  allocator_step cfg st st' →
  bound_in_file cfg (values_ st') (register_values_ st') ∧ alloc_inv cfg st'.
Proof.
  intros Hnodup Hinv Hstep.
  assert (alloc_inv cfg st') as H; [|by destruct H].
  destruct Hstep as [ts t H|ps t H|item t H|n block t H].
  - by eapply InitializeRegisterValues_inv.
  - by eapply ActivatePhis_inv.
  - by eapply AllocateNode_inv.
  - by eapply AllocateControlNode_inv.
Qed.

Lemma fixed_state_1_inv : alloc_inv cfg4 fixed_state_1.
Proof.
  assert (H : wlp (AllocateNode cfg4 (INode 1%nat) ;;; node_it_next)
                (λ _, alloc_inv cfg4) fixed_graph).
  { wlp_call AllocateNode_inv; [exact regs4_NoDup|apply alloc_inv_initial|].
    intros _ st1 Hinv1. unfold node_it_next. wlp_run. inv_done. }
  eapply H. vm_compute. reflexivity.
Qed.

Lemma allocator_step_keeps_records_bound_witness :
  bound_in_file cfg4 (values_ fixed_state_2) (register_values_ fixed_state_2) ∧
  alloc_inv cfg4 fixed_state_2.
Proof.
  apply (allocator_step_keeps_records_bound cfg4 fixed_state_1 fixed_state_2).
  - exact regs4_NoDup.
  - exact fixed_state_1_inv.
  - apply (step_node cfg4 _ _ (INode 2%nat) []). vm_compute. reflexivity.
Defined.

(** The whole run keeps the invariant, from the empty tables on. *)
Corollary AllocateRegisters_keeps_records_bound cfg graph st st' t :
  NoDup (allocatable cfg) →
  alloc_inv cfg st →
  AllocateRegisters cfg graph st = Some (tt, st', t) →
  alloc_inv cfg st'.
Proof. intros Hnodup Hinv Hrun. by eapply AllocateRegisters_inv. Qed.

(** C8 as stated fails in its first direction.  The agreement holds in
    both directions after v1 is processed; the next node takes v1 in the
    fixed register R2, and afterwards register-file entry 0 still holds
    v1's record while the record's register field is R2, not
    [MapIndexToRegister(0)] = R0. *)
Lemma register_file_entry_names_other_register :
  ∃ st' t,
    AllocateNode cfg4 (INode 2%nat) fixed_state_1 = Some (tt, st', t) ∧
    file_names_reg cfg4 (values_ fixed_state_1) (register_values_ fixed_state_1) ∧
    bound_in_file cfg4 (values_ fixed_state_1) (register_values_ fixed_state_1) ∧
    register_values_ st' = [Some 1%nat; None; Some 1%nat; None] ∧
    reg <$> values_ st' !! 1%nat = Some (Some 2) ∧
    MapIndexToRegister cfg4 0 = Some 0 ∧
    ¬ file_names_reg cfg4 (values_ st') (register_values_ st').
Proof.
  eexists _, _. split; [vm_compute; reflexivity|].
  split_and!.
  - intros [|[|[|[|i]]]] p info Hp Hi; vm_compute in Hp; simplify_eq.
    vm_compute in Hi. by simplify_eq.
  - apply fixed_state_1_inv.
  - reflexivity.
  - reflexivity.
  - reflexivity.
  - intros H. specialize (H 0%nat 1%nat). vm_compute in H.
    specialize (H _ eq_refl eq_refl). discriminate.
Qed.

(** ** Nodes keep their identity *)

Global Instance static_rel_preorder : PreOrder static_rel.
Proof.
  split.
  - intros s p nd H. exists nd. by split.
  - intros s1 s2 s3 H12 H23 p nd H.
    destruct (H12 p nd H) as (nd2 & H2 & S2).
    destruct (H23 p nd2 H2) as (nd3 & H3 & S3).
    exists nd3. split; [done|]. unfold same_static in *. intuition congruence.
Qed.

Lemma update_node_static p f :
  (∀ nd, same_static nd (f nd)) → stable static_rel (update_node p f).
Proof.
  intros Hf st [] st' t H. unfold update_node in H.
  apply bind_Some in H as (n & st1 & t1 & t2 & Hn & H & ->).
  unfold node_at, bind, gets, deref, ret in Hn.
  destruct (node_store st !! p) as [n0|] eqn:Hp; [|done].
  injection Hn as -> -> _. unfold modify in H. injection H as <- _.
  intros q nd Hq. st_simpl. destruct (decide (p = q)) as [<-|Hne].
  - rewrite lookup_insert_eq. simplify_eq. eauto.
  - rewrite lookup_insert_ne by done. exists nd. by split.
Qed.

Lemma input_SetAllocated_static n k a : stable static_rel (input_SetAllocated n k a).
Proof.
  unfold input_SetAllocated. apply stable_bind; [apply _|stable_tac|].
  intros i. by apply update_node_static.
Qed.

Lemma result_SetAllocated_static n a : stable static_rel (result_SetAllocated n a).
Proof. by apply update_node_static. Qed.

Lemma SetNoSpillOrHint_static n : stable static_rel (SetNoSpillOrHint n).
Proof. by apply update_node_static. Qed.

Lemma node_Spill_static n s : stable static_rel (node_Spill n s).
Proof. by apply update_node_static. Qed.

Lemma assign_temporaries_static n l : stable static_rel (assign_temporaries n l).
Proof. by apply update_node_static. Qed.

Global Hint Resolve input_SetAllocated_static result_SetAllocated_static
  SetNoSpillOrHint_static node_Spill_static assign_temporaries_static : stable_db.

(** Setters of the other components of the state. *)
Ltac static_tac :=
  stable_with ltac:(intros [] ? ? ?; eexists; split; [eassumption|by repeat split]).

Lemma evict_registers_static cfg count u lg free :
  stable static_rel (evict_registers cfg count u lg free).
Proof. revert u lg free. induction count; intros u lg free; simpl; static_tac. Qed.

Global Hint Resolve evict_registers_static : stable_db.

Lemma AllocateNode_inputs_static cfg n : stable static_rel (AllocateNode_inputs cfg n).
Proof. unfold AllocateNode_inputs. static_tac. Qed.

(** ** Calls and deopt points *)

Global Instance grow_rel_preorder : PreOrder grow_rel.
Proof.
  split.
  - intros s. split; [done|]. intros p info H. by exists info.
  - intros s1 s2 s3 [E12 H12] [E23 H23]. split; [congruence|].
    intros p info H. destruct (H12 p info H) as (i2 & H2 & R2 & S2).
    destruct (H23 p i2 H2) as (i3 & H3 & R3 & S3).
    exists i3. split_and!; [done|congruence|auto].
Qed.

Global Instance clear_rel_preorder J : PreOrder (clear_rel J).
Proof.
  split.
  - intros s. split_and!; try done. intros p info H. by exists info.
  - intros s1 s2 s3 (A12 & B12 & H12) (A23 & B23 & H23). split_and!.
    + intros j Hj. rewrite A23, A12; done.
    + auto.
    + intros p info H. destruct (H12 p info H) as (i2 & H2 & R2 & S2).
      destruct (H23 p i2 H2) as (i3 & H3 & R3 & S3).
      exists i3. split_and!; auto.
Qed.


Lemma grow_rel_clear_rel J s s' : grow_rel s s' → clear_rel J s s'.
Proof.
  intros [E H]. split_and!.
  - intros j _. by rewrite E.
  - intros j Hj. by rewrite E.
  - intros p info Hp. destruct (H p info Hp) as (i' & ? & R & ?).
    exists i'. split_and!; [done| |done]. congruence.
Qed.

Lemma Spill_grow cfg p : stable grow_rel (Spill cfg p).
Proof.
  intros st [] st' t H. revert H. revert st' t.
  cut (wlp (Spill cfg p) (λ _ st', grow_rel st st') st).
  { intros Hw st' t H. by eapply Hw. }
  unfold Spill, AllocateSpillSlot. wlp_run; [reflexivity|..].
  all: split; [done|]; st_simpl; intros q info Hq;
    (destruct (decide (p = q)) as [<-|Hne];
     [rewrite lookup_insert_eq; simplify_eq; eexists; split_and!; [done|done|by eexists]
     |rewrite lookup_insert_ne by done; by exists info]).
Qed.

Global Hint Resolve Spill_grow : stable_db.






(** *** Allocating the result of a node into an empty register file *)

Global Instance same_values_but_preorder n : PreOrder (same_values_but n).
Proof.
  split; [by intros s q Hq|].
  intros s1 s2 s3 H12 H23 q Hq. rewrite H23, H12; done.
Qed.







(** The steps of [AllocateNode] on a node of the graph. *)
Lemma AllocateNode_steps cfg n nd st st' t :
  AllocateNode cfg (INode n) st = Some (tt, st', t) →
  node_store st !! n = Some nd →
  ∃ mid nd' c d t1 t2 t3 t4,
    AllocateNode_inputs cfg n st = Some (tt, mid, t1) ∧
    node_store mid !! n = Some nd' ∧ same_static nd nd' ∧
    when (is_call nd) (SpillAndClearRegisters cfg) mid = Some (tt, c, t2) ∧
    when (can_deopt nd) (SpillRegisters cfg) c = Some (tt, d, t3) ∧
    when (Is_ValueNode nd) (AllocateNodeResult cfg n) d = Some (tt, st', t4).
Proof.
  intros Hrun Hnd. unfold AllocateNode in Hrun.
  apply bind_Some in Hrun as ([] & s5 & ta & tb & Hrun & Htrace & ->).
  apply bind_Some in Hrun as ([] & mid0 & t1 & tc & Hin & Hrun & ->).
  apply bind_Some in Hrun as (nd' & mid & td & te & Hnd' & Hrun & ->).
  unfold node_at, bind, gets, deref, ret in Hnd'.
  destruct (node_store mid0 !! n) as [nd0|] eqn:Hmid; [|done].
  injection Hnd' as -> -> _.
  apply bind_Some in Hrun as ([] & c & t2 & tf & Hcall & Hrun & ->).
  apply bind_Some in Hrun as ([] & d & t3 & t4 & Hdeopt & Hres & ->).
  pose proof (AllocateNode_inputs_static cfg n _ _ _ _ Hin n nd Hnd) as (nd2 & Hnd2 & Hst).
  assert (nd2 = nd') as -> by congruence.
  assert (s5 = st') as ->.
  { assert (Hro : stable eq (when (FLAG_trace_maglev_regalloc cfg)
                               (emit (TProcess (INode n)) ;;; PrintLiveRegs cfg))).
    { stable_tac. }
    eapply Hro. exact Htrace. }
  pose proof Hst as Hst'. destruct Hst as (_ & Hop & Hc & Hd & _).
  assert (Is_ValueNode nd' = Is_ValueNode nd) as Hv.
  { unfold Is_ValueNode. by rewrite Hop. }
  rewrite Hc in Hcall. rewrite Hd in Hdeopt. rewrite Hv in Hres.
  destruct Hst' as (Hid & _ & _ & _ & Hlr).
  exists mid, nd', c, d, t1, t2, t3, t4. split_and!; try done.
Qed.






(** ** C9: the trace flag *)

Lemma same_up_to_trace_refl {A} (m : M A) : same_up_to_trace m m.
Proof. intros st a st' t H. eauto. Qed.

Lemma same_up_to_trace_bind {A B} (m1 m0 : M A) (k1 k0 : A → M B) :
  same_up_to_trace m1 m0 → (∀ a, same_up_to_trace (k1 a) (k0 a)) →
  same_up_to_trace (bind m1 k1) (bind m0 k0).
Proof.
  intros Hm Hk st b st2 t H.
  apply bind_Some in H as (a & st1 & t1 & t2 & H1 & H2 & ->).
  destruct (Hm _ _ _ _ H1) as [u1 Hu1]. destruct (Hk _ _ _ _ _ H2) as [u2 Hu2].
  exists (u1 ++ u2). unfold bind. by rewrite Hu1, Hu2.
Qed.

Lemma same_up_to_trace_when b (m1 m0 : M unit) :
  same_up_to_trace m1 m0 → same_up_to_trace (when b m1) (when b m0).
Proof. destruct b; [done|intros _; apply same_up_to_trace_refl]. Qed.

Lemma same_up_to_trace_forM_ {X} (l : list X) (f1 f0 : X → M unit) :
  (∀ x, same_up_to_trace (f1 x) (f0 x)) →
  same_up_to_trace (forM_ l f1) (forM_ l f0).
Proof.
  intros Hf. induction l as [|x l IH]; simpl.
  - apply same_up_to_trace_refl.
  - apply same_up_to_trace_bind; [apply Hf|by intros _].
Qed.

(** A block under the flag that only reads the state and prints can be
    left out. *)
Lemma same_up_to_trace_print (m1 m0 : M unit) :
  stable eq m1 → same_up_to_trace (when true m1) (when false m0).
Proof.
  intros Hm st [] st' t H. simpl in H.
  rewrite <- (Hm _ _ _ _ H). exists []. reflexivity.
Qed.

Create HintDb trace_db discriminated.

Ltac trace_step :=
  lazymatch goal with
  | |- ∀ _, _ => intros ?
  | |- same_up_to_trace ?m ?m => apply same_up_to_trace_refl
  | |- same_up_to_trace (bind _ _) (bind _ _) => apply same_up_to_trace_bind
  | |- same_up_to_trace (when true _) (when false _) =>
      apply same_up_to_trace_print; stable_tac
  | |- same_up_to_trace (when ?b _) (when ?b _) => apply same_up_to_trace_when
  | |- same_up_to_trace (forM_ _ _) (forM_ _ _) => apply same_up_to_trace_forM_
  | |- same_up_to_trace (match ?x with _ => _ end) _ => destruct x
  | |- same_up_to_trace (let _ := _ in _) _ => cbv zeta
  end.

Ltac trace_tac := repeat first [solve [auto 2 with trace_db nocore] | trace_step].

Section TraceFlag.
Context (regs : list Register) (try_move : bool).

Abbreviation on := (mkConfig regs true try_move).
Abbreviation off := (mkConfig regs false try_move).

(** What does not look at the flag is the same function for both
    configurations. *)
Ltac flag_free :=
  cbn [FLAG_trace_maglev_regalloc default_try_move];
  change (MapRegisterToIndex on) with (MapRegisterToIndex off);
  change (MapIndexToRegister on) with (MapIndexToRegister off);
  change (register_indices on) with (register_indices off);
  change (kAllocatableGeneralRegisterCount on) with (kAllocatableGeneralRegisterCount off);
  change (SetRegister on) with (SetRegister off);
  change (DoAllocate on) with (DoAllocate off);
  change (TryAllocateRegister on) with (TryAllocateRegister off);
  change (InitializeRegisterValues on) with (InitializeRegisterValues off);
  change (InitializeBranchTargetRegisterValues on)
    with (InitializeBranchTargetRegisterValues off);
  change (MergeRegisterValues on) with (MergeRegisterValues off);
  change (InitializeConditionalBranchRegisters on)
    with (InitializeConditionalBranchRegisters off).

Lemma Spill_trace info : same_up_to_trace (Spill on info) (Spill off info).
Proof. unfold Spill. flag_free. trace_tac. Qed.
Hint Resolve Spill_trace : trace_db.

Lemma Free_trace r b : same_up_to_trace (Free on r b) (Free off r b).
Proof. unfold Free. flag_free. trace_tac. Qed.
Hint Resolve Free_trace : trace_db.

Lemma ForceAllocate_trace r info b :
  same_up_to_trace (ForceAllocate on r info b) (ForceAllocate off r info b).
Proof. unfold ForceAllocate. flag_free. trace_tac. Qed.
Hint Resolve ForceAllocate_trace : trace_db.

Lemma AllocateRegister_trace info :
  same_up_to_trace (AllocateRegister on info) (AllocateRegister off info).
Proof. unfold AllocateRegister. flag_free. trace_tac. Qed.
Hint Resolve AllocateRegister_trace : trace_db.

Lemma evict_registers_trace count u lg free :
  same_up_to_trace (evict_registers on count u lg free)
    (evict_registers off count u lg free).
Proof.
  revert u lg free. induction count as [|count IH]; intros u lg free; simpl;
    flag_free; trace_tac.
Qed.
Hint Resolve evict_registers_trace : trace_db.

Lemma collect_free_registers_trace l free count :
  same_up_to_trace (collect_free_registers on l free count)
    (collect_free_registers off l free count).
Proof.
  revert free count. induction l as [|i l IH]; intros free count; simpl;
    flag_free; trace_tac.
Qed.
Hint Resolve collect_free_registers_trace : trace_db.

Lemma GetFreeRegisters_trace count :
  same_up_to_trace (GetFreeRegisters on count) (GetFreeRegisters off count).
Proof. unfold GetFreeRegisters. flag_free. trace_tac. Qed.
Hint Resolve GetFreeRegisters_trace : trace_db.

Lemma AssignTemporaries_trace n :
  same_up_to_trace (AssignTemporaries on n) (AssignTemporaries off n).
Proof. unfold AssignTemporaries. flag_free. trace_tac. Qed.
Hint Resolve AssignTemporaries_trace : trace_db.

Lemma SpillRegisters_trace :
  same_up_to_trace (SpillRegisters on) (SpillRegisters off).
Proof. unfold SpillRegisters. flag_free. trace_tac. Qed.
Hint Resolve SpillRegisters_trace : trace_db.

Lemma SpillAndClearRegisters_trace :
  same_up_to_trace (SpillAndClearRegisters on) (SpillAndClearRegisters off).
Proof. unfold SpillAndClearRegisters. flag_free. trace_tac. Qed.
Hint Resolve SpillAndClearRegisters_trace : trace_db.

Lemma UpdateInputUseAndClearDead_trace use input :
  same_up_to_trace (UpdateInputUseAndClearDead on use input)
    (UpdateInputUseAndClearDead off use input).
Proof. unfold UpdateInputUseAndClearDead. flag_free. trace_tac. Qed.
Hint Resolve UpdateInputUseAndClearDead_trace : trace_db.

Lemma AssignInput_trace n k :
  same_up_to_trace (AssignInput on n k) (AssignInput off n k).
Proof. unfold AssignInput. flag_free. trace_tac. Qed.
Hint Resolve AssignInput_trace : trace_db.

Lemma AllocateNodeResult_trace n :
  same_up_to_trace (AllocateNodeResult on n) (AllocateNodeResult off n).
Proof. unfold AllocateNodeResult. flag_free. trace_tac. Qed.
Hint Resolve AllocateNodeResult_trace : trace_db.

Lemma AllocateNode_inputs_trace n :
  same_up_to_trace (AllocateNode_inputs on n) (AllocateNode_inputs off n).
Proof. unfold AllocateNode_inputs. flag_free. trace_tac. Qed.
Hint Resolve AllocateNode_inputs_trace : trace_db.

Lemma AllocateNode_trace item :
  same_up_to_trace (AllocateNode on item) (AllocateNode off item).
Proof. unfold AllocateNode. flag_free. trace_tac. Qed.
Hint Resolve AllocateNode_trace : trace_db.

Lemma TryAllocateToInput_loop_trace info phi ins :
  same_up_to_trace (TryAllocateToInput_loop on info phi ins)
    (TryAllocateToInput_loop off info phi ins).
Proof.
  induction ins as [|input ins IH]; cbn [TryAllocateToInput_loop]; flag_free; trace_tac.
Qed.
Hint Resolve TryAllocateToInput_loop_trace : trace_db.

Lemma TryAllocateToInput_trace info phi :
  same_up_to_trace (TryAllocateToInput on info phi) (TryAllocateToInput off info phi).
Proof. unfold TryAllocateToInput. flag_free. trace_tac. Qed.
Hint Resolve TryAllocateToInput_trace : trace_db.

Lemma AllocateControlNode_trace n block :
  same_up_to_trace (AllocateControlNode on n block) (AllocateControlNode off n block).
Proof. unfold AllocateControlNode. flag_free. trace_tac. Qed.
Hint Resolve AllocateControlNode_trace : trace_db.

Lemma ActivatePhis_trace ps :
  same_up_to_trace (ActivatePhis on ps) (ActivatePhis off ps).
Proof. unfold ActivatePhis. flag_free. trace_tac. Qed.
Hint Resolve ActivatePhis_trace : trace_db.

Lemma AllocateNodes_trace fuel :
  same_up_to_trace (AllocateNodes on fuel) (AllocateNodes off fuel).
Proof. induction fuel as [|fuel IH]; cbn [AllocateNodes]; flag_free; trace_tac. Qed.
Hint Resolve AllocateNodes_trace : trace_db.

Lemma AllocateBlock_trace block :
  same_up_to_trace (AllocateBlock on block) (AllocateBlock off block).
Proof. unfold AllocateBlock. flag_free. trace_tac. Qed.
Hint Resolve AllocateBlock_trace : trace_db.

Lemma AllocateRegisters_trace graph :
  same_up_to_trace (AllocateRegisters on graph) (AllocateRegisters off graph).
Proof. unfold AllocateRegisters. flag_free. trace_tac. Qed.

End TraceFlag.

(** C9.  Two configurations that differ in the trace flag only: whenever
    the run with the flag on returns, the run with the flag off returns
    the same state, that is the same decorated nodes (operands, spill
    slots, temporaries), the same blocks (inserted gap moves, merge-state
    tables), the same [top_of_stack_] and the same allocator tables; only
    the trace differs. *)
Theorem AllocateRegisters_trace_independent (cfg_on cfg_off : Config)
    (graph : list BlockPtr) (st st' : State) (t : list TraceEvent) :
  FLAG_trace_maglev_regalloc cfg_on = true →
  FLAG_trace_maglev_regalloc cfg_off = false →
  allocatable cfg_on = allocatable cfg_off →
  default_try_move cfg_on = default_try_move cfg_off →
  AllocateRegisters cfg_on graph st = Some (tt, st', t) →
  ∃ t0, AllocateRegisters cfg_off graph st = Some (tt, st', t0).
Proof.
  destruct cfg_on as [regs f1 d], cfg_off as [regs0 f0 d0]. simpl.
  intros -> -> <- <- Hrun.
  by eapply AllocateRegisters_trace.
Qed.

(** So two runs that both return end in the same state. *)
Corollary AllocateRegisters_trace_same_state regs try_move graph st st1 st0 t1 t0 :
  AllocateRegisters (mkConfig regs true try_move) graph st = Some (tt, st1, t1) →
  AllocateRegisters (mkConfig regs false try_move) graph st = Some (tt, st0, t0) →
  st1 = st0.
Proof.
  intros H1 H0. destruct (AllocateRegisters_trace _ _ _ _ _ _ _ H1) as [u Hu].
  congruence.
Qed.

Lemma spill_graph_traced :
  ∃ st' t, AllocateRegisters cfg4_trace [0%nat] spill_graph = Some (tt, st', t) ∧
           t ≠ [] ∧ top_of_stack_ st' = 1.
Proof. vm_compute. eexists _, _. split_and!; [reflexivity|discriminate|reflexivity]. Qed.

Lemma AllocateRegisters_trace_independent_witness :
  ∃ t0, AllocateRegisters cfg4 [0%nat] spill_graph
        = Some (tt, run_state (AllocateRegisters cfg4_trace [0%nat] spill_graph) spill_graph, t0).
Proof.
  eapply (AllocateRegisters_trace_independent cfg4_trace cfg4 [0%nat] spill_graph).
  - reflexivity.
  - reflexivity.
  - reflexivity.
  - reflexivity.
  - vm_compute. reflexivity.
Defined.
(** ** The helpers of maglev-regalloc-data.h *)

(** X1.  [MapRegisterToIndex] followed by [MapIndexToRegister] is the
    identity: the index found for a register is below
    [kAllocatableGeneralRegisterCount], it maps back to the register, and
    no lower index does. *)
Theorem MapRegisterToIndex_round_trip (cfg : Config) (r : Register) (i : nat) :
  MapRegisterToIndex cfg r = Some i →
  (i < kAllocatableGeneralRegisterCount cfg)%nat ∧
  MapIndexToRegister cfg i = Some r ∧
  ∀ j, (j < i)%nat → MapIndexToRegister cfg j ≠ Some r.
Proof.
  unfold MapRegisterToIndex, MapIndexToRegister, kAllocatableGeneralRegisterCount.
  intros H. destruct (list_find _ _) as [[k x]|] eqn:Hfind; simplify_eq/=.
  apply list_find_Some in Hfind as (Hi & -> & Hlow).
  split_and!; [by eapply lookup_lt_Some|done|].
  intros j Hj Hr. by eapply Hlow.
Qed.

Lemma MapRegisterToIndex_round_trip_witness :
  (2 < kAllocatableGeneralRegisterCount cfg4)%nat ∧
  MapIndexToRegister cfg4 2 = Some 2 ∧
  ∀ j, (j < 2)%nat → MapIndexToRegister cfg4 j ≠ Some 2.
Proof. apply (MapRegisterToIndex_round_trip cfg4 2 2%nat). reflexivity. Defined.

(** X2.  [MapIndexToRegister] followed by [MapRegisterToIndex] is the
    identity when the macro lists no register twice; and
    [MapRegisterToIndex] reaches [UNREACHABLE()] exactly on the registers
    the macro does not list. *)
Theorem MapIndexToRegister_round_trip (cfg : Config) :
  NoDup (allocatable cfg) →
  (∀ i r, MapIndexToRegister cfg i = Some r → MapRegisterToIndex cfg r = Some i) ∧
  (∀ r, MapRegisterToIndex cfg r = None ↔ r ∉ allocatable cfg).
Proof.
  intros Hnodup. split.
  - intros i r. by apply MapIndexToRegister_Some.
  - intros r. unfold MapRegisterToIndex.
    destruct (list_find (λ v, v = r) (allocatable cfg)) as [[j x]|] eqn:Hfind; simpl.
    + apply list_find_Some in Hfind as (Hj & -> & _). split; [done|].
      intros Hr. exfalso. apply Hr. apply list_elem_of_lookup. eauto.
    + apply list_find_None in Hfind. rewrite Forall_forall in Hfind.
      split; [|done]. intros _ Hr. by eapply Hfind.
Qed.

Lemma MapIndexToRegister_round_trip_witness :
  (∀ i r, MapIndexToRegister cfg4 i = Some r → MapRegisterToIndex cfg4 r = Some i) ∧
  (∀ r, MapRegisterToIndex cfg4 r = None ↔ r ∉ allocatable cfg4).
Proof. apply (MapIndexToRegister_round_trip cfg4). exact regs4_NoDup. Defined.

(** X3.  The payload encoding of the flags: decoding the encoding gives
    the flags back, the encoding fits the two payload bits of a
    [RegisterState], and two flags are [==] exactly when their encodings
    are equal. *)
Theorem RegisterStateFlags_round_trip (f g : RegisterStateFlags) :
  RegisterStateFlags_of_uintptr (RegisterStateFlags_to_uintptr f) = f ∧
  0 ≤ RegisterStateFlags_to_uintptr f < 2 ^ 2 ∧
  (RegisterStateFlags_eq f g = true ↔
   RegisterStateFlags_to_uintptr f = RegisterStateFlags_to_uintptr g).
Proof.
  destruct f as [[] []], g as [[] []]; vm_compute; split_and!; try done.
  all: split; congruence.
Qed.

(** X4.  Decoding reads the two low bits only: whatever the word, the
    encoding of the decoded flags is the word masked with 3. *)
Theorem RegisterStateFlags_of_uintptr_low_bits (state : Z) :
  RegisterStateFlags_to_uintptr (RegisterStateFlags_of_uintptr state) = Z.land state 3.
Proof.
  unfold RegisterStateFlags_to_uintptr, RegisterStateFlags_of_uintptr,
    kIsInitializedShift, kIsMergeShift. simpl is_initialized. simpl is_merge.
  change (Z.shiftl 1 1) with 2. change (Z.shiftl 1 0) with 1.
  apply Z.bits_inj'. intros n Hn.
  rewrite Z.land_spec.
  assert (Hbit1 : Z.land state 2 = if Z.testbit state 1 then 2 else 0).
  { apply Z.bits_inj'. intros k Hk. rewrite Z.land_spec.
    destruct (decide (k = 1)) as [->|Hne].
    - destruct (Z.testbit state 1); reflexivity.
    - replace (Z.testbit 2 k) with false.
      + rewrite andb_false_r. destruct (Z.testbit state 1); [|by rewrite Z.bits_0].
        symmetry. destruct (decide (k = 0)) as [->|]; [done|].
        change 2 with (2 ^ 1). apply Z.pow2_bits_false. lia.
      + symmetry. destruct (decide (k = 0)) as [->|]; [done|].
        change 2 with (2 ^ 1). apply Z.pow2_bits_false. lia. }
  assert (Hbit0 : Z.land state 1 = if Z.testbit state 0 then 1 else 0).
  { apply Z.bits_inj'. intros k Hk. rewrite Z.land_spec.
    destruct (decide (k = 0)) as [->|Hne].
    - destruct (Z.testbit state 0); reflexivity.
    - replace (Z.testbit 1 k) with false.
      + rewrite andb_false_r. destruct (Z.testbit state 0); [|by rewrite Z.bits_0].
        symmetry. change 1 with (2 ^ 0). apply Z.pow2_bits_false. lia.
      + symmetry. change 1 with (2 ^ 0). apply Z.pow2_bits_false. lia. }
  rewrite Hbit1, Hbit0.
  destruct (decide (n = 0)) as [->|H0]; [|destruct (decide (n = 1)) as [->|H1]].
  - destruct (Z.testbit state 1), (Z.testbit state 0); reflexivity.
  - destruct (Z.testbit state 1), (Z.testbit state 0); reflexivity.
  - replace (Z.testbit 3 n) with false.
    + rewrite andb_false_r.
      destruct (Z.testbit state 1), (Z.testbit state 0); simpl;
        rewrite ?Z.lor_spec, ?Z.bits_0; try reflexivity.
      all: change 3 with (Z.lor 2 1) || idtac.
      all: rewrite ?Z.lor_spec; change 2 with (2 ^ 1); change 1 with (2 ^ 0);
        rewrite ?Z.pow2_bits_false by lia; reflexivity.
    + symmetry. change 3 with (Z.lor (2 ^ 1) (2 ^ 0)). rewrite Z.lor_spec.
      rewrite !Z.pow2_bits_false by lia. reflexivity.
Qed.
(** ** A frame rule for the allocator

    A relation between states that every write of the allocator respects
    is respected by the whole run.  The writes are listed as hypotheses;
    everything else only reads the state or composes these. *)

Section Frame.
Context (R : relation State) `{!PreOrder R} (cfg : Config).

Hypothesis frame_reg : ∀ p r, stable R (update_info p (info_with_reg r)).
Hypothesis frame_spill_slot : ∀ p, stable R (AllocateSpillSlot p).
Hypothesis frame_set_register : ∀ r info, stable R (SetRegister cfg r info).
Hypothesis frame_clear : ∀ i, stable R (set_reg i None).
Hypothesis frame_update : ∀ use input, stable R (UpdateInputUseAndClearDead cfg use input).
Hypothesis frame_restore : ∀ ts, stable R (InitializeRegisterValues cfg ts).
Hypothesis frame_live : ∀ n, stable R (MakeLive n).
Hypothesis frame_input : ∀ n k a, stable R (input_SetAllocated n k a).
Hypothesis frame_result : ∀ n a, stable R (result_SetAllocated n a).
Hypothesis frame_no_spill : ∀ n, stable R (SetNoSpillOrHint n).
Hypothesis frame_spill : ∀ info, stable R (Spill cfg info).
Hypothesis frame_temporaries : ∀ n l, stable R (assign_temporaries n l).
Hypothesis frame_move : ∀ s t, stable R (AddMoveBeforeCurrentNode s t).
Hypothesis frame_target : ∀ t i v, stable R (set_target_state t i v).
Hypothesis frame_block_it : ∀ b, stable R (modify (with_block_it_ b)).
Hypothesis frame_begin : stable R node_it_begin.
Hypothesis frame_next : stable R node_it_next.

Lemma Free_frame r b : stable R (Free cfg r b).
Proof. unfold Free. stable_tac. Qed.
Hint Resolve Free_frame : stable_db.

Lemma ForceAllocate_frame r info b : stable R (ForceAllocate cfg r info b).
Proof. unfold ForceAllocate, DoAllocate. stable_tac. Qed.
Hint Resolve ForceAllocate_frame : stable_db.

Lemma TryAllocateRegister_frame info : stable R (TryAllocateRegister cfg info).
Proof. unfold TryAllocateRegister. stable_tac. Qed.
Hint Resolve TryAllocateRegister_frame : stable_db.

Lemma AllocateRegister_frame info : stable R (AllocateRegister cfg info).
Proof. unfold AllocateRegister. stable_tac. Qed.
Hint Resolve AllocateRegister_frame : stable_db.

Lemma evict_registers_frame count u lg free :
  stable R (evict_registers cfg count u lg free).
Proof. revert u lg free. induction count; intros u lg free; simpl; stable_tac. Qed.
Hint Resolve evict_registers_frame : stable_db.

Lemma AssignTemporaries_frame n : stable R (AssignTemporaries cfg n).
Proof. unfold AssignTemporaries, GetFreeRegisters. stable_tac. Qed.
Hint Resolve AssignTemporaries_frame : stable_db.

Lemma SpillRegisters_frame : stable R (SpillRegisters cfg).
Proof. unfold SpillRegisters. stable_tac. Qed.
Hint Resolve SpillRegisters_frame : stable_db.

Lemma SpillAndClearRegisters_frame : stable R (SpillAndClearRegisters cfg).
Proof. unfold SpillAndClearRegisters. stable_tac. Qed.
Hint Resolve SpillAndClearRegisters_frame : stable_db.

Lemma AssignInput_frame n k : stable R (AssignInput cfg n k).
Proof. unfold AssignInput. stable_tac. Qed.
Hint Resolve AssignInput_frame : stable_db.

(** The result of a node: the fixed-slot case writes the slot the
    operand names into the record. *)
Section Result.
Hypothesis frame_stack_slot : ∀ p s, stable R (update_info p (info_with_stack_slot s)).

Lemma AllocateNodeResult_frame n : stable R (AllocateNodeResult cfg n).
Proof. unfold AllocateNodeResult. stable_tac. Qed.
End Result.

Hypothesis frame_node_result : ∀ n, stable R (AllocateNodeResult cfg n).

Lemma AllocateNode_inputs_frame n : stable R (AllocateNode_inputs cfg n).
Proof. unfold AllocateNode_inputs. stable_tac. Qed.
Hint Resolve AllocateNode_inputs_frame : stable_db.

Lemma AllocateNode_frame item : stable R (AllocateNode cfg item).
Proof. unfold AllocateNode. stable_tac. Qed.
Hint Resolve AllocateNode_frame : stable_db.

Lemma TryAllocateToInput_loop_frame info phi ins :
  stable R (TryAllocateToInput_loop cfg info phi ins).
Proof. induction ins; simpl; unfold DoAllocate; stable_tac. Qed.
Hint Resolve TryAllocateToInput_loop_frame : stable_db.

Lemma ActivatePhis_frame ps : stable R (ActivatePhis cfg ps).
Proof. unfold ActivatePhis, TryAllocateToInput. stable_tac. Qed.
Hint Resolve ActivatePhis_frame : stable_db.

Lemma InitializeBranchTargetRegisterValues_frame source target :
  stable R (InitializeBranchTargetRegisterValues cfg source target).
Proof. unfold InitializeBranchTargetRegisterValues. stable_tac. Qed.
Hint Resolve InitializeBranchTargetRegisterValues_frame : stable_db.

Lemma MergeRegisterValues_frame control target pred :
  stable R (MergeRegisterValues cfg control target pred).
Proof. unfold MergeRegisterValues, MergeRegisterValues_step. stable_tac. Qed.
Hint Resolve MergeRegisterValues_frame : stable_db.

Lemma InitializeConditionalBranchRegisters_frame n target :
  stable R (InitializeConditionalBranchRegisters cfg n target).
Proof. unfold InitializeConditionalBranchRegisters. stable_tac. Qed.
Hint Resolve InitializeConditionalBranchRegisters_frame : stable_db.

Lemma AllocateControlNode_frame n block : stable R (AllocateControlNode cfg n block).
Proof. unfold AllocateControlNode. stable_tac. Qed.
Hint Resolve AllocateControlNode_frame : stable_db.

Lemma AllocateNodes_frame fuel : stable R (AllocateNodes cfg fuel).
Proof. induction fuel; simpl; stable_tac. Qed.
Hint Resolve AllocateNodes_frame : stable_db.

Lemma AllocateBlock_frame block : stable R (AllocateBlock cfg block).
Proof. unfold AllocateBlock. stable_tac. Qed.
Hint Resolve AllocateBlock_frame : stable_db.

Lemma AllocateRegisters_frame graph : stable R (AllocateRegisters cfg graph).
Proof. unfold AllocateRegisters. stable_tac. Qed.

End Frame.

(** The same from the single writes, for relations that each of them
    respects on its own. *)
Section Writes.
Context (R : relation State) `{!PreOrder R} (cfg : Config).

Hypothesis write_info_reg : ∀ p r, stable R (update_info p (info_with_reg r)).
Hypothesis write_next_use : ∀ p u, stable R (update_info p (info_with_next_use u)).
Hypothesis write_stack_slot : ∀ p s, stable R (update_info p (info_with_stack_slot s)).
Hypothesis write_reg : ∀ i v, stable R (set_reg i v).
Hypothesis write_erase : ∀ n, stable R (modify (with_values_ (delete n))).
Hypothesis write_free : ∀ s, stable R (free_slots_Add s).
Hypothesis write_spill_slot : ∀ p, stable R (AllocateSpillSlot p).
Hypothesis write_live : ∀ n, stable R (MakeLive n).
Hypothesis write_input : ∀ n k a, stable R (input_SetAllocated n k a).
Hypothesis write_result : ∀ n a, stable R (result_SetAllocated n a).
Hypothesis write_no_spill : ∀ n, stable R (SetNoSpillOrHint n).
Hypothesis write_spill : ∀ n s, stable R (node_Spill n s).
Hypothesis write_temporaries : ∀ n l, stable R (assign_temporaries n l).
Hypothesis write_hole : ∀ n h, stable R (set_next_post_dominating_hole n h).
Hypothesis write_move : ∀ s t, stable R (AddMoveBeforeCurrentNode s t).
Hypothesis write_target : ∀ t i v, stable R (set_target_state t i v).
Hypothesis write_block_it : ∀ b, stable R (modify (with_block_it_ b)).
Hypothesis write_node_it : ∀ x, stable R (modify (with_node_it_ x)).

Lemma Spill_writes info : stable R (Spill cfg info).
Proof. unfold Spill. stable_tac. Qed.

Lemma SetRegister_writes r info : stable R (SetRegister cfg r info).
Proof. unfold SetRegister. stable_tac. Qed.

Lemma UpdateInputUseAndClearDead_writes use input :
  stable R (UpdateInputUseAndClearDead cfg use input).
Proof. unfold UpdateInputUseAndClearDead. stable_tac. Qed.

Lemma InitializeRegisterValues_writes ts : stable R (InitializeRegisterValues cfg ts).
Proof. unfold InitializeRegisterValues. stable_tac. Qed.

Lemma AllocateNodeResult_writes n : stable R (AllocateNodeResult cfg n).
Proof.
  pose proof SetRegister_writes. pose proof Spill_writes.
  apply AllocateNodeResult_frame; auto.
Qed.

Lemma AssignInput_writes n k : stable R (AssignInput cfg n k).
Proof.
  apply AssignInput_frame; auto using SetRegister_writes, Spill_writes.
Qed.

Lemma AssignTemporaries_writes n : stable R (AssignTemporaries cfg n).
Proof. apply AssignTemporaries_frame; auto using SetRegister_writes, Spill_writes. Qed.

Lemma SpillRegisters_writes : stable R (SpillRegisters cfg).
Proof. apply SpillRegisters_frame; auto using SetRegister_writes, Spill_writes. Qed.

Lemma SpillAndClearRegisters_writes : stable R (SpillAndClearRegisters cfg).
Proof. apply SpillAndClearRegisters_frame; auto using SetRegister_writes, Spill_writes. Qed.

Lemma AllocateRegisters_writes graph : stable R (AllocateRegisters cfg graph).
Proof.
  apply AllocateRegisters_frame; try done.
  all: try (intros; first [apply SetRegister_writes|apply UpdateInputUseAndClearDead_writes
    |apply InitializeRegisterValues_writes|apply AllocateNodeResult_writes
    |apply Spill_writes]).
  all: intros; unfold node_it_begin, node_it_next; stable_tac.
Qed.

Lemma holes_walk_writes fuel control first second :
  stable R (holes_walk fuel control first second).
Proof.
  revert first second.
  induction fuel as [|fuel IH]; intros first second; simpl; stable_tac.
Qed.

Lemma ComputePostDominatingHoles_writes fuel graph :
  stable R (ComputePostDominatingHoles fuel graph).
Proof.
  pose proof holes_walk_writes.
  unfold ComputePostDominatingHoles, ComputePostDominatingHoles_block.
  stable_tac.
Qed.

Lemma StraightForwardRegisterAllocator_writes fuel graph :
  stable R (StraightForwardRegisterAllocator cfg fuel graph).
Proof.
  pose proof ComputePostDominatingHoles_writes. pose proof AllocateRegisters_writes.
  unfold StraightForwardRegisterAllocator. stable_tac.
Qed.

End Writes.
(** ** What a run of the allocator leaves alone *)

Lemma same_shape_refl nd : same_shape nd nd.
Proof. by repeat split. Qed.

Lemma same_shape_trans nd1 nd2 nd3 :
  same_shape nd1 nd2 → same_shape nd2 nd3 → same_shape nd1 nd3.
Proof. unfold same_shape. intros H1 H2. destruct_and!. split_and!; congruence. Qed.

Global Instance shape_rel_preorder : PreOrder shape_rel.
Proof.
  split.
  - intros s p. destruct (node_store s !! p); constructor. apply same_shape_refl.
  - intros s1 s2 s3 H12 H23 p. specialize (H12 p). specialize (H23 p).
    destruct H12; inversion H23; simplify_eq; constructor.
    by eapply same_shape_trans.
Qed.

Global Instance holes_rel_preorder : PreOrder holes_rel.
Proof.
  split; [by intros s p|]. intros s1 s2 s3 H12 H23 p. by rewrite H23, H12.
Qed.

Global Instance stack_rel_preorder : PreOrder stack_rel.
Proof. split; unfold stack_rel; [intros s; lia|intros s1 s2 s3; lia]. Qed.

(** Reads of and writes to one node. *)
Lemma node_at_inv p st nd st' t :
  node_at p st = Some (nd, st', t) → node_store st !! p = Some nd ∧ st' = st ∧ t = [].
Proof.
  unfold node_at, bind, gets, deref, ret. intros H.
  destruct (node_store st !! p) as [n0|] eqn:Hp; [|done]. by simplify_eq.
Qed.

Lemma input_at_inv n k st i st' t :
  input_at n k st = Some (i, st', t) →
  ∃ nd, node_store st !! n = Some nd ∧ inputs nd !! k = Some i ∧ st' = st ∧ t = [].
Proof.
  unfold input_at. intros H.
  apply bind_Some in H as (nd & st1 & t1 & t2 & Hnd & H & ->).
  apply node_at_inv in Hnd as (Hnd & -> & ->).
  unfold deref, ret in H. destruct (inputs nd !! k) as [i0|] eqn:Hk; [|done].
  simplify_eq. eauto.
Qed.

Lemma update_node_run_inv p f st st' t :
  update_node p f st = Some (tt, st', t) →
  ∃ nd, node_store st !! p = Some nd ∧ st' = with_node_store (insert p (f nd)) st.
Proof.
  intros H. unfold update_node in H.
  apply bind_Some in H as (n & st1 & t1 & t2 & Hn & H & ->).
  apply node_at_inv in Hn as (Hn & -> & ->).
  unfold modify in H. simplify_eq. eauto.
Qed.






(** The writes of the allocator, down to the setters of the state;
    [fin] closes the goals about the setters. *)
Ltac frame_writes fin :=
  intros; unfold AllocateSpillSlot, MakeLive, AddMoveBeforeCurrentNode, set_target_state,
    update_info, set_reg, update_block, free_slots_Add, free_slots_first,
    free_slots_DropHead;
  stable_with fin.





(** ** Stack slots *)

Lemma AllocateSpillSlot_run info st :
  AllocateSpillSlot info st =
    i ← values_ st !! info;
    Some (tt,
          match free_slots_ st with
          | [] =>
              with_values_
                (insert info
                   (info_with_stack_slot (Some (NewStackSlot kTagged (top_of_stack_ st))) i))
                (with_top_of_stack_ (top_of_stack_ st + 1) st)
          | s :: _ =>
              with_values_ (insert info (info_with_stack_slot (Some s) i))
                (with_free_slots_ tail st)
          end, []).
Proof.
  unfold AllocateSpillSlot, free_slots_first, free_slots_DropHead, update_info, info_at,
    bind, gets, modify, deref, ret.
  destruct (free_slots_ st) as [|s l] eqn:Hfree; simpl;
    destruct (values_ st !! info) as [i|] eqn:Hinfo; simpl; reflexivity.
Qed.

Lemma AllocateSpillSlot_stack info : stable stack_rel (AllocateSpillSlot info).
Proof.
  intros st [] st' t H. rewrite AllocateSpillSlot_run in H.
  destruct (values_ st !! info) as [i|]; [|done]. simpl in H. simplify_eq.
  unfold stack_rel. destruct (free_slots_ st); st_simpl; lia.
Qed.

Ltac frame_fields :=
  frame_writes ltac:(intros ?; unfold stack_rel, same_on; st_simpl;
                     first [lia|by rewrite ?length_insert]).

Lemma AllocateRegisters_stack cfg graph : stable stack_rel (AllocateRegisters cfg graph).
Proof.
  apply AllocateRegisters_writes; try apply _;
    try solve [unfold input_SetAllocated, result_SetAllocated, SetNoSpillOrHint, node_Spill,
                 assign_temporaries, update_node; frame_fields].
  apply AllocateSpillSlot_stack.
Qed.

Lemma AllocateRegisters_file_length cfg graph :
  stable (same_on (λ st, length (register_values_ st))) (AllocateRegisters cfg graph).
Proof.
  apply AllocateRegisters_writes; try apply _;
    try solve [unfold input_SetAllocated, result_SetAllocated, SetNoSpillOrHint, node_Spill,
                 assign_temporaries, update_node; frame_fields].
Qed.

(** X6.  A run of [AllocateRegisters] never lowers [top_of_stack_] and
    never changes the number of entries of the register file. *)
Theorem AllocateRegisters_stack_and_file (cfg : Config) (graph : list BlockPtr)
    (st st' : State) (t : list TraceEvent) :
  AllocateRegisters cfg graph st = Some (tt, st', t) →
  top_of_stack_ st ≤ top_of_stack_ st' ∧
  length (register_values_ st') = length (register_values_ st).
Proof.
  intros Hrun. split.
  - by eapply AllocateRegisters_stack.
  - by eapply (AllocateRegisters_file_length cfg graph).
Qed.

(** ** Blocks *)

Lemma same_block_refl b : same_block b b.
Proof.
  unfold same_block. split_and!; try done.
  destruct (state b); constructor. done.
Qed.

Global Instance block_rel_preorder : PreOrder block_rel.
Proof.
  split.
  - intros s b. destruct (block_store s !! b); constructor. apply same_block_refl.
  - intros s1 s2 s3 H12 H23 b. specialize (H12 b). specialize (H23 b).
    destruct H12 as [x y Hxy|]; inversion H23 as [y' z Hyz|]; simplify_eq; constructor.
    unfold same_block in *. destruct_and!. split_and!; try congruence.
    destruct (state x), (state y), (state z);
      repeat match goal with H : option_Forall2 _ _ _ |- _ => inversion H; clear H end;
      simplify_eq; constructor.
    destruct_and!. split; congruence.
Qed.


Lemma block_at_inv b st blk st' t :
  block_at b st = Some (blk, st', t) → block_store st !! b = Some blk ∧ st' = st ∧ t = [].
Proof.
  unfold block_at, bind, gets, deref, ret. intros H.
  destruct (block_store st !! b) as [b0|] eqn:Hb; [|done]. by simplify_eq.
Qed.

Lemma gets_inv {A} (f : State → A) st a st' t :
  gets f st = Some (a, st', t) → a = f st ∧ st' = st ∧ t = [].
Proof. unfold gets. intros H. by simplify_eq. Qed.


Lemma update_block_inv b f st st' t :
  update_block b f st = Some (tt, st', t) →
  ∃ blk, block_store st !! b = Some blk ∧ st' = with_block_store (insert b (f blk)) st.
Proof.
  intros H. unfold update_block in H.
  apply bind_Some in H as (blk & st1 & t1 & t2 & Hb & H & ->).
  apply block_at_inv in Hb as (Hb & -> & ->).
  unfold modify in H. simplify_eq. eauto.
Qed.







(** ** The trace when the flag is off *)

Lemma silent_ret {A} (a : A) : silent (ret a).
Proof. intros st a' st' t H. unfold ret in H. by simplify_eq. Qed.

Lemma silent_gets {A} (f : State → A) : silent (gets f).
Proof. intros st a' st' t H. unfold gets in H. by simplify_eq. Qed.

Lemma silent_modify f : silent (modify f).
Proof. intros st a' st' t H. unfold modify in H. by simplify_eq. Qed.

Lemma silent_abort {A} : silent (@abort A).
Proof. by intros st a' st' t H. Qed.

Lemma silent_deref {A} (o : option A) : silent (deref o).
Proof. destruct o; [apply silent_ret|apply silent_abort]. Qed.

Lemma silent_bind {A B} (m : M A) (k : A → M B) :
  silent m → (∀ a, silent (k a)) → silent (bind m k).
Proof.
  intros Hm Hk st b st2 t H.
  apply bind_Some in H as (a & st1 & t1 & t2 & H1 & H2 & ->).
  by rewrite (Hm _ _ _ _ H1), (Hk _ _ _ _ _ H2).
Qed.

Lemma silent_when b (m : M unit) : silent m → silent (when b m).
Proof. destruct b; [done|intros _; apply silent_ret]. Qed.

Lemma silent_forM_ {X} (l : list X) (f : X → M unit) :
  (∀ x, silent (f x)) → silent (forM_ l f).
Proof.
  intros Hf. induction l as [|x l IH]; simpl.
  - apply silent_ret.
  - apply silent_bind; [apply Hf|by intros _].
Qed.

Create HintDb silent_db discriminated.

Ltac silent_step :=
  lazymatch goal with
  | |- ∀ _, _ => intros ?
  | |- silent (bind _ _) => apply silent_bind
  | |- silent (ret _) => apply silent_ret
  | |- silent (gets _) => apply silent_gets
  | |- silent (modify _) => apply silent_modify
  | |- silent abort => apply silent_abort
  | |- silent (deref _) => apply silent_deref
  | |- silent (when false _) => apply silent_ret
  | |- silent (when (FLAG_trace_maglev_regalloc _) _) =>
      progress cbn [FLAG_trace_maglev_regalloc]
  | |- silent (when _ _) => apply silent_when
  | |- silent (forM_ _ _) => apply silent_forM_
  | |- silent (match ?x with _ => _ end) => destruct x
  | |- silent (let _ := _ in _) => cbv zeta
  | |- silent ?m => let h := head_of m in progress unfold h
  end.

Ltac silent_tac := repeat first [solve [auto 2 with silent_db nocore] | silent_step].

Section Silent.
Context (regs : list Register) (try_move : bool).

Abbreviation off := (mkConfig regs false try_move).

Lemma Free_find_move_silent skip n l index : silent (Free_find_move skip n l index).
Proof. revert index. induction l; intros index; simpl; silent_tac. Qed.
Hint Resolve Free_find_move_silent : silent_db.

Lemma Free_find_existing_silent p l : silent (Free_find_existing p l).
Proof. induction l; simpl; silent_tac. Qed.
Hint Resolve Free_find_existing_silent : silent_db.

Lemma first_empty_register_silent l : silent (first_empty_register l).
Proof. induction l; simpl; silent_tac. Qed.
Hint Resolve first_empty_register_silent : silent_db.

Lemma furthest_register_silent l f : silent (furthest_register l f).
Proof. revert f. induction l; intros f; simpl; silent_tac. Qed.
Hint Resolve furthest_register_silent : silent_db.

Lemma collect_free_registers_silent cfg l free count :
  silent (collect_free_registers cfg l free count).
Proof. revert free count. induction l; intros free count; simpl; silent_tac. Qed.
Hint Resolve collect_free_registers_silent : silent_db.

Lemma longest_scan_silent l u lg : silent (longest_scan l u lg).
Proof. revert u lg. induction l; intros u lg; simpl; silent_tac. Qed.
Hint Resolve longest_scan_silent : silent_db.

Lemma Spill_silent info : silent (Spill off info).
Proof. unfold Spill. cbn [FLAG_trace_maglev_regalloc]. silent_tac. Qed.
Hint Resolve Spill_silent : silent_db.

Lemma Free_silent r b : silent (Free off r b).
Proof. unfold Free. cbn [FLAG_trace_maglev_regalloc]. silent_tac. Qed.
Hint Resolve Free_silent : silent_db.

Lemma AllocateRegister_silent info : silent (AllocateRegister off info).
Proof. unfold AllocateRegister. silent_tac. Qed.
Hint Resolve AllocateRegister_silent : silent_db.

Lemma ForceAllocate_silent r info b : silent (ForceAllocate off r info b).
Proof. unfold ForceAllocate. silent_tac. Qed.
Hint Resolve ForceAllocate_silent : silent_db.

Lemma evict_registers_silent count u lg free :
  silent (evict_registers off count u lg free).
Proof. revert u lg free. induction count; intros u lg free; simpl; silent_tac. Qed.
Hint Resolve evict_registers_silent : silent_db.

Lemma AllocateNode_silent item : silent (AllocateNode off item).
Proof. unfold AllocateNode. cbn [FLAG_trace_maglev_regalloc]. silent_tac. Qed.
Hint Resolve AllocateNode_silent : silent_db.

Lemma TryAllocateToInput_loop_silent info phi ins :
  silent (TryAllocateToInput_loop off info phi ins).
Proof.
  induction ins; cbn [TryAllocateToInput_loop FLAG_trace_maglev_regalloc]; silent_tac.
Qed.
Hint Resolve TryAllocateToInput_loop_silent : silent_db.

Lemma ActivatePhis_silent ps : silent (ActivatePhis off ps).
Proof. unfold ActivatePhis. cbn [FLAG_trace_maglev_regalloc]. silent_tac. Qed.
Hint Resolve ActivatePhis_silent : silent_db.

Lemma MergeRegisterValues_silent control target pred :
  silent (MergeRegisterValues off control target pred).
Proof. unfold MergeRegisterValues. silent_tac. Qed.
Hint Resolve MergeRegisterValues_silent : silent_db.

Lemma AllocateControlNode_silent n block : silent (AllocateControlNode off n block).
Proof. unfold AllocateControlNode. cbn [FLAG_trace_maglev_regalloc]. silent_tac. Qed.
Hint Resolve AllocateControlNode_silent : silent_db.

Lemma AllocateNodes_silent fuel : silent (AllocateNodes off fuel).
Proof. induction fuel; cbn [AllocateNodes]; silent_tac. Qed.
Hint Resolve AllocateNodes_silent : silent_db.

Lemma AllocateRegisters_silent graph : silent (AllocateRegisters off graph).
Proof.
  unfold AllocateRegisters, AllocateBlock. cbn [FLAG_trace_maglev_regalloc]. silent_tac.
Qed.

End Silent.

(** X8.  With the trace flag off a run of [AllocateRegisters] writes
    nothing to the trace. *)
Theorem AllocateRegisters_flag_off_silent (cfg : Config) (graph : list BlockPtr)
    (st st' : State) (t : list TraceEvent) :
  FLAG_trace_maglev_regalloc cfg = false →
  AllocateRegisters cfg graph st = Some (tt, st', t) →
  t = [].
Proof.
  destruct cfg as [regs f d]. simpl. intros -> Hrun.
  by eapply AllocateRegisters_silent.
Qed.
(** ** Invariants of the whole run *)

Global Instance keeps_preorder (I : State → Prop) : PreOrder (keeps I).
Proof. split; unfold keeps; [by intros s|intros s1 s2 s3; tauto]. Qed.

Lemma keeps_wlp (I : State → Prop) {A} (m : M A) :
  (∀ st, I st → wlp m (λ _, I) st) → stable (keeps I) m.
Proof. intros H st a st' t E HI. by eapply H. Qed.

Lemma keeps_stable (I : State → Prop) {A} (m : M A) st :
  stable (keeps I) m → I st → wlp m (λ _, I) st.
Proof. intros H HI a st' t E. by eapply H. Qed.

(** Use that the first action keeps an invariant that holds. *)
Ltac wlp_keep H :=
  wlp_open; eapply wlp_mono; [eapply keeps_stable; [apply H|eassumption]|cbv beta].

(** An invariant that reads the state through [proj] is kept by what
    leaves [proj] alone. *)
Lemma keeps_same_on {X} (proj : State → X) (I : State → Prop) {A} (m : M A) :
  (∀ s s', proj s' = proj s → I s → I s') →
  stable (same_on proj) m → stable (keeps I) m.
Proof. intros HI Hm st a st' t E H. eapply HI; [|done]. by eapply Hm. Qed.

(** *** The register file holds no dangling pointer *)

Lemma file_live_view cfg s s' :
  alloc_view s' = alloc_view s → file_live cfg s → file_live cfg s'.
Proof. unfold file_live, alloc_view. by intros [= -> ->]. Qed.

Ltac live_view :=
  intros; apply (keeps_same_on alloc_view); [apply file_live_view|stable_tac].

Lemma update_info_file_live cfg p f : stable (keeps (file_live cfg)) (update_info p f).
Proof.
  apply keeps_wlp. intros st Hlive. wlp_run.
  intros i q Hi Hq. st_simpl. destruct (decide (p = q)) as [<-|Hne].
  - by rewrite lookup_insert_eq.
  - rewrite lookup_insert_ne by done. by eapply Hlive.
Qed.

Lemma clear_reg_file_live cfg i : stable (keeps (file_live cfg)) (set_reg i None).
Proof.
  apply keeps_wlp. intros st Hlive. wlp_run.
  intros j q Hj Hq. st_simpl. destruct (decide (i = j)) as [<-|Hne].
  - apply list_lookup_insert_Some in Hq as [(_ & ? & _)|[? _]]; done.
  - rewrite list_lookup_insert_ne in Hq by done. by eapply Hlive.
Qed.

Lemma AllocateSpillSlot_file_live cfg p : stable (keeps (file_live cfg)) (AllocateSpillSlot p).
Proof.
  pose proof (update_info_file_live cfg).
  unfold AllocateSpillSlot, free_slots_first, free_slots_DropHead.
  stable_with ltac:(by intros ? ?).
Qed.

Lemma MakeLive_file_live cfg n : stable (keeps (file_live cfg)) (MakeLive n).
Proof.
  apply keeps_wlp. intros st Hlive. unfold MakeLive. wlp_run.
  intros i q Hi Hq. st_simpl. destruct (decide (n = q)) as [<-|Hne].
  - by rewrite lookup_insert_eq.
  - rewrite lookup_insert_ne by done. by eapply Hlive.
Qed.

Lemma SetRegister_file_live cfg r info :
  stable (keeps (file_live cfg)) (SetRegister cfg r info).
Proof.
  apply keeps_wlp. intros st Hlive. unfold SetRegister. wlp_run.
  intros j q Hj Hq. st_simpl.
  match goal with H : MapRegisterToIndex cfg r = Some ?k |- _ =>
    destruct (decide (k = j)) as [<-|Hne] end.
  - apply list_lookup_insert_Some in Hq as [(_ & ? & _)|[? _]]; [|done].
    simplify_eq. by rewrite lookup_insert_eq.
  - rewrite list_lookup_insert_ne in Hq by done.
    destruct (decide (info = q)) as [<-|Hne'].
    + by rewrite lookup_insert_eq.
    + rewrite lookup_insert_ne by done. by eapply Hlive.
Qed.

Lemma UpdateInputUseAndClearDead_file_live cfg use input :
  stable (keeps (file_live cfg)) (UpdateInputUseAndClearDead cfg use input).
Proof.
  apply keeps_wlp. intros st Hlive. unfold UpdateInputUseAndClearDead. wlp_run; try done.
  - set (n := input_node input).
    wlp_open. eapply wlp_mono.
    { eapply wlp_forM_rest with (I := λ rest s,
        values_ s = values_ st ∧
        (∀ j q, register_values_ s !! j = Some (Some q) →
                register_values_ st !! j = Some (Some q)) ∧
        (∀ j, (j < kAllocatableGeneralRegisterCount cfg)%nat → j ∉ rest →
              register_values_ s !! j ≠ Some (Some n))).
      - split_and!; try done. intros j Hj Hnot. exfalso. apply Hnot.
        by apply elem_of_register_indices.
      - intros i rest s (Hv & Hsub & Hdone). wlp_run.
        + split_and!; [done| |].
          * intros j q Hq. destruct (decide (i = j)) as [<-|Hne].
            -- apply list_lookup_insert_Some in Hq as [(_ & ? & _)|[? _]]; done.
            -- rewrite list_lookup_insert_ne in Hq by done. by apply Hsub.
          * intros j Hj Hnot. destruct (decide (i = j)) as [<-|Hne].
            -- intros Hq. apply list_lookup_insert_Some in Hq as [(_ & ? & _)|[? _]]; done.
            -- rewrite list_lookup_insert_ne by done. apply Hdone; [done|].
               rewrite elem_of_cons. intros [?|?]; done.
        + split_and!; [done|done|].
          intros j Hj Hnot. destruct (decide (i = j)) as [<-|Hne].
          * congruence.
          * apply Hdone; [done|]. rewrite elem_of_cons. intros [?|?]; done. }
    cbv beta. intros _ s1 (Hv & Hsub & Hdone). wlp_run.
    all: intros j q Hj Hq; st_simpl; rewrite Hv.
    all: assert (q ≠ n) as Hne by
         (intros ->; eapply (Hdone j); [done|apply not_elem_of_nil|done]).
    all: rewrite lookup_delete_ne by done; eapply Hlive; [done|by apply Hsub].
  - intros j q Hj Hq. st_simpl.
    destruct (decide (input_node input = q)) as [<-|Hne].
    + by rewrite lookup_insert_eq.
    + rewrite lookup_insert_ne by done. by eapply Hlive.
Qed.

Lemma InitializeRegisterValues_file_live cfg ts :
  stable (keeps (file_live cfg)) (InitializeRegisterValues cfg ts).
Proof.
  pose proof (update_info_file_live cfg). pose proof (clear_reg_file_live cfg).
  unfold InitializeRegisterValues.
  apply stable_bind; [apply _|stable_tac|]. intros _.
  apply stable_forM_; [apply _|]. intros i _.
  apply keeps_wlp. intros st Hlive. wlp_run; [|done].
  intros j q Hj Hq. st_simpl.
  match goal with |- is_Some (<[?p := _]> _ !! _) =>
    destruct (decide (p = q)) as [<-|Hne] end.
  - by rewrite lookup_insert_eq.
  - rewrite lookup_insert_ne by done.
    destruct (decide (i = j)) as [<-|Hne'].
    + apply list_lookup_insert_Some in Hq as [(_ & ? & _)|[? _]]; [|done]. congruence.
    + rewrite list_lookup_insert_ne in Hq by done. by eapply Hlive.
Qed.

Lemma AllocateRegisters_file_live cfg graph :
  stable (keeps (file_live cfg)) (AllocateRegisters cfg graph).
Proof.
  pose proof (update_info_file_live cfg). pose proof (clear_reg_file_live cfg).
  pose proof (AllocateSpillSlot_file_live cfg). pose proof (MakeLive_file_live cfg).
  pose proof (SetRegister_file_live cfg).
  pose proof (UpdateInputUseAndClearDead_file_live cfg).
  pose proof (InitializeRegisterValues_file_live cfg).
  assert (∀ info, stable (keeps (file_live cfg)) (Spill cfg info)) as HSpill.
  { intros info. apply Spill_writes; [apply _|done|live_view]. }
  apply AllocateRegisters_frame; try done; try apply _; try solve [live_view].
  intros n. apply AllocateNodeResult_frame; try done; try apply _; try solve [live_view].
Qed.

(** X9.  No pointer of the register file dangles: if every entry of the
    register file points at a liveness record of [values_] before a run of
    [AllocateRegisters], so it does after, although the run erases the
    records of the values that die. *)
Theorem AllocateRegisters_keeps_file_live (cfg : Config) (graph : list BlockPtr)
    (st st' : State) (t : list TraceEvent) :
  file_live cfg st →
  AllocateRegisters cfg graph st = Some (tt, st', t) →
  file_live cfg st'.
Proof. intros Hlive Hrun. by eapply AllocateRegisters_file_live. Qed.
(** *** Stack slots are not shared *)

Lemma slots_ok_view s s' : slots_view s' = slots_view s → slots_ok s → slots_ok s'.
Proof.
  unfold slots_view. intros [= Hv Hf Ht Hn].
  unfold slots_ok, slot_table_ok, fixed_slots_negative, spill_slots_bounded, slot_of.
  by rewrite Hv, Hf, Ht, Hn.
Qed.

Ltac slots_view_tac :=
  intros; apply (keeps_same_on slots_view); [apply slots_ok_view|stable_tac].

(** Fewer slots in use, the same free-list and nodes. *)
Lemma slot_table_ok_sub st st' :
  (∀ p s, slot_of st' p = Some s → slot_of st p = Some s) →
  free_slots_ st' = free_slots_ st → top_of_stack_ st' = top_of_stack_ st →
  slot_table_ok st → slot_table_ok st'.
Proof.
  intros Hsub Hf Ht (H0 & Hb & Hfb & Hnd & Hnf & Hd).
  unfold slot_table_ok. rewrite Hf, Ht. split_and!; eauto.
Qed.

Lemma slot_of_insert st p i q :
  slot_of (with_values_ (insert p i) st) q
  = if decide (p = q) then stack_slot i else slot_of st q.
Proof.
  unfold slot_of. st_simpl. destruct (decide (p = q)) as [<-|Hne].
  - by rewrite lookup_insert_eq.
  - by rewrite lookup_insert_ne.
Qed.

Lemma slots_ok_update st p i i' :
  values_ st !! p = Some i → stack_slot i' = stack_slot i →
  slots_ok st → slots_ok (with_values_ (insert p i') st).
Proof.
  intros Hp Hs (Ht & Hfix & Hsp). split_and!; [|exact Hfix|exact Hsp].
  eapply (slot_table_ok_sub st); [|reflexivity|reflexivity|exact Ht].
  intros q s. rewrite slot_of_insert. destruct (decide (p = q)) as [<-|]; [|done].
  unfold slot_of. rewrite Hp. simpl. congruence.
Qed.

Lemma update_info_slots p f :
  (∀ i, stack_slot (f i) = stack_slot i) → stable (keeps slots_ok) (update_info p f).
Proof.
  intros Hf. apply keeps_wlp. intros st Hok. wlp_run. by eapply slots_ok_update.
Qed.

Lemma MakeLive_slots n : stable (keeps slots_ok) (MakeLive n).
Proof.
  apply keeps_wlp. intros st (Ht & Hfix & Hsp). unfold MakeLive. wlp_run.
  split_and!; [|exact Hfix|exact Hsp].
  eapply (slot_table_ok_sub st); [|reflexivity|reflexivity|exact Ht].
  intros q s. rewrite slot_of_insert. destruct (decide (n = q)); done.
Qed.

(** Writes to a node that keep its result operand or allocate it, and
    keep its spill slot or clear it. *)
Lemma update_node_slots p f :
  (∀ nd, result (f nd) = result nd ∨ ∃ a, result (f nd) = Allocated a) →
  (∀ nd, spill_slot (f nd) = spill_slot nd ∨ spill_slot (f nd) = None) →
  stable (keeps slots_ok) (update_node p f).
Proof.
  intros Hres Hspill. apply keeps_wlp. intros st (Ht & Hfix & Hsp). wlp_run.
  split_and!.
  - eapply (slot_table_ok_sub st); [|reflexivity|reflexivity|exact Ht]. done.
  - intros n nd i Hn Hr. st_simpl. destruct (decide (p = n)) as [<-|Hne].
    + rewrite lookup_insert_eq in Hn. simplify_eq.
      destruct (Hres a) as [He|[b He]]; rewrite He in Hr; [by eapply Hfix|done].
    + rewrite lookup_insert_ne in Hn by done. by eapply Hfix.
  - intros n nd b Hn Hr. st_simpl. destruct (decide (p = n)) as [<-|Hne].
    + rewrite lookup_insert_eq in Hn. simplify_eq.
      destruct (Hspill a) as [He|He]; rewrite He in Hr; [by eapply Hsp|done].
    + rewrite lookup_insert_ne in Hn by done. by eapply Hsp.
Qed.

Lemma input_SetAllocated_slots n k a : stable (keeps slots_ok) (input_SetAllocated n k a).
Proof.
  unfold input_SetAllocated. apply stable_bind; [apply _|stable_tac|].
  intros i. apply update_node_slots; intros nd; by left.
Qed.

Lemma result_SetAllocated_slots n a : stable (keeps slots_ok) (result_SetAllocated n a).
Proof. apply update_node_slots; intros nd; [right; by eexists|by left]. Qed.

Lemma SetNoSpillOrHint_slots n : stable (keeps slots_ok) (SetNoSpillOrHint n).
Proof. apply update_node_slots; intros nd; [by left|by right]. Qed.

Lemma assign_temporaries_slots n l : stable (keeps slots_ok) (assign_temporaries n l).
Proof. apply update_node_slots; intros nd; by left. Qed.

Lemma AllocateSpillSlot_slots p : stable (keeps slots_ok) (AllocateSpillSlot p).
Proof.
  intros st [] st' t H ((H0 & Hb & Hfb & Hnd & Hnf & Hd) & Hfix & Hsp).
  rewrite AllocateSpillSlot_run in H.
  destruct (values_ st !! p) as [i|] eqn:Hp; [|done]. simpl in H.
  destruct (free_slots_ st) as [|s l] eqn:Hfree; simplify_eq.
  - (* a new slot *)
    split_and!; [|exact Hfix|].
    + unfold slot_table_ok. st_simpl. rewrite Hfree.
      split_and!; [lia| |by intros s Hs%elem_of_nil|constructor|
                   by intros q s _ Hs%elem_of_nil|].
      * intros q s. rewrite slot_of_insert.
        destruct (decide (p = q)) as [<-|_]; simpl.
        -- intros [= <-]. unfold slot_index. simpl. lia.
        -- intros Hq. specialize (Hb q s Hq). lia.
      * intros q1 q2 s s' Hne. rewrite !slot_of_insert.
        destruct (decide (p = q1)) as [<-|_], (decide (p = q2)) as [<-|_]; simpl;
          try done.
        -- intros [= <-] Hq _. specialize (Hb _ _ Hq). unfold slot_index at 1. simpl. lia.
        -- intros Hq [= <-] _. specialize (Hb _ _ Hq). unfold slot_index at 2. simpl. lia.
        -- by apply Hd.
    + intros n nd a Hn Ha. st_simpl. specialize (Hsp n nd a Hn Ha). lia.
  - (* the head of the free-list *)
    simpl in Hnd. apply NoDup_cons in Hnd as [Hs Hnd].
    split_and!; [|exact Hfix|exact Hsp].
    unfold slot_table_ok. st_simpl. rewrite Hfree. simpl.
    split_and!; [done| | |done| |].
    + intros q s0. rewrite slot_of_insert.
      destruct (decide (p = q)) as [<-|_]; simpl.
      * intros [= <-]. apply Hfb. by left.
      * apply Hb.
    + intros s0 Hs0. apply Hfb. by right.
    + intros q s0. rewrite slot_of_insert.
      destruct (decide (p = q)) as [<-|_]; simpl.
      * by intros [= <-].
      * intros Hq Hin. eapply Hnf; [done|]. simpl. by right.
    + intros q1 q2 s1 s2 Hne. rewrite !slot_of_insert.
      destruct (decide (p = q1)) as [<-|_], (decide (p = q2)) as [<-|_]; simpl;
        try done.
      * intros [= <-] Hq _ Heq. eapply Hnf; [done|]. simpl.
        apply elem_of_cons. left. congruence.
      * intros Hq [= <-] _ Heq. eapply Hnf; [done|]. simpl.
        apply elem_of_cons. left. congruence.
      * by apply Hd.
Qed.

(** Writing on a node the slot of a live value. *)
Lemma slots_ok_node_Spill st p i s n nd :
  values_ st !! p = Some i → stack_slot i = Some s →
  node_store st !! n = Some nd →
  slots_ok st →
  slots_ok (with_node_store (insert n (node_with_spill_slot (Some (slot s)) nd)) st).
Proof.
  intros Hp Hs Hn (Ht & Hfix & Hsp). split_and!.
  - eapply (slot_table_ok_sub st); [|reflexivity|reflexivity|exact Ht]. done.
  - intros m md k Hm Hr. st_simpl. destruct (decide (n = m)) as [<-|Hne].
    + rewrite lookup_insert_eq in Hm. simplify_eq. by eapply Hfix.
    + rewrite lookup_insert_ne in Hm by done. by eapply Hfix.
  - intros m md b Hm Hr. st_simpl. destruct (decide (n = m)) as [<-|Hne].
    + rewrite lookup_insert_eq in Hm. simplify_eq. simpl in Hr. simplify_eq.
      destruct Ht as (_ & Hb & _). apply (Hb p s). unfold slot_of. by rewrite Hp.
    + rewrite lookup_insert_ne in Hm by done. by eapply Hsp.
Qed.

Lemma Spill_slots cfg info : stable (keeps slots_ok) (Spill cfg info).
Proof.
  apply keeps_wlp. intros st Hok. unfold Spill. wlp_open. wlp_readonly.
  intros i ? <-. destruct (stack_slot i); [by wlp_run|].
  wlp_keep AllocateSpillSlot_slots.
  intros _ st1 Hok1. unfold node_Spill. wlp_run.
  all: by eapply slots_ok_node_Spill.
Qed.

Lemma slot_of_delete st n q :
  slot_of (with_values_ (delete n) st) q = if decide (n = q) then None else slot_of st q.
Proof.
  unfold slot_of. st_simpl. destruct (decide (n = q)) as [<-|Hne].
  - by rewrite lookup_delete_eq.
  - by rewrite lookup_delete_ne.
Qed.

Lemma slots_ok_delete st n : slots_ok st → slots_ok (with_values_ (delete n) st).
Proof.
  intros (Ht & Hfix & Hsp). split_and!; [|exact Hfix|exact Hsp].
  eapply (slot_table_ok_sub st); [|reflexivity|reflexivity|exact Ht].
  intros q s. rewrite slot_of_delete. by destruct (decide (n = q)).
Qed.

(** The slot of a value that dies goes to the free-list. *)
Lemma slots_ok_free st n s :
  slot_of st n = Some s → 0 < slot_index s →
  slots_ok st →
  slots_ok (with_values_ (delete n) (with_free_slots_ (λ l, l ++ [s]) st)).
Proof.
  intros Hn Hpos ((H0 & Hb & Hfb & Hnd & Hnf & Hd) & Hfix & Hsp).
  split_and!; [|exact Hfix|exact Hsp].
  unfold slot_table_ok. st_simpl.
  assert (Hof : ∀ q s', slot_of (with_values_ (delete n)
                                   (with_free_slots_ (λ l, l ++ [s]) st)) q = Some s' →
                        n ≠ q ∧ slot_of st q = Some s').
  { intros q s'. rewrite slot_of_delete. by destruct (decide (n = q)). }
  split_and!; [done| | | | |].
  - intros q s' [_ Hq]%Hof. by eapply Hb.
  - intros s' [Hs'|Hs'%list_elem_of_singleton]%elem_of_app; [by apply Hfb|].
    subst. split; [done|]. by apply (Hb n).
  - rewrite fmap_app. apply NoDup_app. split_and!; [done| |].
    + intros x Hx [->|[]%elem_of_nil]%elem_of_cons. by eapply Hnf.
    + simpl. apply NoDup_singleton.
  - intros q s' [Hne Hq]%Hof. rewrite fmap_app.
    intros [Hin|Hin]%elem_of_app; [by eapply Hnf|].
    simpl in Hin. apply list_elem_of_singleton in Hin.
    eapply (Hd n q s s'); try done. lia.
  - intros q1 q2 s1 s2 Hne [_ H1]%Hof [_ H2]%Hof. exact (Hd q1 q2 s1 s2 Hne H1 H2).
Qed.

Lemma set_reg_slots i v : stable (keeps slots_ok) (set_reg i v).
Proof. slots_view_tac. Qed.

Lemma UpdateInputUseAndClearDead_slots cfg use input :
  stable (keeps slots_ok) (UpdateInputUseAndClearDead cfg use input).
Proof.
  apply keeps_wlp. intros st Hok. unfold UpdateInputUseAndClearDead. wlp_run; try done.
  - wlp_stable (same_on slots_view). intros _ s1 Hview.
    assert (Hok1 : slots_ok s1) by by eapply slots_ok_view.
    assert (Hv : values_ s1 = values_ st) by by injection Hview.
    wlp_run.
    + apply slots_ok_free; [|by apply Z.ltb_lt|done].
      unfold slot_of. rewrite Hv.
      match goal with H : values_ st !! _ = Some _ |- _ => rewrite H end. done.
    + by apply slots_ok_delete.
    + by apply slots_ok_delete.
  - by eapply slots_ok_update.
Qed.

Section Slots.
Context (cfg : Config).

Let R := keeps slots_ok.

Lemma update_info_reg_slots p r : stable R (update_info p (info_with_reg r)).
Proof. by apply update_info_slots. Qed.

Lemma SetRegister_slots r info : stable R (SetRegister cfg r info).
Proof.
  apply SetRegister_writes; [apply _|apply update_info_reg_slots|apply set_reg_slots].
Qed.

Lemma AddMoveBeforeCurrentNode_slots s t : stable R (AddMoveBeforeCurrentNode s t).
Proof. slots_view_tac. Qed.

Lemma ForceAllocate_slots r info b : stable R (ForceAllocate cfg r info b).
Proof.
  apply ForceAllocate_frame; try apply _; intros.
  - apply update_info_reg_slots.
  - apply SetRegister_slots.
  - apply set_reg_slots.
  - apply Spill_slots.
  - apply AddMoveBeforeCurrentNode_slots.
Qed.

Lemma AllocateRegister_slots info : stable R (AllocateRegister cfg info).
Proof.
  apply AllocateRegister_frame; try apply _; intros.
  - apply update_info_reg_slots.
  - apply SetRegister_slots.
  - apply set_reg_slots.
  - apply Spill_slots.
  - apply AddMoveBeforeCurrentNode_slots.
Qed.

(** A fixed slot of the caller for a result. *)
Lemma slots_ok_fixed st p i k :
  values_ st !! p = Some i → k < 0 →
  slots_ok st →
  slots_ok (with_values_
              (insert p (info_with_stack_slot (Some (NewStackSlot kTagged k)) i)) st).
Proof.
  intros Hp Hk ((H0 & Hb & Hfb & Hnd & Hnf & Hd) & Hfix & Hsp).
  split_and!; [|exact Hfix|exact Hsp].
  unfold slot_table_ok. st_simpl. split_and!; [done| |done|done| |].
  - intros q s. rewrite slot_of_insert. destruct (decide (p = q)) as [<-|_]; simpl.
    + intros [= <-]. unfold slot_index. simpl. lia.
    + apply Hb.
  - intros q s. rewrite slot_of_insert. destruct (decide (p = q)) as [<-|_]; simpl.
    + intros [= <-] (s' & Heq & Hs')%list_elem_of_fmap. apply Hfb in Hs'.
      unfold slot_index in Heq at 1. simpl in Heq. lia.
    + apply Hnf.
  - intros q1 q2 s1 s2 Hne. rewrite !slot_of_insert.
    destruct (decide (p = q1)) as [<-|_], (decide (p = q2)) as [<-|_]; simpl; try done.
    + intros [= <-] _. unfold slot_index at 1. simpl. lia.
    + intros _ [= <-] Hpos. unfold slot_index at 2. simpl. lia.
    + by apply Hd.
Qed.

Lemma AllocateNodeResult_slots n : stable R (AllocateNodeResult cfg n).
Proof.
  apply keeps_wlp. intros st Hok. unfold AllocateNodeResult.
  wlp_keep MakeLive_slots. intros info st1 Hok1.
  wlp_keep SetNoSpillOrHint_slots. intros _ st2 Hok2.
  unfold node_at. apply wlp_bind, wlp_bind, wlp_gets, wlp_deref. intros nd Hn. cbv beta.
  apply wlp_bind, wlp_deref. intros [k|pol arg] Hc; cbv beta.
  - (* FIXED_SLOT *)
    assert (k < 0) as Hneg.
    { destruct Hok2 as (_ & Hfix & _). apply (Hfix n nd); [done|].
      destruct (result nd) as [|u|]; simpl in Hc; congruence. }
    cbv zeta. apply wlp_bind. unfold update_info, info_at.
    apply wlp_bind, wlp_bind, wlp_gets, wlp_deref. intros i Hi. cbv beta.
    apply wlp_modify.
    eapply (keeps_stable slots_ok); [apply result_SetAllocated_slots|].
    by eapply slots_ok_fixed.
  - destruct pol; wlp_run.
    all: first [wlp_keep ForceAllocate_slots|wlp_keep AllocateRegister_slots].
    all: intros b st3 Hok3; change (wlp (result_SetAllocated n b) (λ _, slots_ok) st3).
    all: by eapply (keeps_stable slots_ok), Hok3; apply result_SetAllocated_slots.
Qed.

Lemma AllocateRegisters_slots graph : stable R (AllocateRegisters cfg graph).
Proof.
  apply AllocateRegisters_frame; try apply _; intros.
  - apply update_info_reg_slots.
  - apply AllocateSpillSlot_slots.
  - apply SetRegister_slots.
  - apply set_reg_slots.
  - apply UpdateInputUseAndClearDead_slots.
  - apply InitializeRegisterValues_writes; [apply _|apply update_info_reg_slots|
                                            apply set_reg_slots].
  - apply MakeLive_slots.
  - apply input_SetAllocated_slots.
  - apply result_SetAllocated_slots.
  - apply SetNoSpillOrHint_slots.
  - apply Spill_slots.
  - apply assign_temporaries_slots.
  - apply AddMoveBeforeCurrentNode_slots.
  - slots_view_tac.
  - slots_view_tac.
  - unfold node_it_begin. slots_view_tac.
  - unfold node_it_next. slots_view_tac.
  - apply AllocateNodeResult_slots.
Qed.

End Slots.

Lemma set_next_post_dominating_hole_slots n h :
  stable (keeps slots_ok) (set_next_post_dominating_hole n h).
Proof. apply update_node_slots; intros nd; by left. Qed.

(** The state the allocator starts in: no live value, no free slot, no
    stack slot. *)
Lemma slots_ok_start rv b it ns bs :
  (∀ n nd i, ns !! n = Some nd → result nd = Unallocated (UFixedSlot i) → i < 0) →
  (∀ n nd, ns !! n = Some nd → spill_slot nd = None) →
  slots_ok (mkState ∅ rv [] 0 b it ns bs).
Proof.
  intros Hfix Hsp. split_and!; [|exact Hfix|].
  - unfold slot_table_ok, slot_of. simpl. split_and!; try done.
    + by intros s Hs%elem_of_nil.
    + constructor.
  - intros n nd a Hn Ha. simpl in *. by rewrite (Hsp n nd Hn) in Ha.
Qed.

(** X10.  Stack slots are never shared.  Let the stack slots be in order
    before a run of [AllocateRegisters]: every slot of a live value and of
    the free-list is below [top_of_stack_], the free-list holds no slot
    twice and no slot of a live value, no two live values have the same
    local slot, every spill slot written on a node is below
    [top_of_stack_], and the fixed slots that result operands ask for are
    negative.  Then the same holds after the run. *)
Theorem AllocateRegisters_keeps_slots (cfg : Config) (graph : list BlockPtr)
    (st st' : State) (t : list TraceEvent) :
  slots_ok st →
  AllocateRegisters cfg graph st = Some (tt, st', t) →
  slots_ok st'.
Proof. intros Hok Hrun. by eapply AllocateRegisters_slots. Qed.
(** ** The first visit to a branch target *)

Lemma set_target_state_entry target i v st st' t :
  set_target_state target i v st = Some (tt, st', t) →
  merge_entry st' target i = Some v.
Proof.
  intros H. unfold set_target_state in H.
  apply bind_Some in H as (blk & sx1 & tx1 & ty1 & Hb & H & ->).
  apply block_at_inv in Hb as (Hb & -> & ->).
  apply bind_Some in H as (ms & sx2 & tx2 & ty2 & Hms & H & ->).
  unfold deref in Hms. destruct (state blk) as [ms0|] eqn:Hstate; [|done].
  unfold ret in Hms. simplify_eq.
  apply bind_Some in H as (e & sx3 & tx3 & ty3 & He & H & ->).
  unfold deref in He. destruct (register_state ms !! i) as [e0|] eqn:Hi; [|done].
  unfold ret in He. simplify_eq.
  apply update_block_inv in H as (blk' & Hblk' & ->). simplify_eq.
  unfold merge_entry. st_simpl. rewrite lookup_insert_eq. simpl.
  apply list_lookup_insert_eq. by eapply lookup_lt_Some.
Qed.

(** X11.  The first visit to a branch target writes every entry of its
    merge state: entry [i] becomes the single-node encoding of the record
    of register [i] when that record is live at the target, and the
    encoding of no record otherwise, both flagged initialized and not
    merged. *)
Theorem InitializeBranchTargetRegisterValues_entry (cfg : Config) (source : NodePtr)
    (target : BlockPtr) (st st' : State) (t : list TraceEvent) (i : nat)
    (info : option InfoPtr) (live : bool) :
  InitializeBranchTargetRegisterValues cfg source target st = Some (tt, st', t) →
  (i < kAllocatableGeneralRegisterCount cfg)%nat →
  register_values_ st !! i = Some info →
  IsLiveAtTarget info source target st = Some (live, st, []) →
  merge_entry st' target i =
    Some (mkRegisterState
            (match info with
             | Some p => if live then PNode p else PNull
             | None => PNull
             end) initialized_node).
Proof.
  intros Hrun Hi Hrv Hlive. unfold InitializeBranchTargetRegisterValues in Hrun.
  apply bind_Some in Hrun as (ts & s0 & t0 & t0' & Hts & Hloop & ->).
  assert (s0 = st) as ->.
  { symmetry. eapply (target_register_state_stable eq); done. }
  set (body := λ i : nat,
    let* info := reg_at i in
    let* live := IsLiveAtTarget info source target in
    let info := if live then info else None in
    set_target_state target i
      (mkRegisterState (match info with Some p => PNode p | None => PNull end)
         initialized_node)) in *.
  unfold register_indices in Hloop. rewrite (seq_split_at _ i Hi) in Hloop.
  apply forM__app_Some in Hloop as (s1 & t1 & t2 & Hpre & Hloop & ->).
  simpl in Hloop.
  apply bind_Some in Hloop as ([] & s2 & t3 & t4 & Hstep & Hpost & ->).
  set (J := λ k : nat, k ≠ i).
  assert (Hmono : ∀ l, (∀ j, j ∈ l → j ≠ i) → stable (merge_rel target J) (forM_ l body)).
  { intros l Hl. apply stable_forM_; [apply _|]. intros j Hj a b c d Hr.
    assert (Hbody : stable (merge_rel target (eq j)) (body j))
      by (unfold body; stable_tac).
    eapply merge_rel_mono; [|by eapply Hbody].
    intros k <-. by apply Hl. }
  assert (HJ : ¬ J i) by (unfold J; naive_solver).
  apply Hmono in Hpre; [|intros j Hj%elem_of_seq; lia].
  apply Hmono in Hpost; [|intros j Hj%elem_of_seq; lia].
  pose proof Hpre as (E1 & E2 & E3 & _).
  assert (Hentry : merge_entry s2 target i =
    Some (mkRegisterState
            (match info with
             | Some p => if live then PNode p else PNull
             | None => PNull
             end) initialized_node)).
  { unfold body in Hstep.
    apply bind_Some in Hstep as (info' & sx1 & tx1 & ty1 & Hinfo & Hstep & ->).
    unfold reg_at, bind, gets, deref, ret in Hinfo. rewrite E2, Hrv in Hinfo.
    injection Hinfo as <- <- <-.
    apply bind_Some in Hstep as (live' & sx2 & tx2 & ty2 & Hl & Hstep & ->).
    rewrite (IsLiveAtTarget_frame _ _ _ _ _ _ _ Hpre Hlive) in Hl.
    injection Hl as <- <- <-.
    apply set_target_state_entry in Hstep. rewrite Hstep.
    by destruct info, live. }
  rewrite (merge_rel_entry _ _ _ _ _ Hpost HJ); [done|]. by rewrite Hentry.
Qed.

(** ** Restoring the register file at a merge point *)

Lemma InitializeRegisterValues_wlp cfg ts st :
  wlp (InitializeRegisterValues cfg ts)
    (λ _ st', ∀ i e nm, (i < kAllocatableGeneralRegisterCount cfg)%nat →
       ts !! i = Some e → LoadMergeState e = Some nm →
       register_values_ st' !! i = Some (fst nm)) st.
Proof.
  unfold InitializeRegisterValues. apply wlp_bind.
  eapply wlp_mono.
  { eapply wlp_forM_rest with (I := λ rest s,
      ∀ j, (j < kAllocatableGeneralRegisterCount cfg)%nat → j ∉ rest →
           register_values_ s !! j = Some None).
    - intros j Hj Hnot. exfalso. by apply Hnot, elem_of_register_indices.
    - intros i rest s HI. wlp_run.
      + intros j Hj Hnot. destruct (decide (i = j)) as [<-|Hne].
        * apply list_lookup_insert_eq. by eapply lookup_lt_Some.
        * rewrite list_lookup_insert_ne by done. apply HI; [done|].
          rewrite elem_of_cons. intros [?|?]; done.
      + intros j Hj Hnot. destruct (decide (i = j)) as [<-|Hne]; [done|].
        apply HI; [done|]. rewrite elem_of_cons. intros [?|?]; done. }
  cbv beta. intros _ s1 Hclear.
  eapply wlp_mono.
  { eapply wlp_forM_rest with (I := λ rest s,
      NoDup rest ∧
      ∀ j, (j < kAllocatableGeneralRegisterCount cfg)%nat →
        (j ∈ rest → register_values_ s !! j = Some None) ∧
        (j ∉ rest → ∀ e nm, ts !! j = Some e → LoadMergeState e = Some nm →
                    register_values_ s !! j = Some (fst nm))).
    - split; [apply NoDup_seq|]. intros j Hj. split.
      + intros _. apply Hclear; [done|]. apply not_elem_of_nil.
      + intros Hnot. exfalso. by apply Hnot, elem_of_register_indices.
    - intros i rest s [Hnd HI]. apply NoDup_cons in Hnd as [Hi Hnd]. wlp_run.
      + split; [done|]. intros j Hj. destruct (HI j Hj) as [Hin Hout]. split.
        * intros Hjr. assert (i ≠ j) by (intros ->; done).
          rewrite list_lookup_insert_ne by done. apply Hin. by right.
        * intros Hjr e nm He Hnm. destruct (decide (i = j)) as [<-|Hne].
          -- assert (e = a) as -> by congruence.
             assert (nm = a0) as -> by congruence.
             rewrite Heqo. apply list_lookup_insert_eq. by eapply lookup_lt_Some.
          -- rewrite list_lookup_insert_ne by done. eapply Hout; [|exact He|exact Hnm].
             rewrite elem_of_cons. intros [?|?]; done.
      + split; [done|]. intros j Hj. destruct (HI j Hj) as [Hin Hout]. split.
        * intros Hjr. apply Hin. by right.
        * intros Hjr e nm He Hnm. destruct (decide (i = j)) as [<-|Hne].
          -- assert (e = a) as -> by congruence.
             assert (nm = a0) as -> by congruence.
             rewrite Heqo. apply Hin. by left.
          -- eapply Hout; [|exact He|exact Hnm].
             rewrite elem_of_cons. intros [?|?]; done. }
  cbv beta. intros _ s2 [_ HI] i e nm Hi He Hnm.
  destruct (HI i Hi) as [_ Hout]. eapply Hout; [apply not_elem_of_nil|done|done].
Qed.

(** X12.  [InitializeRegisterValues] makes the register file the
    register state of the merge point: whatever the file held, entry [i]
    afterwards holds the record of entry [i] of the target state (the
    canonical record of a RegisterMerge), or nothing where the state has
    no record. *)
Theorem InitializeRegisterValues_restores (cfg : Config) (ts : list RegisterState)
    (st st' : State) (t : list TraceEvent) (i : nat) (e : RegisterState)
    (nm : option InfoPtr * option RegisterMerge) :
  InitializeRegisterValues cfg ts st = Some (tt, st', t) →
  (i < kAllocatableGeneralRegisterCount cfg)%nat →
  ts !! i = Some e → LoadMergeState e = Some nm →
  register_values_ st' !! i = Some (fst nm).
Proof.
  intros Hrun. by eapply (InitializeRegisterValues_wlp cfg ts st).
Qed.

(** ** Choosing registers *)

Lemma first_empty_register_run st a n i :
  (a ≤ i < a + n)%nat →
  register_values_ st !! i = Some None →
  (∀ j, (a ≤ j < i)%nat → ∃ p, register_values_ st !! j = Some (Some p)) →
  first_empty_register (seq a n) st = Some (Some i, st, []).
Proof.
  revert a. induction n as [|n IH]; intros a Hi Hempty Hocc; [lia|]. simpl.
  destruct (decide (a = i)) as [->|Hne].
  - by rewrite (bind_run _ _ _ _ _ _ (reg_at_run _ _ _ Hempty)).
  - destruct (Hocc a) as [p Hp]; [lia|].
    rewrite (bind_run _ _ _ _ _ _ (reg_at_run _ _ _ Hp)). cbv beta.
    rewrite (IH (S a)); [done|lia|done|]. intros j Hj. apply Hocc. lia.
Qed.

Lemma SetRegister_run cfg st r i info inf :
  MapRegisterToIndex cfg r = Some i →
  (i < length (register_values_ st))%nat →
  values_ st !! info = Some inf →
  SetRegister cfg r info st
  = Some (tt, with_values_ (insert info (info_with_reg (Some r) inf))
                (with_register_values_ (λ rv, <[i := Some info]> rv) st), []).
Proof.
  intros Hr Hi Hinfo. unfold SetRegister. rewrite Hr. unfold deref.
  rewrite (bind_run _ _ _ _ _ _ eq_refl). cbv beta.
  rewrite (bind_run _ _ _ _ _ _ (set_reg_run _ _ _ Hi)). cbv beta.
  by rewrite (update_info_run _ _ inf).
Qed.

Lemma TryAllocateRegister_run (cfg : Config) (st : State) (info : InfoPtr)
    (inf : LiveNodeInfo) (i : nat) (r : Register) :
  NoDup (allocatable cfg) →
  MapIndexToRegister cfg i = Some r →
  register_values_ st !! i = Some None →
  (∀ j, (j < i)%nat → ∃ p, register_values_ st !! j = Some (Some p)) →
  values_ st !! info = Some inf →
  TryAllocateRegister cfg info st
  = Some (Allocated (RegisterOperand r),
          with_values_ (insert info (info_with_reg (Some r) inf))
            (with_register_values_ (λ rv, <[i := Some info]> rv) st), []).
Proof.
  intros Hnodup Hr Hempty Hocc Hinfo.
  assert (Hi : (i < kAllocatableGeneralRegisterCount cfg)%nat) by by eapply lookup_lt_Some.
  unfold TryAllocateRegister, register_indices.
  assert (Hfirst : first_empty_register (seq 0 (kAllocatableGeneralRegisterCount cfg)) st
                   = Some (Some i, st, [])).
  { apply first_empty_register_run; [lia|done|]. intros j Hj. apply Hocc. lia. }
  rewrite (bind_run _ _ _ _ _ _ Hfirst). cbv beta.
  rewrite Hr. unfold deref. rewrite (bind_run _ _ _ _ _ _ eq_refl). cbv beta.
  rewrite (bind_run _ _ _ _ _ _
             (SetRegister_run cfg st r i info inf (MapIndexToRegister_Some _ _ _ Hnodup Hr)
                ltac:(by eapply lookup_lt_Some) Hinfo)).
  done.
Qed.


(** X13.  [TryAllocateRegister] takes the empty register of lowest
    index: when register [i] is empty and every register below it is
    occupied, the record is bound to [MapIndexToRegister(i)], in the file
    and in its register field, and that register is the operand
    returned; nothing else changes. *)
Theorem TryAllocateRegister_lowest (cfg : Config) (st : State) (info : InfoPtr)
    (inf : LiveNodeInfo) (i : nat) (r : Register) :
  NoDup (allocatable cfg) →
  MapIndexToRegister cfg i = Some r →
  register_values_ st !! i = Some None →
  (∀ j, (j < i)%nat → ∃ p, register_values_ st !! j = Some (Some p)) →
  values_ st !! info = Some inf →
  TryAllocateRegister cfg info st
  = Some (Allocated (RegisterOperand r),
          with_values_ (insert info (info_with_reg (Some r) inf))
            (with_register_values_ (λ rv, <[i := Some info]> rv) st), []).
Proof. apply TryAllocateRegister_run. Qed.

(** X24.  [AllocateRegister] evicts nothing while a register is empty:
    it binds the record to the empty register of lowest index and returns
    that register, as [TryAllocateRegister] does. *)
Theorem AllocateRegister_uses_empty (cfg : Config) (st : State) (info : InfoPtr)
    (inf : LiveNodeInfo) (i : nat) (r : Register) :
  NoDup (allocatable cfg) →
  MapIndexToRegister cfg i = Some r →
  register_values_ st !! i = Some None →
  (∀ j, (j < i)%nat → ∃ p, register_values_ st !! j = Some (Some p)) →
  values_ st !! info = Some inf →
  AllocateRegister cfg info st
  = Some (RegisterOperand r,
          with_values_ (insert info (info_with_reg (Some r) inf))
            (with_register_values_ (λ rv, <[i := Some info]> rv) st), []).
Proof.
  intros Hnodup Hr Hempty Hocc Hinfo. unfold AllocateRegister.
  by rewrite (bind_run _ _ _ _ _ _
                (TryAllocateRegister_run cfg st info inf i r Hnodup Hr Hempty Hocc Hinfo)).
Qed.

(** X14.  When no register is empty [TryAllocateRegister] fails: it
    returns the invalid operand and changes nothing, whether the record
    exists or not. *)
Theorem TryAllocateRegister_full (cfg : Config) (st : State) (info : InfoPtr) :
  registers_full cfg st →
  TryAllocateRegister cfg info st = Some (Invalid, st, []).
Proof.
  intros Hfull. unfold TryAllocateRegister, register_indices.
  assert (Hrun : ∀ a n, (a + n ≤ kAllocatableGeneralRegisterCount cfg)%nat →
            first_empty_register (seq a n) st = Some (None, st, [])).
  { intros a n. revert a. induction n as [|n IH]; intros a Hn; simpl; [done|].
    destruct (Hfull a) as [p Hp]; [lia|].
    rewrite (bind_run _ _ _ _ _ _ (reg_at_run _ _ _ Hp)). cbv beta.
    rewrite (IH (S a)); [done|lia]. }
  by rewrite (bind_run _ _ _ _ _ _
                (Hrun 0%nat (kAllocatableGeneralRegisterCount cfg) ltac:(lia))).
Qed.

(** The first loop of [GetFreeRegisters]. *)
Lemma collect_free_registers_run cfg st l free count :
  (∀ i, i ∈ l → (i < kAllocatableGeneralRegisterCount cfg)%nat ∧
                is_Some (register_values_ st !! i)) →
  (0 < count)%nat →
  collect_free_registers cfg l free count st
  = Some (if decide (count ≤ length (empty_indices st l))%nat
          then inl (free ∪ registers_at cfg (take count (empty_indices st l)))
          else inr (free ∪ registers_at cfg (empty_indices st l),
                    (count - length (empty_indices st l))%nat),
          st, []).
Proof.
  revert free count. induction l as [|i l IH]; intros free count Hl Hcount; simpl.
  - unfold empty_indices, registers_at. simpl.
    destruct (decide (count ≤ 0)%nat); [lia|].
    unfold ret. rewrite (right_id_L ∅ (∪)). do 5 f_equal. lia.
  - destruct (Hl i) as [Hi [x Hx]]; [by left|].
    assert (Hl' : ∀ j, j ∈ l → (j < kAllocatableGeneralRegisterCount cfg)%nat ∧
                           is_Some (register_values_ st !! j)).
    { intros j Hj. apply Hl. by right. }
    rewrite (bind_run _ _ _ _ _ _ (reg_at_run _ _ _ Hx)). cbv beta.
    unfold empty_indices in *. rewrite filter_cons.
    destruct x as [p|].
    + destruct (decide (register_values_ st !! i = Some None)) as [Heq|_]; [congruence|].
      by rewrite IH.
    + destruct (decide (register_values_ st !! i = Some None)) as [_|Hne]; [|done].
      destruct (MapIndexToRegister_lt cfg i Hi) as [ri Hri].
      rewrite Hri. unfold deref. rewrite (bind_run _ _ _ _ _ _ eq_refl). cbv beta zeta.
      simpl length.
      destruct (decide (Nat.pred count = 0%nat)) as [Hone|Hmore].
      * assert (count = 1%nat) as -> by lia.
        destruct (decide (1 ≤ S _)%nat); [|lia].
        unfold ret, registers_at. simpl. rewrite Hri. simpl.
        by rewrite (right_id_L ∅ (∪)).
      * rewrite IH by (done || lia).
        destruct (decide (Nat.pred count ≤ _)%nat), (decide (count ≤ S _)%nat);
          try lia.
        -- destruct count as [|count]; [lia|]. simpl.
           unfold registers_at. simpl. rewrite Hri. simpl.
           by rewrite (assoc_L (∪)).
        -- unfold registers_at. simpl. rewrite Hri. simpl.
           rewrite (assoc_L (∪)). do 5 f_equal. lia.
Qed.

Lemma size_registers_at cfg l :
  NoDup (allocatable cfg) → NoDup l →
  (∀ i, i ∈ l → (i < kAllocatableGeneralRegisterCount cfg)%nat) →
  size (registers_at cfg l) = length l.
Proof.
  intros Hnodup Hl Hlt. unfold registers_at.
  induction l as [|i l IH]; simpl; [done|].
  apply NoDup_cons in Hl as [Hi Hl].
  destruct (MapIndexToRegister_lt cfg i) as [r Hr]; [apply Hlt; by left|].
  rewrite Hr. simpl. rewrite size_union.
  - rewrite size_singleton. f_equal. apply IH; [done|].
    intros j Hj. apply Hlt. by right.
  - intros x Hx%elem_of_singleton Hin%elem_of_list_to_set. subst.
    apply list_elem_of_omap in Hin as (j & Hj & Hrj).
    apply MapIndexToRegister_Some in Hr; [|done].
    apply MapIndexToRegister_Some in Hrj; [|done].
    assert (i = j) by congruence. by subst.
Qed.

(** X15.  When at least [count] registers are empty, [GetFreeRegisters]
    evicts nothing: it returns the [count] empty registers of lowest
    index, which are [count] different registers, and leaves the state as
    it is. *)
Theorem GetFreeRegisters_enough_free (cfg : Config) (st : State) (count : nat) :
  NoDup (allocatable cfg) →
  length (register_values_ st) = kAllocatableGeneralRegisterCount cfg →
  (count ≤ length (empty_indices st (register_indices cfg)))%nat →
  GetFreeRegisters cfg count st
  = Some (registers_at cfg (take count (empty_indices st (register_indices cfg))), st, []) ∧
  size (registers_at cfg (take count (empty_indices st (register_indices cfg)))) = count.
Proof.
  intros Hnodup Hlen Hcount. split.
  - unfold GetFreeRegisters. destruct (decide (count = 0%nat)) as [->|Hpos].
    + unfold registers_at. simpl. done.
    + rewrite (bind_run _ _ _ _ _ _
                 (collect_free_registers_run cfg st (register_indices cfg) ∅ count
                    ltac:(intros i Hi%elem_of_register_indices; split; [done|];
                          apply lookup_lt_is_Some_2; lia) ltac:(lia))).
      cbv beta. destruct (decide (count ≤ _)%nat); [|lia].
      unfold ret. by rewrite (left_id_L ∅ (∪)).
  - rewrite size_registers_at; [|done| |].
    + rewrite length_take. lia.
    + eapply sublist_NoDup; [|apply sublist_take]. apply NoDup_filter. apply NoDup_seq.
    + intros i Hi%elem_of_take. destruct Hi as (k & Hi & _).
      apply list_elem_of_lookup_2 in Hi.
      apply list_elem_of_filter in Hi as [_ Hi]. by apply elem_of_register_indices.
Qed.

(** ** Reusing a freed slot *)

(** X16.  A slot that is freed is used again before the stack grows.
    When the last use of a spilled value [v] with a slot of positive index
    is consumed and a slot is then allocated for another live value [w],
    [w] gets a slot of the free-list, which is [v]'s slot when the
    free-list was empty, and [top_of_stack_] stays as it was. *)
Theorem AllocateSpillSlot_reuses_freed_slot (cfg : Config) (st : State) (use : Z)
    (input : Input) (nd : NodeData) (info iw : LiveNodeInfo) (s : StackSlot)
    (w : InfoPtr) :
  node_store st !! input_node input = Some nd →
  live_range_end nd = use →
  values_ st !! input_node input = Some info →
  stack_slot info = Some s →
  0 < index (slot s) →
  length (register_values_ st) = kAllocatableGeneralRegisterCount cfg →
  values_ st !! w = Some iw →
  w ≠ input_node input →
  ∃ st2 s',
    (UpdateInputUseAndClearDead cfg use input ;;; AllocateSpillSlot w) st
      = Some (tt, st2, []) ∧
    slot_of st2 w = Some s' ∧
    s' ∈ free_slots_ st ++ [s] ∧
    (free_slots_ st = [] → s' = s) ∧
    top_of_stack_ st2 = top_of_stack_ st.
Proof.
  intros Hnd Hend Hinfo Hs Hpos Hlen Hw Hne.
  pose proof (UpdateInputUseAndClearDead_dead_run cfg st use input nd info
                Hnd Hend Hinfo Hlen) as Hrun.
  set (st1 := after_last_use (input_node input) info st) in *.
  assert (Hfree : free_slots_ st1 = free_slots_ st ++ [s]).
  { unfold st1, after_last_use. st_simpl. rewrite Hs.
    by apply Z.ltb_lt in Hpos as ->. }
  assert (Hw1 : values_ st1 !! w = Some iw).
  { unfold st1, after_last_use. st_simpl. by rewrite lookup_delete_ne. }
  assert (Htop : top_of_stack_ st1 = top_of_stack_ st) by done.
  clearbody st1.
  rewrite (bind_run _ _ _ _ _ _ Hrun). cbv beta.
  rewrite AllocateSpillSlot_run, Hw1, Hfree. simpl.
  destruct (free_slots_ st) as [|s0 l] eqn:Hl; simpl.
  - exists (with_values_ (insert w (info_with_stack_slot (Some s) iw))
              (with_free_slots_ tail st1)), s.
    split_and!; try done.
    + unfold slot_of. st_simpl. by rewrite lookup_insert_eq.
    + by left.
  - exists (with_values_ (insert w (info_with_stack_slot (Some s0) iw))
              (with_free_slots_ tail st1)), s0.
    split_and!; try done.
    + unfold slot_of. st_simpl. by rewrite lookup_insert_eq.
    + by left.
Qed.

(** ** Spilling *)

(** X25.  [Spill] returns whenever the record and the node it names
    exist.  Afterwards the record has a stack slot, the one it had if it
    had one; no other record, no entry of the register file, no block and
    no cursor has changed, and no node was created or deleted. *)
Theorem Spill_only_adds_slot (cfg : Config) (p : InfoPtr) (i : LiveNodeInfo)
    (st : State) :
  values_ st !! p = Some i →
  is_Some (node_store st !! node i) →
  ∃ st' t s,
    Spill cfg p st = Some (tt, st', t) ∧
    values_ st' = <[p := info_with_stack_slot (Some s) i]> (values_ st) ∧
    (∀ s0, stack_slot i = Some s0 → s = s0) ∧
    register_values_ st' = register_values_ st ∧
    block_store st' = block_store st ∧
    block_it_ st' = block_it_ st ∧ node_it_ st' = node_it_ st ∧
    (∀ q, is_Some (node_store st' !! q) ↔ is_Some (node_store st !! q)).
Proof.
  intros Hp Hn. destruct (Spill_wp cfg p i st Hp Hn) as ([] & st' & t & Hrun & s & H).
  exists st', t, s. by destruct_and!.
Qed.
(** ** The tree of post-dominating holes *)

Global Instance only_holes_preorder : PreOrder only_holes.
Proof.
  split.
  - intros s. unfold only_holes. split_and!; try done.
    intros p. destruct (node_store s !! p) as [nd|]; constructor. by destruct nd.
  - intros s1 s2 s3 (?&?&?&?&?&?&?&H12) (?&?&?&?&?&?&?&H23).
    unfold only_holes. split_and!; try congruence.
    intros p. specialize (H12 p). specialize (H23 p).
    destruct H12 as [x y Hxy|]; inversion H23 as [y' z Hyz|]; simplify_eq; constructor.
    rewrite Hyz at 1. rewrite Hxy at 1. by destruct x.
Qed.

Lemma set_next_post_dominating_hole_only_holes n h :
  stable only_holes (set_next_post_dominating_hole n h).
Proof.
  intros st [] st' t H. unfold set_next_post_dominating_hole in H.
  apply update_node_run_inv in H as (nd & Hnd & ->).
  unfold only_holes. st_simpl. split_and!; try done.
  intros p. destruct (decide (n = p)) as [<-|Hne].
  - rewrite lookup_insert_eq, Hnd. constructor. by destruct nd.
  - rewrite lookup_insert_ne by done.
    destruct (node_store st !! p) as [x|]; constructor. by destruct x.
Qed.

(** X17.  [ComputePostDominatingHoles] writes [next_post_dominating_hole]
    fields and nothing else: the allocator's tables and the blocks are as
    before, no node is created or deleted, and every node is as before
    but for that field. *)
Theorem ComputePostDominatingHoles_only_holes (fuel : nat) (graph : list BlockPtr)
    (st st' : State) (t : list TraceEvent) :
  ComputePostDominatingHoles fuel graph st = Some (tt, st', t) →
  only_holes st st'.
Proof.
  intros Hrun.
  eapply (ComputePostDominatingHoles_writes only_holes); [|done].
  apply set_next_post_dominating_hole_only_holes.
Qed.

Lemma set_next_post_dominating_hole_run st p nd h :
  node_store st !! p = Some nd →
  set_next_post_dominating_hole p h st
  = Some (tt, with_node_store (insert p (node_with_next_post_dominating_hole h nd)) st, []).
Proof. intros H. unfold set_next_post_dominating_hole. by apply update_node_run. Qed.

(** The walk of the conditional case when it leaves by the [break]. *)
Lemma holes_walk_break fuel control c f s fn sn st :
  node_store st !! control = Some c →
  node_store st !! f = Some fn →
  node_store st !! s = Some sn →
  f ≠ s →
  Is_Return (if id sn <? id fn then sn else fn)
  || Is_JumpLoop (if id sn <? id fn then sn else fn) = true →
  holes_walk (S fuel) control (Some f) (Some s) st
  = Some (Some (if id sn <? id fn then s else f),
          with_node_store
            (insert control
               (node_with_next_post_dominating_hole
                  (Some (if id sn <? id fn then f else s)) c)) st, []).
Proof.
  intros Hc Hfn Hsn Hne Hret. cbn [holes_walk].
  destruct (decide (Some f = Some s)) as [[=]|_]; [done|].
  unfold deref.
  unfold bind at 1. unfold ret at 1.
  unfold bind at 1. rewrite (node_at_run _ _ _ Hfn).
  unfold bind at 1. unfold ret at 1.
  unfold bind at 1. rewrite (node_at_run _ _ _ Hsn).
  cbv zeta. rewrite Hret.
  unfold bind at 1. rewrite (set_next_post_dominating_hole_run _ _ _ _ Hc).
  unfold ret. by destruct (id sn <? id fn).
Qed.

(** X18.  A conditional control node whose branches do not meet.  Let
    the nearest holes of the two branches be different nodes, and let the
    one with the lower id be a Return or a JumpLoop.  The loop leaves by
    its [break], after storing the other hole in the control node; the
    store after the loop then replaces it, so that the control node ends
    with the returning node as its next post-dominating hole. *)
Theorem ComputePostDominatingHoles_branch_returns (fuel : nat) (block : BlockPtr)
    (st : State) (blk tb fb : BasicBlock) (c fn sn : NodeData) (bt bf : BlockPtr)
    (f s : NodePtr) :
  block_store st !! block = Some blk →
  node_store st !! control_node blk = Some c →
  opcode c = OpConditional bt bf →
  block_store st !! bt = Some tb →
  block_store st !! bf = Some fb →
  NearestPostDominatingHole (control_node tb) st = Some (Some f, st, []) →
  NearestPostDominatingHole (control_node fb) st = Some (Some s, st, []) →
  node_store st !! f = Some fn →
  node_store st !! s = Some sn →
  f ≠ s →
  Is_Return (if id sn <? id fn then sn else fn)
  || Is_JumpLoop (if id sn <? id fn then sn else fn) = true →
  ComputePostDominatingHoles_block (S fuel) block st
  = Some (tt,
          with_node_store
            (insert (control_node blk)
               (node_with_next_post_dominating_hole
                  (Some (if id sn <? id fn then s else f)) c)) st, []).
Proof.
  intros Hblk Hc Hop Hbt Hbf Hf Hs Hfn Hsn Hne Hret.
  unfold ComputePostDominatingHoles_block.
  unfold bind at 1. rewrite (block_at_run _ _ _ Hblk). cbv zeta.
  unfold bind at 1. rewrite (node_at_run _ _ _ Hc). rewrite Hop.
  unfold bind at 1. rewrite (block_at_run _ _ _ Hbt).
  unfold bind at 1. rewrite Hf.
  unfold bind at 1. rewrite (block_at_run _ _ _ Hbf).
  unfold bind at 1. rewrite Hs.
  unfold bind at 1.
  rewrite (holes_walk_break fuel _ c f s fn sn st Hc Hfn Hsn Hne Hret).
  erewrite set_next_post_dominating_hole_run by (st_simpl; apply lookup_insert_eq).
  simpl. do 3 f_equal. destruct st. unfold with_node_store. simpl. f_equal.
  apply insert_insert_eq.
Qed.
(** ** The constructor *)

Lemma StraightForwardRegisterAllocator_inv cfg fuel graph st k st' t :
  StraightForwardRegisterAllocator cfg fuel graph st = Some (k, st', t) →
  ∃ st1 t1 t2,
    ComputePostDominatingHoles fuel graph st = Some (tt, st1, t1) ∧
    AllocateRegisters cfg graph st1 = Some (tt, st', t2) ∧
    k = top_of_stack_ st'.
Proof.
  intros H. unfold StraightForwardRegisterAllocator in H.
  apply bind_Some in H as ([] & st1 & t1 & tx & H1 & H & ->).
  apply bind_Some in H as ([] & st2 & t2 & ty & H2 & H & ->).
  apply gets_inv in H as (-> & -> & ->). eauto 10.
Qed.

(** X19.  The number of stack slots the constructor reports covers every
    slot in use.  Started with no live value, an empty free-list and
    [top_of_stack_ = 0] on a graph whose nodes carry no spill slot and ask
    for negative fixed slots only, the constructor reports
    [top_of_stack_], which is not negative; every stack slot of a value
    that is still live and every spill slot written on a node has an
    index below that number, and no two live values share a local
    slot. *)
Theorem StraightForwardRegisterAllocator_stack_slots (cfg : Config) (fuel : nat)
    (graph : list BlockPtr) (rv : list (option InfoPtr)) (b : BlockPtr)
    (it : option nat) (ns : gmap NodePtr NodeData) (bs : gmap BlockPtr BasicBlock)
    (k : Z) (st' : State) (t : list TraceEvent) :
  (∀ n nd i, ns !! n = Some nd → result nd = Unallocated (UFixedSlot i) → i < 0) →
  (∀ n nd, ns !! n = Some nd → spill_slot nd = None) →
  StraightForwardRegisterAllocator cfg fuel graph (mkState ∅ rv [] 0 b it ns bs)
    = Some (k, st', t) →
  k = top_of_stack_ st' ∧ 0 ≤ k ∧
  (∀ p s, slot_of st' p = Some s → slot_index s < k) ∧
  (∀ n nd a, node_store st' !! n = Some nd → spill_slot nd = Some a → index a < k) ∧
  (∀ p q s s', p ≠ q → slot_of st' p = Some s → slot_of st' q = Some s' →
     0 ≤ slot_index s → slot_index s ≠ slot_index s').
Proof.
  intros Hfix Hsp Hrun.
  apply StraightForwardRegisterAllocator_inv in Hrun as (st1 & t1 & t2 & H1 & H2 & ->).
  assert (Hok : slots_ok st').
  { eapply AllocateRegisters_slots; [done|].
    eapply (ComputePostDominatingHoles_writes (keeps slots_ok)); [|done|].
    - apply set_next_post_dominating_hole_slots.
    - by apply slots_ok_start. }
  destruct Hok as ((H0 & Hb & _ & _ & _ & Hd) & _ & Hspill).
  split_and!; done.
Qed.
(** ** Operands get allocated and stay allocated *)

Lemma allocated_mono_refl nd : allocated_mono nd nd.
Proof. split_and!; eauto. Qed.

Lemma allocated_mono_trans nd1 nd2 nd3 :
  allocated_mono nd1 nd2 → allocated_mono nd2 nd3 → allocated_mono nd1 nd3.
Proof.
  intros (L1 & I1 & R1) (L2 & I2 & R2). split_and!; [congruence| |tauto].
  intros k i Hk Hi. destruct (I1 k i Hk Hi) as (i2 & Hk2 & Hi2). eauto.
Qed.

Global Instance allocated_rel_preorder : PreOrder allocated_rel.
Proof.
  split.
  - intros s p. destruct (node_store s !! p); constructor. apply allocated_mono_refl.
  - intros s1 s2 s3 H12 H23 p. specialize (H12 p). specialize (H23 p).
    destruct H12; inversion H23; simplify_eq; constructor.
    by eapply allocated_mono_trans.
Qed.

Lemma allocated_rel_same_nodes s s' : node_store s' = node_store s → allocated_rel s s'.
Proof.
  intros H p. rewrite H. destruct (node_store s !! p); constructor.
  apply allocated_mono_refl.
Qed.

Lemma update_node_allocated p f :
  (∀ nd, allocated_mono nd (f nd)) → stable allocated_rel (update_node p f).
Proof.
  intros Hf st [] st' t H. apply update_node_run_inv in H as (nd & Hnd & ->).
  intros q. st_simpl. destruct (decide (p = q)) as [<-|Hne].
  - rewrite lookup_insert_eq, Hnd. by constructor.
  - rewrite lookup_insert_ne by done.
    destruct (node_store st !! q); constructor. apply allocated_mono_refl.
Qed.

Lemma input_SetAllocated_allocated n k a : stable allocated_rel (input_SetAllocated n k a).
Proof.
  unfold input_SetAllocated. apply stable_bind; [apply _|stable_tac|]. intros i.
  apply update_node_allocated. intros nd. split_and!; simpl; [by rewrite length_insert| |done].
  intros j x Hj Hx. destruct (decide (k = j)) as [<-|Hne].
  - eexists. split; [apply list_lookup_insert_eq; by eapply lookup_lt_Some|done].
  - exists x. split; [|done]. by rewrite list_lookup_insert_ne.
Qed.

Lemma AllocateRegisters_allocated cfg graph :
  stable allocated_rel (AllocateRegisters cfg graph).
Proof.
  apply AllocateRegisters_writes; try apply _;
    try solve [frame_writes ltac:(intros ?; apply allocated_rel_same_nodes; reflexivity)].
  - apply input_SetAllocated_allocated.
  - intros. apply update_node_allocated. intros nd. split_and!; simpl; eauto.
  - intros. apply update_node_allocated. intros nd. split_and!; simpl; eauto.
  - intros. apply update_node_allocated. intros nd. split_and!; simpl; eauto.
  - intros. apply update_node_allocated. intros nd. split_and!; simpl; eauto.
Qed.

(** X20.  A run of [AllocateRegisters] never takes an allocation back:
    an input or a result whose operand is allocated before the run has an
    allocated operand after it, and no node gains or loses an input. *)
Theorem AllocateRegisters_keeps_allocated (cfg : Config) (graph : list BlockPtr)
    (st st' : State) (t : list TraceEvent) :
  AllocateRegisters cfg graph st = Some (tt, st', t) →
  ∀ p, option_Forall2 allocated_mono (node_store st !! p) (node_store st' !! p).
Proof. intros Hrun p. by eapply AllocateRegisters_allocated. Qed.

(** The writes of the allocator respect [allocated_rel]. *)
Ltac allocated_writes :=
  first
    [ solve [frame_writes ltac:(intros ?; apply allocated_rel_same_nodes; reflexivity)]
    | apply input_SetAllocated_allocated
    | intros; apply update_node_allocated; intros ?; split_and!; simpl; eauto ].

Lemma AssignInput_allocated cfg n k : stable allocated_rel (AssignInput cfg n k).
Proof. apply AssignInput_writes; try apply _; allocated_writes. Qed.

Lemma AssignTemporaries_allocated cfg n : stable allocated_rel (AssignTemporaries cfg n).
Proof. apply AssignTemporaries_writes; try apply _; allocated_writes. Qed.

Lemma UpdateInputUseAndClearDead_allocated cfg use input :
  stable allocated_rel (UpdateInputUseAndClearDead cfg use input).
Proof. apply UpdateInputUseAndClearDead_writes; try apply _; allocated_writes. Qed.

Lemma SpillRegisters_allocated cfg : stable allocated_rel (SpillRegisters cfg).
Proof. apply SpillRegisters_writes; try apply _; allocated_writes. Qed.

Lemma SpillAndClearRegisters_allocated cfg :
  stable allocated_rel (SpillAndClearRegisters cfg).
Proof. apply SpillAndClearRegisters_writes; try apply _; allocated_writes. Qed.

Lemma AllocateNodeResult_allocated cfg n : stable allocated_rel (AllocateNodeResult cfg n).
Proof. apply AllocateNodeResult_writes; try apply _; allocated_writes. Qed.

(** Skip the first action of a sequence, whatever it does. *)
Lemma wlp_bind_any {A B} (m : M A) (k : A → M B) Q st :
  (∀ a st1, wlp (k a) Q st1) → wlp (bind m k) Q st.
Proof. intros H. apply wlp_bind. intros a st1 t _. apply H. Qed.

Lemma wlp_conj {A} (m : M A) Q1 Q2 st :
  wlp m Q1 st → wlp m Q2 st → wlp m (λ a st', Q1 a st' ∧ Q2 a st') st.
Proof. intros H1 H2 a st' t E. split; [by eapply H1|by eapply H2]. Qed.

Lemma AllocatedOperand_cast_IsAllocated o a :
  AllocatedOperand_cast o = Some a → IsAllocated o = true.
Proof. by destruct o. Qed.

Lemma AssignInput_allocates cfg n k st :
  wlp (AssignInput cfg n k)
    (λ _ st', ∃ nd i, node_store st' !! n = Some nd ∧ inputs nd !! k = Some i ∧
                      IsAllocated (input_operand i) = true) st.
Proof.
  unfold AssignInput.
  apply wlp_bind_any. intros input0 s1.
  apply wlp_bind_any. intros operand s2. cbv zeta.
  apply wlp_bind_any. intros inf s3.
  apply wlp_bind_any. intros location s4.
  apply wlp_bind_any. intros policy s5.
  apply wlp_bind_any. intros [] s6.
  apply wlp_bind. intros input s7 t7 Hin.
  apply input_at_inv in Hin as (nd & Hnd & Hk & -> & ->).
  apply wlp_bind, wlp_deref. intros allocated Hcast.
  apply AllocatedOperand_cast_IsAllocated in Hcast.
  destruct (decide (location ≠ allocated)); [|apply wlp_ret; eauto].
  eapply wlp_mono.
  { apply (stable_wlp (same_on node_store)). stable_tac. }
  cbv beta. intros _ s8 Hsame. rewrite Hsame. eauto.
Qed.

Lemma AllocateNodeResult_allocates cfg n st :
  wlp (AllocateNodeResult cfg n)
    (λ _ st', ∃ nd, node_store st' !! n = Some nd ∧ IsAllocated (result nd) = true) st.
Proof.
  assert (Hlast : ∀ a s, wlp (result_SetAllocated n a)
            (λ _ st', ∃ nd, node_store st' !! n = Some nd ∧
                            IsAllocated (result nd) = true) s).
  { intros a s. wlp_run. eexists. split; [apply lookup_insert_eq|done]. }
  unfold AllocateNodeResult.
  apply wlp_bind_any. intros info s1.
  apply wlp_bind_any. intros [] s2.
  apply wlp_bind_any. intros nd s3.
  apply wlp_bind_any. intros [k|pol arg] s4.
  - cbv zeta. apply wlp_bind_any. intros [] s5. apply Hlast.
  - destruct pol; try apply wlp_abort.
    + apply wlp_bind_any. intros a s5. apply Hlast.
    + apply wlp_bind_any. intros a s5. apply Hlast.
    + destruct (arg <? 0); [apply wlp_abort|].
      apply wlp_bind_any. intros input s5.
      apply wlp_bind_any. intros r s6.
      apply wlp_bind_any. intros a s7. apply Hlast.
Qed.

Lemma allocated_rel_inputs s s' n nd :
  allocated_rel s s' → node_store s !! n = Some nd → inputs_allocated nd →
  ∃ nd', node_store s' !! n = Some nd' ∧ inputs_allocated nd' ∧
         length (inputs nd') = length (inputs nd) ∧
         (IsAllocated (result nd) = true → IsAllocated (result nd') = true).
Proof.
  intros Hrel Hn Hall. specialize (Hrel n). rewrite Hn in Hrel.
  inversion Hrel as [x nd' (Hlen & Hin & Hres) Hx Hnd'|]; subst.
  exists nd'. split_and!; [done| |done|done].
  intros k i' Hk.
  destruct (lookup_lt_is_Some_2 (inputs nd) k) as [i Hi].
  { rewrite <- Hlen. by eapply lookup_lt_Some. }
  destruct (Hin k i Hi (Hall k i Hi)) as (i2 & Hi2 & Ha). congruence.
Qed.

Lemma AssignInputs_allocate cfg n nd st :
  node_store st !! n = Some nd →
  wlp (forM_ (seq 0 (length (inputs nd))) (AssignInput cfg n))
    (λ _ st', ∃ nd', node_store st' !! n = Some nd' ∧ inputs_allocated nd') st.
Proof.
  intros Hn.
  eapply wlp_mono.
  { eapply wlp_forM_rest with (I := λ rest s,
      ∃ nd_s, node_store s !! n = Some nd_s ∧
              length (inputs nd_s) = length (inputs nd) ∧
              ∀ k i, inputs nd_s !! k = Some i → k ∉ rest →
                     IsAllocated (input_operand i) = true).
    - exists nd. split_and!; [done|done|]. intros k i Hk Hnot. exfalso.
      apply Hnot. apply elem_of_seq. apply lookup_lt_Some in Hk. lia.
    - intros x rest s (nd_s & Hs & Hlen & Hdone).
      eapply wlp_mono.
      { apply wlp_conj; [apply (stable_wlp allocated_rel), AssignInput_allocated|
                         apply AssignInput_allocates]. }
      cbv beta. intros _ s' (Hrel & nd' & i' & Hn' & Hx & Hax).
      specialize (Hrel n). rewrite Hs, Hn' in Hrel.
      inversion Hrel as [? ? (Hlen' & Hin & _)|]; subst.
      exists nd'. split_and!; [done|congruence|].
      intros k i Hk Hnot. destruct (decide (k = x)) as [->|Hne]; [congruence|].
      destruct (lookup_lt_is_Some_2 (inputs nd_s) k) as [i0 Hi0].
      { rewrite <- Hlen'. by eapply lookup_lt_Some. }
      destruct (Hin k i0 Hi0) as (i2 & Hi2 & Ha); [|congruence].
      apply (Hdone k i0 Hi0). rewrite elem_of_cons. intros [?|?]; done. }
  cbv beta. intros _ s' (nd' & Hn' & _ & Hdone). exists nd'. split; [done|].
  intros k i Hk. apply (Hdone k i Hk), not_elem_of_nil.
Qed.

Lemma AllocateNode_inputs_allocates cfg n st :
  wlp (AllocateNode_inputs cfg n)
    (λ _ st', ∃ nd', node_store st' !! n = Some nd' ∧ inputs_allocated nd') st.
Proof.
  unfold AllocateNode_inputs.
  apply wlp_bind. intros nd0 s0 t0 Hnd0.
  apply node_at_inv in Hnd0 as (Hnd0 & -> & ->).
  wlp_call AssignInputs_allocate; [done|]. intros _ s1 (nd1 & Hn1 & Hall1).
  eapply wlp_mono.
  { apply (stable_wlp allocated_rel).
    pose proof (AssignTemporaries_allocated cfg).
    pose proof (UpdateInputUseAndClearDead_allocated cfg). stable_tac. }
  cbv beta. intros _ s2 Hrel.
  destruct (allocated_rel_inputs _ _ _ _ Hrel Hn1 Hall1) as (nd2 & ? & ? & _). eauto.
Qed.

(** X21.  When [AllocateNode] has processed a node, every input of the
    node has an allocated operand, and so has its result when the node is
    a value node. *)
Theorem AllocateNode_allocates (cfg : Config) (n : NodePtr) (nd : NodeData)
    (st st' : State) (t : list TraceEvent) :
  node_store st !! n = Some nd →
  AllocateNode cfg (INode n) st = Some (tt, st', t) →
  ∃ nd', node_store st' !! n = Some nd' ∧
         (∀ k i, inputs nd' !! k = Some i → IsAllocated (input_operand i) = true) ∧
         (Is_ValueNode nd = true → IsAllocated (result nd') = true).
Proof.
  intros Hn Hrun.
  destruct (AllocateNode_steps _ _ _ _ _ _ Hrun Hn)
    as (mid & ndm & c & d & t1 & t2 & t3 & t4 & Hin & Hmid & _ & Hc & Hd & Hres).
  assert (Hinputs : ∃ nd1, node_store mid !! n = Some nd1 ∧ inputs_allocated nd1)
    by (by eapply (AllocateNode_inputs_allocates cfg n st)).
  destruct Hinputs as (nd1 & Hn1 & Hall1).
  assert (Hrel_c : allocated_rel mid c).
  { assert (Hs : stable allocated_rel (when (is_call nd) (SpillAndClearRegisters cfg)))
      by (apply stable_when; [apply _|apply SpillAndClearRegisters_allocated]).
    by eapply Hs. }
  assert (Hrel_d : allocated_rel c d).
  { assert (Hs : stable allocated_rel (when (can_deopt nd) (SpillRegisters cfg)))
      by (apply stable_when; [apply _|apply SpillRegisters_allocated]).
    by eapply Hs. }
  assert (Hrel : allocated_rel mid d) by (by etrans).
  destruct (allocated_rel_inputs _ _ _ _ Hrel Hn1 Hall1) as (nd2 & Hn2 & Hall2 & _ & _).
  destruct (Is_ValueNode nd) eqn:Hv; simpl in Hres.
  - pose proof (AllocateNodeResult_allocated cfg n _ _ _ _ Hres) as Hrel'.
    destruct (allocated_rel_inputs _ _ _ _ Hrel' Hn2 Hall2) as (nd3 & Hn3 & Hall3 & _ & _).
    destruct (AllocateNodeResult_allocates cfg n d _ _ _ Hres) as (nd4 & Hn4 & Hr4).
    assert (nd4 = nd3) as -> by congruence.
    exists nd3. split_and!; [done|exact Hall3|done].
  - unfold ret in Hres. simplify_eq. exists nd2. split_and!; [done|exact Hall2|done].
Qed.
(** ** Freeing a register by moving its value *)

Lemma Free_find_move_wp st skip n l acc :
  (∀ k, k ∈ l → k ≠ skip →
     register_values_ st !! k = Some None ∨
     ∃ q iq, register_values_ st !! k = Some (Some q) ∧ values_ st !! q = Some iq ∧
             node iq ≠ n) →
  wp (Free_find_move skip n l acc)
    (λ res st', st' = st ∧ res = inr (last_empty st skip l acc)) st.
Proof.
  revert acc. induction l as [|k l IH]; intros acc Hl; simpl.
  - by wp_run.
  - assert (Hl' : ∀ k', k' ∈ l → k' ≠ skip →
       register_values_ st !! k' = Some None ∨
       ∃ q iq, register_values_ st !! k' = Some (Some q) ∧ values_ st !! q = Some iq ∧
               node iq ≠ n).
    { intros k' Hk'. apply Hl. by right. }
    unfold last_empty. simpl. fold (last_empty st skip l).
    destruct (decide (k = skip)) as [->|Hne]; [by apply IH|].
    destruct (Hl k) as [Hempty|(q & iq & Hq & Hiq & Hnode)]; [by left|done| |].
    + wp_run. destruct (decide (register_values_ st !! k = Some None)); [|done].
      by apply IH.
    + wp_run. destruct (decide (node iq = n)); [done|].
      destruct (decide (register_values_ st !! k = Some None)); [congruence|].
      by apply IH.
Qed.

(** The last empty register of the file, when [j] is the highest one. *)
Lemma last_empty_highest st skip a n acc j :
  (a ≤ j < a + n)%nat → j ≠ skip →
  register_values_ st !! j = Some None →
  (∀ k, (j < k < a + n)%nat → k ≠ skip → register_values_ st !! k ≠ Some None) →
  last_empty st skip (seq a n) acc = Some j.
Proof.
  revert a acc. induction n as [|n IH]; intros a acc Hj Hskip Hempty Hhigh; [lia|].
  unfold last_empty. simpl. fold (last_empty st skip (seq (S a) n)).
  destruct (decide (a = j)) as [->|Hne].
  - destruct (decide (j = skip)); [done|].
    destruct (decide (register_values_ st !! j = Some None)); [|done].
    clear IH Hj. assert (Hrest : ∀ m b, (j < b)%nat → (b + m ≤ j + S n)%nat →
      last_empty st skip (seq b m) (Some j) = Some j).
    { induction m as [|m IHm]; intros b Hb Hm; [done|].
      unfold last_empty. simpl. fold (last_empty st skip (seq (S b) m)).
      destruct (decide (b = skip)); [apply IHm; lia|].
      destruct (decide (register_values_ st !! b = Some None)) as [He|_].
      - exfalso. eapply (Hhigh b); [lia|done|done].
      - apply IHm; lia. }
    apply Hrest; lia.
  - apply IH; [lia|done|done|]. intros k Hk. apply Hhigh. lia.
Qed.

(** X22.  [Free] with [try_move] moves a value that lives in this
    register only and has no stack slot to the empty register of highest
    index (the loop keeps the last empty register it sees): the record is
    bound to that register, the register freed is empty, and a gap move
    from the one to the other is added to the current block at the
    cursor.  Nothing is spilled. *)
Theorem Free_moves_to_highest_empty (cfg : Config) (st : State) (r rj : Register)
    (index j : nat) (p : InfoPtr) (i : LiveNodeInfo) (blk : BasicBlock) :
  NoDup (allocatable cfg) →
  length (register_values_ st) = kAllocatableGeneralRegisterCount cfg →
  MapRegisterToIndex cfg r = Some index →
  register_values_ st !! index = Some (Some p) →
  values_ st !! p = Some i →
  reg i = Some r →
  stack_slot i = None →
  (∀ k q, k ≠ index → register_values_ st !! k = Some (Some q) →
     ∃ iq, values_ st !! q = Some iq ∧ node iq ≠ node i) →
  j ≠ index →
  register_values_ st !! j = Some None →
  (∀ k, (j < k)%nat → k ≠ index → register_values_ st !! k ≠ Some None) →
  MapIndexToRegister cfg j = Some rj →
  block_store st !! block_it_ st = Some blk →
  ∃ st' t,
    Free cfg r true st = Some (tt, st', t) ∧
    register_values_ st' = <[j := Some p]> (<[index := None]> (register_values_ st)) ∧
    values_ st' = <[p := info_with_reg (Some rj) i]> (values_ st) ∧
    top_of_stack_ st' = top_of_stack_ st ∧
    block_store st' =
      <[block_it_ st :=
          block_with_nodes
            (with_move_at (node_it_ st)
               (IGapMove (RegisterOperand r) (RegisterOperand rj)) (nodes blk)) blk]>
        (block_store st).
Proof.
  intros Hnodup Hlen Hindex Hocc Hp Hreg Hslot Hothers Hj Hempty Hhigh Hrj Hblk.
  assert (Hjlt : (j < kAllocatableGeneralRegisterCount cfg)%nat)
    by (rewrite <- Hlen; by eapply lookup_lt_Some).
  assert (Hilt : (index < length (register_values_ st))%nat) by by eapply lookup_lt_Some.
  cut (wp (Free cfg r true)
         (λ _ st',
            register_values_ st'
              = <[j := Some p]> (<[index := None]> (register_values_ st)) ∧
            values_ st' = <[p := info_with_reg (Some rj) i]> (values_ st) ∧
            top_of_stack_ st' = top_of_stack_ st ∧
            block_store st' =
              <[block_it_ st :=
                  block_with_nodes
                    (with_move_at (node_it_ st)
                       (IGapMove (RegisterOperand r) (RegisterOperand rj)) (nodes blk)) blk]>
                (block_store st)) st).
  { intros ([] & st' & t & Hrun & H). by exists st', t. }
  unfold Free. wp_run.
  destruct (decide (Some r ≠ reg i)) as [Hne|_]; [congruence|].
  wp_run. rewrite Hslot.
  eapply wp_bind, wp_mono.
  { apply Free_find_move_wp. st_simpl. intros k Hk Hkne.
    apply elem_of_register_indices in Hk.
    rewrite list_lookup_insert_ne by done.
    destruct (lookup_lt_is_Some_2 (register_values_ st) k) as [[q|] Hq]; [lia| |by left].
    right. destruct (Hothers k q Hkne Hq) as (iq & Hiq & Hnode).
    exists q, iq. split_and!; [done| |done].
    rewrite lookup_insert_ne; [done|]. intros ->. congruence. }
  intros res s1 [-> ->]. cbv beta.
  unfold register_indices.
  rewrite (last_empty_highest _ index 0 _ None j); [|lia|done| |].
  2:{ st_simpl. by rewrite list_lookup_insert_ne. }
  2:{ st_simpl. intros k Hk Hkne. rewrite list_lookup_insert_ne by done.
      apply Hhigh; [lia|done]. }
  wp_run. unfold SetRegister.
  rewrite (MapIndexToRegister_Some _ _ _ Hnodup Hrj).
  wp_run. rewrite list_lookup_insert_ne by done. wp_run.
  rewrite lookup_insert_eq. wp_run.
  unfold AddMoveBeforeCurrentNode.
  destruct (FLAG_trace_maglev_regalloc cfg); wp_run.
  all: destruct (node_it_ st) as [c|] eqn:Hit; wp_run.
  all: rewrite insert_insert_eq; split_and!; try done.
Qed.
(** ** What merging writes *)

Global Instance only_target_preorder target : PreOrder (only_target target).
Proof.
  split.
  - intros s. split_and!; try done.
    destruct (block_store s !! target); constructor. split; [done|apply same_block_refl].
  - intros s1 s2 s3 (V12 & O12 & T12) (V23 & O23 & T23). split_and!.
    + congruence.
    + intros b Hb. rewrite O23, O12; done.
    + pose proof (block_rel_preorder) as [_ Htrans].
      destruct T12 as [x y [Hn Hxy]|]; inversion T23 as [y' z [Hn' Hyz]|]; simplify_eq;
        constructor.
      split; [congruence|].
      unfold same_block in *. destruct_and!. split_and!; try congruence.
      destruct (state x), (state y), (state z);
        repeat match goal with H : option_Forall2 _ _ _ |- _ => inversion H; clear H end;
        simplify_eq; constructor.
      destruct_and!. split; congruence.
Qed.

Lemma set_target_state_only_target target i v :
  stable (only_target target) (set_target_state target i v).
Proof.
  intros st [] st' t H. unfold set_target_state in H.
  apply bind_Some in H as (blk & sx1 & tx1 & ty1 & Hb & H & ->).
  apply block_at_inv in Hb as (Hb & -> & ->).
  apply bind_Some in H as (ms & sx2 & tx2 & ty2 & Hms & H & ->).
  unfold deref in Hms. destruct (state blk) as [ms0|] eqn:Hstate; [|done].
  unfold ret in Hms. simplify_eq.
  apply bind_Some in H as (e & sx3 & tx3 & ty3 & He & H & ->).
  unfold deref in He. destruct (register_state ms !! i) as [e0|] eqn:Hi; [|done].
  unfold ret in He. simplify_eq.
  apply update_block_inv in H as (blk' & Hblk' & ->). simplify_eq.
  split_and!; [done| |].
  - intros b Hne. st_simpl. by rewrite lookup_insert_ne.
  - st_simpl. rewrite lookup_insert_eq, Hb. constructor. split; [done|].
    unfold same_block. simpl. split_and!; try done.
    rewrite Hstate. constructor. simpl. by rewrite length_insert.
Qed.

(** X23.  [MergeRegisterValues] writes entries of the merge state of
    its target and nothing else: the allocator's tables, the free-list,
    [top_of_stack_], the cursors and the nodes are as before, every other
    block is as before, and the target keeps its node list, phis, control
    node, ids, predecessor count and number of entries. *)
Theorem MergeRegisterValues_only_target (cfg : Config) (control : NodePtr)
    (target : BlockPtr) (pred : nat) (st st' : State) (t : list TraceEvent) :
  MergeRegisterValues cfg control target pred st = Some (tt, st', t) →
  only_target target st st'.
Proof.
  intros Hrun.
  assert (Hs : stable (only_target target) (MergeRegisterValues cfg control target pred)).
  { pose proof (set_target_state_only_target target).
    unfold MergeRegisterValues, InitializeBranchTargetRegisterValues,
      MergeRegisterValues_step.
    stable_tac. }
  by eapply Hs.
Qed.
(** ** The properties at the examples *)

Lemma spill_graph_run_end :
  AllocateRegisters cfg4 [0%nat] spill_graph = Some (tt, spill_graph_end, []).
Proof. vm_compute. reflexivity. Qed.


Lemma AllocateRegisters_stack_and_file_witness :
  top_of_stack_ spill_graph ≤ top_of_stack_ spill_graph_end ∧
  length (register_values_ spill_graph_end) = length (register_values_ spill_graph).
Proof.
  apply (AllocateRegisters_stack_and_file cfg4 [0%nat] spill_graph spill_graph_end []).
  vm_compute. reflexivity.
Defined.


Lemma AllocateRegisters_flag_off_silent_witness : ([] : list TraceEvent) = [].
Proof.
  apply (AllocateRegisters_flag_off_silent cfg4 [0%nat] spill_graph spill_graph_end []).
  - reflexivity.
  - vm_compute. reflexivity.
Defined.

Lemma spill_graph_file_live : file_live cfg4 spill_graph.
Proof.
  intros [|[|[|[|i]]]] p Hi Hp; vm_compute in Hp; discriminate.
Qed.

Lemma AllocateRegisters_keeps_file_live_witness : file_live cfg4 spill_graph_end.
Proof.
  apply (AllocateRegisters_keeps_file_live cfg4 [0%nat] spill_graph spill_graph_end []).
  - exact spill_graph_file_live.
  - vm_compute. reflexivity.
Defined.

(** The nodes of [spill_graph] ask for no fixed slot and carry no spill
    slot. *)
Lemma spill_graph_nodes :
  (∀ n nd i, node_store spill_graph !! n = Some nd →
     result nd = Unallocated (UFixedSlot i) → i < 0) ∧
  (∀ n nd, node_store spill_graph !! n = Some nd → spill_slot nd = None).
Proof.
  assert (H : map_Forall (λ _ nd,
              (∀ i, result nd ≠ Unallocated (UFixedSlot i)) ∧ spill_slot nd = None)
            (node_store spill_graph)).
  { unfold spill_graph, initial_state. simpl.
    repeat (apply map_Forall_insert_2; [by split|]). apply map_Forall_empty. }
  split.
  - intros n nd i Hn Hr. destruct (H n nd Hn) as [Hno _]. by destruct (Hno i).
  - intros n nd Hn. by destruct (H n nd Hn).
Qed.

Lemma spill_graph_slots_ok : slots_ok spill_graph.
Proof. destruct spill_graph_nodes. by apply slots_ok_start. Qed.

Lemma AllocateRegisters_keeps_slots_witness : slots_ok spill_graph_end.
Proof.
  apply (AllocateRegisters_keeps_slots cfg4 [0%nat] spill_graph spill_graph_end []).
  - exact spill_graph_slots_ok.
  - vm_compute. reflexivity.
Defined.

Lemma InitializeBranchTargetRegisterValues_entry_witness :
  merge_entry merge_state_first_visit 2%nat 1%nat =
    Some (mkRegisterState
            (match Some 7%nat with
             | Some p => if true then PNode p else PNull
             | None => PNull
             end) initialized_node).
Proof.
  apply (InitializeBranchTargetRegisterValues_entry cfg4 15%nat 2%nat merge_state
           merge_state_first_visit [] 1%nat (Some 7%nat) true).
  - vm_compute. reflexivity.
  - unfold kAllocatableGeneralRegisterCount. simpl. lia.
  - reflexivity.
  - vm_compute. reflexivity.
Defined.

Lemma InitializeRegisterValues_restores_witness :
  register_values_ merge_state_restored !! 0%nat
  = Some (fst (Some 7%nat, @None RegisterMerge)).
Proof.
  apply (InitializeRegisterValues_restores cfg4 merge_entries merge_state
           merge_state_restored [] 0%nat (mkRegisterState (PNode 7%nat) initialized_node)).
  - vm_compute. reflexivity.
  - unfold kAllocatableGeneralRegisterCount. simpl. lia.
  - reflexivity.
  - reflexivity.
Defined.

Lemma call_state_1_tables :
  register_values_ call_state_1 = [Some 1%nat; None; None; None] ∧
  values_ call_state_1 !! 1%nat = Some v1_in_R0.
Proof. split; vm_compute; reflexivity. Qed.

Lemma TryAllocateRegister_lowest_witness :
  TryAllocateRegister cfg4 1%nat call_state_1
  = Some (Allocated (RegisterOperand 1),
          with_values_ (insert 1%nat (info_with_reg (Some 1) v1_in_R0))
            (with_register_values_ (λ rv, <[1%nat := Some 1%nat]> rv) call_state_1), []).
Proof.
  destruct call_state_1_tables as [Hrv Hv].
  apply (TryAllocateRegister_lowest cfg4 call_state_1 1%nat v1_in_R0 1%nat 1).
  - exact regs4_NoDup.
  - reflexivity.
  - by rewrite Hrv.
  - intros j Hj. assert (j = 0%nat) as -> by lia. rewrite Hrv. by exists 1%nat.
  - exact Hv.
Defined.

Lemma TryAllocateRegister_full_witness :
  TryAllocateRegister cfg4 5%nat full_state = Some (Invalid, full_state, []).
Proof. apply (TryAllocateRegister_full cfg4 full_state 5%nat). exact full_state_full. Defined.

Lemma GetFreeRegisters_enough_free_witness :
  GetFreeRegisters cfg4 2 call_state_1
  = Some (registers_at cfg4 (take 2 (empty_indices call_state_1 (register_indices cfg4))),
          call_state_1, []) ∧
  size (registers_at cfg4 (take 2 (empty_indices call_state_1 (register_indices cfg4))))
  = 2%nat.
Proof.
  destruct call_state_1_tables as [Hrv _].
  apply (GetFreeRegisters_enough_free cfg4 call_state_1 2).
  - exact regs4_NoDup.
  - by rewrite Hrv.
  - unfold empty_indices. rewrite Hrv. vm_compute. lia.
Defined.

Lemma AllocateRegister_uses_empty_witness :
  AllocateRegister cfg4 1%nat call_state_1
  = Some (RegisterOperand 1,
          with_values_ (insert 1%nat (info_with_reg (Some 1) v1_in_R0))
            (with_register_values_ (λ rv, <[1%nat := Some 1%nat]> rv) call_state_1), []).
Proof.
  destruct call_state_1_tables as [Hrv Hv].
  apply (AllocateRegister_uses_empty cfg4 call_state_1 1%nat v1_in_R0 1%nat 1).
  - exact regs4_NoDup.
  - reflexivity.
  - by rewrite Hrv.
  - intros j Hj. assert (j = 0%nat) as -> by lia. rewrite Hrv. by exists 1%nat.
  - exact Hv.
Defined.

Lemma Spill_only_adds_slot_witness :
  ∃ st' t s,
    Spill cfg4 1%nat call_state_1 = Some (tt, st', t) ∧
    values_ st' = <[1%nat := info_with_stack_slot (Some s) v1_in_R0]> (values_ call_state_1) ∧
    (∀ s0, stack_slot v1_in_R0 = Some s0 → s = s0) ∧
    register_values_ st' = register_values_ call_state_1 ∧
    block_store st' = block_store call_state_1 ∧
    block_it_ st' = block_it_ call_state_1 ∧ node_it_ st' = node_it_ call_state_1 ∧
    (∀ q, is_Some (node_store st' !! q) ↔ is_Some (node_store call_state_1 !! q)).
Proof.
  apply (Spill_only_adds_slot cfg4 1%nat v1_in_R0 call_state_1).
  - vm_compute. reflexivity.
  - vm_compute. by eexists.
Defined.

Lemma AllocateSpillSlot_reuses_freed_slot_witness :
  ∃ st2 s',
    (UpdateInputUseAndClearDead cfg4 3 (use_of 1%nat 0) ;;; AllocateSpillSlot 2%nat)
      reuse_state = Some (tt, st2, []) ∧
    slot_of st2 2%nat = Some s' ∧
    s' ∈ free_slots_ reuse_state ++ [NewStackSlot kTagged 1] ∧
    (free_slots_ reuse_state = [] → s' = NewStackSlot kTagged 1) ∧
    top_of_stack_ st2 = top_of_stack_ reuse_state.
Proof.
  apply (AllocateSpillSlot_reuses_freed_slot cfg4 reuse_state 3 (use_of 1%nat 0)
           (value_node 1 3 [] (UExtended MUST_HAVE_REGISTER 0))
           (mkInfo 1%nat 3 3 (Some (NewStackSlot kTagged 1)) None)
           (mkInfo 2%nat 9 9 None (Some 0)) (NewStackSlot kTagged 1) 2%nat).
  - vm_compute. reflexivity.
  - reflexivity.
  - vm_compute. reflexivity.
  - reflexivity.
  - simpl. lia.
  - reflexivity.
  - vm_compute. reflexivity.
  - simpl. lia.
Defined.

Lemma ComputePostDominatingHoles_only_holes_witness :
  only_holes merge_state merge_state_holes.
Proof.
  apply (ComputePostDominatingHoles_only_holes 1 [1%nat; 2%nat] merge_state
           merge_state_holes []).
  vm_compute. reflexivity.
Defined.

Lemma ComputePostDominatingHoles_branch_returns_witness :
  ComputePostDominatingHoles_block 1 0%nat branch_graph
  = Some (tt,
          with_node_store
            (insert 10%nat
               (node_with_next_post_dominating_hole
                  (Some (if id (control 30 OpReturn) <? id (control 20 OpReturn)
                         then 30%nat else 20%nat))
                  (control 10 (OpConditional 1%nat 2%nat)))) branch_graph, []).
Proof.
  apply (ComputePostDominatingHoles_branch_returns 0 0%nat branch_graph
           (mkBlock [] None 10%nat None 0 false 1 1)
           (mkBlock [] None 20%nat None 0 false 11 11)
           (mkBlock [] None 30%nat None 0 false 21 21)
           (control 10 (OpConditional 1%nat 2%nat)) (control 20 OpReturn)
           (control 30 OpReturn) 1%nat 2%nat 20%nat 30%nat).
  all: try (vm_compute; reflexivity).
  simpl. lia.
Defined.

Lemma StraightForwardRegisterAllocator_stack_slots_witness :
  1 = top_of_stack_ spill_graph_end ∧ 0 ≤ 1 ∧
  (∀ p s, slot_of spill_graph_end p = Some s → slot_index s < 1) ∧
  (∀ n nd a, node_store spill_graph_end !! n = Some nd → spill_slot nd = Some a →
     index a < 1) ∧
  (∀ p q s s', p ≠ q → slot_of spill_graph_end p = Some s →
     slot_of spill_graph_end q = Some s' → 0 ≤ slot_index s →
     slot_index s ≠ slot_index s').
Proof.
  destruct spill_graph_nodes as [Hfix Hsp].
  apply (StraightForwardRegisterAllocator_stack_slots cfg4 1 [0%nat] empty_registers4
           0%nat None (node_store spill_graph) (block_store spill_graph) 1
           spill_graph_end []).
  - exact Hfix.
  - exact Hsp.
  - vm_compute. reflexivity.
Defined.

Lemma AllocateRegisters_keeps_allocated_witness :
  option_Forall2 allocated_mono (node_store spill_graph !! 3%nat)
    (node_store spill_graph_end !! 3%nat).
Proof.
  apply (AllocateRegisters_keeps_allocated cfg4 [0%nat] spill_graph spill_graph_end []).
  vm_compute. reflexivity.
Defined.

Lemma AllocateNode_allocates_witness :
  ∃ nd', node_store call_state_2 !! 2%nat = Some nd' ∧
         (∀ k i, inputs nd' !! k = Some i → IsAllocated (input_operand i) = true) ∧
         (Is_ValueNode (mkNode 2 OpValueNode true false [use_of 1%nat 9] 0 ∅ 9 9
                          (Unallocated (UExtended MUST_HAVE_REGISTER 0)) None None) = true →
          IsAllocated (result nd') = true).
Proof.
  apply (AllocateNode_allocates cfg4 2%nat _ call_state_1 call_state_2 []).
  - vm_compute. reflexivity.
  - vm_compute. reflexivity.
Defined.

Lemma Free_moves_to_highest_empty_witness :
  ∃ st' t,
    Free cfg4 0 true call_state_1 = Some (tt, st', t) ∧
    register_values_ st'
    = <[3%nat := Some 1%nat]> (<[0%nat := None]> (register_values_ call_state_1)) ∧
    values_ st' = <[1%nat := info_with_reg (Some 3) v1_in_R0]> (values_ call_state_1) ∧
    top_of_stack_ st' = top_of_stack_ call_state_1 ∧
    block_store st' =
      <[block_it_ call_state_1 :=
          block_with_nodes
            (with_move_at (node_it_ call_state_1)
               (IGapMove (RegisterOperand 0) (RegisterOperand 3))
               (nodes (mkBlock [INode 1%nat; INode 2%nat] None 9%nat None 0 false 1 1)))
            (mkBlock [INode 1%nat; INode 2%nat] None 9%nat None 0 false 1 1)]>
        (block_store call_state_1).
Proof.
  destruct call_state_1_tables as [Hrv Hv].
  apply (Free_moves_to_highest_empty cfg4 call_state_1 0 3 0%nat 3%nat 1%nat v1_in_R0).
  - exact regs4_NoDup.
  - by rewrite Hrv.
  - reflexivity.
  - by rewrite Hrv.
  - exact Hv.
  - reflexivity.
  - reflexivity.
  - intros k q Hk Hq. rewrite Hrv in Hq.
    destruct k as [|[|[|[|k]]]]; simpl in Hq; try discriminate; done.
  - lia.
  - by rewrite Hrv.
  - intros k Hk _. rewrite Hrv.
    destruct k as [|[|[|[|k]]]]; simpl; try lia; discriminate.
  - reflexivity.
  - vm_compute. reflexivity.
Defined.

Lemma MergeRegisterValues_only_target_witness :
  only_target 2%nat merge_state merge_state_merged.
Proof.
  apply (MergeRegisterValues_only_target cfg4 15%nat 2%nat 1%nat merge_state
           merge_state_merged []).
  vm_compute. reflexivity.
Defined.
